(** * Solar irradiance estimation and tilt-angle search of solar-app

    A shallow embedding of the radiation formulas of [src/solar_formulas.js]
    (identical, comments apart, in [src/js/solar_formulas.js]), of the annual
    tilt search [generarTablaAnualOptima] of [src/main.js] and of its
    refactored sibling [calcularRadiacionOptima] (module
    [solar_radiation_core.js], imported by [src/js/main_script.js] and
    [src/js/main_grid_script.js]).

    The second part covers the rest of these files and their callers: the
    sizing formulas of [src/solar_formulas.js] and the functions of
    [src/main.js] that apply them to the form (panels, batteries,
    regulator), the table of loads of [src/utils_consumption.js], the
    retry loop of the data source [obtenerGdOpenMeteo] in its two versions,
    the grid-connected formulas of [solar_grid_formulas.js] and their
    caller in [src/js/main_grid_script.js].

    Numbers.  A JavaScript number is modelled as an extended real with a
    not-a-number element: [NaN], the two infinities, or a finite real.
    Arithmetic on finite values is the exact arithmetic of [R]: rounding,
    overflow and the sign of zero are not modelled.  The special values follow
    IEEE 754 as ECMAScript prescribes (comparisons with [NaN] are false,
    [Infinity - Infinity] is [NaN], [Math.min()] is [Infinity], ...). *)

From Stdlib Require Import Reals Lra Lia ZArith List Bool String Sorted
  Permutation.
From Equations Require Import Equations.
Import ListNotations.

(* ================================================================== *)
(** ** JavaScript numbers *)
(* ================================================================== *)

Module JS.

Local Open Scope R_scope.

Inductive num : Type :=
| NaN  : num
| PInf : num
| NInf : num
| Fin  : R -> num.

(** [Infinity * r] (when [pos]) or [-Infinity * r] for a finite [r]. *)
Definition scale_inf (pos : bool) (r : R) : num :=
  if Rlt_dec 0 r then (if pos then PInf else NInf)
  else if Rlt_dec r 0 then (if pos then NInf else PInf)
  else NaN.

Definition add (x y : num) : num :=
  match x, y with
  | NaN, _ | _, NaN => NaN
  | Fin a, Fin b => Fin (a + b)
  | PInf, NInf | NInf, PInf => NaN
  | PInf, _ | _, PInf => PInf
  | NInf, _ | _, NInf => NInf
  end.

Definition neg (x : num) : num :=
  match x with
  | NaN => NaN
  | PInf => NInf
  | NInf => PInf
  | Fin a => Fin (- a)
  end.

Definition sub (x y : num) : num :=
  match x, y with
  | NaN, _ | _, NaN => NaN
  | Fin a, Fin b => Fin (a - b)
  | PInf, PInf | NInf, NInf => NaN
  | PInf, _ | _, NInf => PInf
  | NInf, _ | _, PInf => NInf
  end.

Definition mul (x y : num) : num :=
  match x, y with
  | NaN, _ | _, NaN => NaN
  | Fin a, Fin b => Fin (a * b)
  | PInf, PInf | NInf, NInf => PInf
  | PInf, NInf | NInf, PInf => NInf
  | PInf, Fin r | Fin r, PInf => scale_inf true r
  | NInf, Fin r | Fin r, NInf => scale_inf false r
  end.

Definition div (x y : num) : num :=
  match x, y with
  | NaN, _ | _, NaN => NaN
  | Fin a, Fin b => if Req_dec_T b 0 then scale_inf true a else Fin (a / b)
  | Fin _, PInf | Fin _, NInf => Fin 0
  | PInf, Fin b => if Rlt_dec b 0 then NInf else PInf
  | NInf, Fin b => if Rlt_dec b 0 then PInf else NInf
  | _, _ => NaN
  end.

(** The relational operators [<], [<=], [>], [>=] and the strict equality
    [===] on numbers. *)
Definition ltb (x y : num) : bool :=
  match x, y with
  | NaN, _ | _, NaN => false
  | Fin a, Fin b => if Rlt_dec a b then true else false
  | _, NInf => false
  | NInf, _ => true
  | PInf, _ => false
  | Fin _, PInf => true
  end.

Definition leb (x y : num) : bool :=
  match x, y with
  | NaN, _ | _, NaN => false
  | Fin a, Fin b => if Rle_dec a b then true else false
  | NInf, _ => true
  | _, PInf => true
  | _, _ => false
  end.

Definition gtb (x y : num) : bool := ltb y x.
Definition geb (x y : num) : bool := leb y x.

Definition eqb (x y : num) : bool :=
  match x, y with
  | Fin a, Fin b => if Req_dec_T a b then true else false
  | PInf, PInf | NInf, NInf => true
  | _, _ => false
  end.

Definition isNaN (x : num) : bool :=
  match x with NaN => true | _ => false end.

(** [typeof x === 'number']: every value of type [num] is a number, [NaN]
    and the infinities included. *)
Definition typeof_number (x : num) : bool := true.

Definition Math_sin (x : num) : num :=
  match x with Fin a => Fin (sin a) | _ => NaN end.

Definition Math_cos (x : num) : num :=
  match x with Fin a => Fin (cos a) | _ => NaN end.

Definition Math_tan (x : num) : num :=
  match x with Fin a => Fin (tan a) | _ => NaN end.

Definition Math_acos (x : num) : num :=
  match x with
  | Fin a => if Rle_dec (-1) a then
               if Rle_dec a 1 then Fin (acos a) else NaN
             else NaN
  | _ => NaN
  end.

(** [Math.pow(x, n)] for a literal natural exponent. *)
Definition Math_pow (x : num) (n : nat) : num :=
  match n with
  | O => Fin 1
  | S _ =>
      match x with
      | NaN => NaN
      | PInf => PInf
      | NInf => if Nat.even n then PInf else NInf
      | Fin a => Fin (a ^ n)
      end
  end.

Definition Math_min2 (x y : num) : num :=
  if isNaN x || isNaN y then NaN else if ltb y x then y else x.

Definition Math_max2 (x y : num) : num :=
  if isNaN x || isNaN y then NaN else if ltb x y then y else x.

(** [Math.min(...l)]: [Infinity] for no argument, [NaN] as soon as one
    argument is [NaN]. *)
Definition Math_min (l : list num) : num := fold_left Math_min2 l PInf.

Definition Math_abs (x : num) : num :=
  match x with
  | NaN => NaN
  | PInf | NInf => PInf
  | Fin a => Fin (Rabs a)
  end.

Definition Math_PI : num := Fin PI.

End JS.

Import JS.

Declare Scope js_scope.
Delimit Scope js_scope with js.
Bind Scope js_scope with num.
Coercion Fin : R >-> num.

Notation "x + y" := (add x y) : js_scope.
Notation "x - y" := (sub x y) : js_scope.
Notation "x * y" := (mul x y) : js_scope.
Notation "x / y" := (div x y) : js_scope.
Notation "- x" := (neg x) : js_scope.
Notation "x <? y" := (ltb x y) (at level 70, no associativity) : js_scope.
Notation "x <=? y" := (leb x y) (at level 70, no associativity) : js_scope.
Notation "x >? y" := (gtb x y) (at level 70, no associativity) : js_scope.
Notation "x >=? y" := (geb x y) (at level 70, no associativity) : js_scope.
Notation "x === y" := (eqb x y) (at level 70, no associativity) : js_scope.

(* ================================================================== *)
(** ** src/solar_formulas.js *)
(* ================================================================== *)

Module SolarFormulas.

Local Open Scope R_scope.
Local Open Scope js_scope.

(** *** Physical and conversion constants *)

Definition PI : num := Math_PI.
Definition RAD_A_DEG : num := 180%R / PI.
Definition ICS : num := 1367%R.
Definition FACTOR_G0D : num := 24%R / PI.

(** *** calcularRb *)

Definition numeradorRb (p d w b : num) : num :=
  let num_term1 := w * Math_sin d * Math_sin (p - b) in
  let num_term2 := Math_cos d * Math_cos (p - b) * Math_sin w in
  num_term1 + num_term2.

Definition denominadorRb (p d w : num) : num :=
  let den_term1 := w * Math_sin d * Math_sin p in
  let den_term2 := Math_cos d * Math_cos p * Math_sin w in
  den_term1 + den_term2.

Definition calcularRb (phi_rad delta_rad omega_s_rad beta_rad : num) : num :=
  let p := phi_rad in
  let b := beta_rad in
  let d := delta_rad in
  let w := omega_s_rad in
  let numerador := numeradorRb p d w b in
  let denominador := denominadorRb p d w in
  if denominador === 0%R then 0%R
  else numerador / denominador.

(** *** calcularRadiacionInclinada *)

(** The month object [item] that [main.js] builds and hands to the
    formulas.  Fields that JavaScript leaves [undefined] (those of a month
    whose day is invalid, [Gi] before the tilt is applied) hold [NaN]; such
    fields are never read as numbers by the code modelled here. *)
Record Item : Type := mkItem {
  mesNombre : string;
  isInvalid : bool;
  diasEnMes : Z;
  dn        : Z;
  delta     : num;
  E0        : num;
  omega_s   : num;
  G0d_kWh   : num;
  Gd_kWh    : num;
  Kd        : num;
  Dd        : num;
  Id        : num;
  Gi        : num
}.

(** The object returned by [calcularRadiacionInclinada]. *)
Module Inc.
Record t : Type := mk { Rb : num; Id_beta : num; Dd_beta : num; Gi : num }.
End Inc.

(** Sky view factor [Rd_term] and the ground-reflected component [Rr]. *)
Definition Rd_term (inclinacionRadianes : num) : num :=
  0.5%R * (1%R + Math_cos inclinacionRadianes).

Definition rho : num := 0.2%R.

Definition Rr (inclinacionRadianes Gd_kWh : num) : num :=
  let Rr_term := 0.5%R * (1%R - Math_cos inclinacionRadianes) in
  rho * Gd_kWh * Rr_term.

Definition calcularRadiacionInclinada
  (inclinacionRadianes : num) (item : Item) (latitudRadianes : num) : Inc.t :=
  let Rb := calcularRb latitudRadianes item.(delta) item.(omega_s)
                       inclinacionRadianes in
  let Gd_kWh := item.(Gd_kWh) in
  let G0d_kWh := item.(G0d_kWh) in
  let Dd := item.(Dd) in
  let Id := item.(Id) in
  if typeof_number Gd_kWh && (Gd_kWh >? 0%R) && (G0d_kWh >? 0%R) then
    (* 1. direct component *)
    let Id_beta := Id * Rb in
    let Id_beta := if Id_beta <? 0%R then Fin 0 else Id_beta in
    (* 2. diffuse component *)
    let Ai := Id / G0d_kWh in
    let anisotropyIndex := Math_max2 0%R (Math_min2 1%R Ai) in
    let Dd_beta := Dd * anisotropyIndex * Rb
                   + Dd * (1%R - anisotropyIndex) * Rd_term inclinacionRadianes in
    (* 3. reflected component, 4. global tilted irradiation *)
    let Gi := Id_beta + Dd_beta + Rr inclinacionRadianes Gd_kWh in
    Inc.mk Rb Id_beta Dd_beta Gi
  else
    Inc.mk Rb NaN NaN NaN.

(** *** calcularDelta *)

Definition calcularDelta (dn : num) : num :=
  let gamma := 2%R * PI * ((dn - 1%R) / 365%R) in
  0.006918%R - 0.399912%R * Math_cos gamma + 0.070257%R * Math_sin gamma
  - 0.006758%R * Math_cos (2%R * gamma) + 0.000907%R * Math_sin (2%R * gamma)
  - 0.002697%R * Math_cos (3%R * gamma) + 0.00148%R * Math_sin (3%R * gamma).

(** *** calcularG0d *)

Module G0.
Record t : Type := mk { omega_s : num; E0 : num; G0d_kWh : num }.
End G0.

Definition operandoArccos (latitudRadianes delta_rad : num) : num :=
  - Math_tan latitudRadianes * Math_tan delta_rad.

Definition calcularG0d (latitudRadianes delta_rad dn : num) : G0.t :=
  let argE0 := (2%R * PI * dn) / 365%R in
  let E0 := 1%R + 0.033%R * Math_cos argE0 in
  let operandoArccos := operandoArccos latitudRadianes delta_rad in
  let '(omega_s_rad, G0d_valor_Wh) :=
    if (operandoArccos >=? (-1)%R) && (operandoArccos <=? 1%R) then
      let omega_s_rad := Math_acos operandoArccos in
      let termino1 := omega_s_rad * Math_sin delta_rad
                      * Math_sin latitudRadianes in
      let termino2 := Math_cos delta_rad * Math_cos latitudRadianes
                      * Math_sin omega_s_rad in
      (omega_s_rad, FACTOR_G0D * ICS * E0 * (termino1 + termino2))
    else if operandoArccos <? (-1)%R then
      let omega_s_rad := PI in
      let termino1_polar := omega_s_rad * Math_sin delta_rad
                            * Math_sin latitudRadianes in
      (omega_s_rad, FACTOR_G0D * ICS * E0 * termino1_polar)
    else
      (Fin 0, Fin 0) in
  G0.mk omega_s_rad E0 (G0d_valor_Wh / 1000%R).

(** *** calcularComponentesHorizontales *)

Module HC.
Record t : Type := mk { Kd : num; Dd : num; Id : num }.
End HC.

Definition calcularComponentesHorizontales (Gd_kWh G0d_kWh : num) : HC.t :=
  if typeof_number Gd_kWh && (Gd_kWh >? 0%R) && (G0d_kWh >? 0%R) then
    (* 1. clearness factor *)
    let Kd := Gd_kWh / G0d_kWh in
    let Kd := if Kd >? 1%R then Fin 1.0 else Kd in
    (* 2. diffuse component *)
    let Dd := Gd_kWh * (1.39%R - 4.027%R * Kd + 5.531%R * Math_pow Kd 2
                        - 3.108%R * Math_pow Kd 3) in
    let Dd := if Dd <? 0%R then Fin 0 else Dd in
    (* 3. direct component *)
    let Id := Gd_kWh - Dd in
    let Id := if Id <? 0%R then Fin 0 else Id in
    HC.mk Kd Dd Id
  else
    HC.mk NaN NaN NaN.

End SolarFormulas.

Import SolarFormulas.

(** The real number pi, which the constant [PI] of the program shadows. *)
Abbreviation Rpi := Rtrigo1.PI (only parsing).

(* ================================================================== *)
(** ** src/main.js: the annual tilt search of the off-grid calculator *)
(* ================================================================== *)

Module Main.

Local Open Scope Z_scope.

(** *** Calendar table *)

Record MesData : Type := mkMes { nombre : string; dias : Z; inicio_dn : Z }.

Definition mesesData : list MesData :=
  [ mkMes "Enero" 31 1;       mkMes "Febrero" 28 32;
    mkMes "Marzo" 31 60;      mkMes "Abril" 30 91;
    mkMes "Mayo" 31 121;      mkMes "Junio" 30 152;
    mkMes "Julio" 31 182;     mkMes "Agosto" 31 213;
    mkMes "Septiembre" 30 244; mkMes "Octubre" 31 274;
    mkMes "Noviembre" 30 305; mkMes "Diciembre" 31 335 ].

(** *** ejecutarCalculos, steps 3 and 4: the month objects

    The data source is asynchronous; its outcome is the oracle [api], which
    gives for a day of the year the number that [parseFloat] reads from the
    string answered by [obtenerGdOpenMeteo] ([NaN] for an error message). *)

Definition prepararMes (latitudRadianes : num) (diaDelMes : Z)
  (mesData : MesData) : Item :=
  if (diaDelMes <? 1) || (diaDelMes >? mesData.(dias)) then
    mkItem mesData.(nombre) true mesData.(dias) (mesData.(inicio_dn) + 14)
           NaN NaN NaN NaN NaN NaN NaN NaN NaN
  else
    let dn := mesData.(inicio_dn) + (diaDelMes - 1) in
    let delta_rad := calcularDelta (IZR dn) in
    let g := calcularG0d latitudRadianes delta_rad (IZR dn) in
    mkItem mesData.(nombre) false mesData.(dias) dn
           delta_rad (G0.E0 g) (G0.omega_s g) (G0.G0d_kWh g)
           NaN NaN NaN NaN NaN.

Definition completarMes (api : Z -> num) (item : Item) : Item :=
  if item.(isInvalid) then item
  else
    let Gd := api item.(dn) in
    let c := calcularComponentesHorizontales Gd item.(G0d_kWh) in
    mkItem item.(mesNombre) item.(isInvalid) item.(diasEnMes) item.(dn)
           item.(delta) item.(E0) item.(omega_s) item.(G0d_kWh)
           Gd (HC.Kd c) (HC.Dd c) (HC.Id c) item.(Gi).

Definition resultsRaw (latitudRadianes : num) (diaDelMes : Z)
  (api : Z -> num) : list Item :=
  map (completarMes api) (map (prepararMes latitudRadianes diaDelMes) mesesData).

(** The filter that keeps the months with a usable horizontal sample. *)
Definition esMesValido (item : Item) : bool :=
  negb item.(isInvalid)
  && typeof_number item.(Gd_kWh)
  && negb (isNaN item.(Gd_kWh))
  && (item.(Gd_kWh) >? 0%R)%js.

Definition conGi (inclinacionRadianes latitudRadianes : num) (item : Item)
  : Item :=
  let calcInclinada :=
    calcularRadiacionInclinada inclinacionRadianes item latitudRadianes in
  mkItem item.(mesNombre) item.(isInvalid) item.(diasEnMes) item.(dn)
         item.(delta) item.(E0) item.(omega_s) item.(G0d_kWh)
         item.(Gd_kWh) item.(Kd) item.(Dd) item.(Id) (Inc.Gi calcInclinada).

Definition resultadosMensuales (inclinacionRadianes latitudRadianes : num)
  (raw : list Item) : list Item :=
  map (conGi inclinacionRadianes latitudRadianes) (filter esMesValido raw).

(** *** generarTablaAnualOptima *)

(** One row of [resultadosAnuales]. *)
Record ResAnual : Type := mkResAnual {
  beta : Z; GiAnual : num; GiMin : num
}.

(** The variables that the loop over the angles updates. *)
Record Estado : Type := mkEstado {
  resultadosAnuales : list ResAnual;
  maxGiAnual : num;
  anguloOptimo : option Z
}.

(** Body of the [forEach] over the months, for one angle. *)
Definition acumularMes (betaRadianes latitudRadianes : num)
  (acc : num * list num) (item : Item) : num * list num :=
  let '(GiAnualTotal, GiMensuales) := acc in
  let diasEnMes := item.(diasEnMes) in
  let calcInclinada :=
    calcularRadiacionInclinada betaRadianes item latitudRadianes in
  if typeof_number (Inc.Gi calcInclinada)
     && negb (isNaN (Inc.Gi calcInclinada)) then
    ((GiAnualTotal + Inc.Gi calcInclinada * Fin (IZR diasEnMes))%js,
     GiMensuales ++ [Inc.Gi calcInclinada])
  else acc.

(** Body of the loop over the angles: the row pushed for [betaGrados]. *)
Definition evaluarAngulo (items : list Item) (latitudRadianes : num)
  (betaGrados : Z) : ResAnual :=
  let betaRadianes := (Fin (IZR betaGrados) / RAD_A_DEG)%js in
  let '(GiAnualTotal, GiMensuales) :=
    fold_left (acumularMes betaRadianes latitudRadianes) items (Fin 0, []) in
  let GiAnualMWh := (GiAnualTotal / 1000%R)%js in
  mkResAnual betaGrados GiAnualMWh (Math_min GiMensuales).

Definition actualizarOptimo (st : Estado) (res : ResAnual) : Estado :=
  let resultados := st.(resultadosAnuales) ++ [res] in
  if (res.(GiAnual) >? st.(maxGiAnual))%js then
    mkEstado resultados res.(GiAnual) (Some res.(beta))
  else
    mkEstado resultados st.(maxGiAnual) st.(anguloOptimo).

(** [for (let betaGrados = 0; betaGrados <= 90; betaGrados += 5)]: the
    number of values of [betaGrados] still to be tried bounds the loop. *)
Definition restantes (betaGrados : Z) : nat := Z.to_nat (95 - betaGrados).

Equations? bucleAngulos (items : list Item) (latitudRadianes : num)
  (betaGrados : Z) (st : Estado) : Estado
  by wf (restantes betaGrados) lt :=
  bucleAngulos items latitudRadianes betaGrados st
    with Z_le_dec betaGrados 90 => {
    | left _ =>
        bucleAngulos items latitudRadianes (betaGrados + 5)
          (actualizarOptimo st (evaluarAngulo items latitudRadianes betaGrados));
    | right _ => st }.
Proof. unfold restantes. lia. Qed.

Definition estadoInicial : Estado := mkEstado [] (Fin (-1)) None.

Definition busquedaAnual (items : list Item) (latitudRadianes : num)
  : Estado :=
  bucleAngulos items latitudRadianes 0 estadoInicial.

(** The object returned by [generarTablaAnualOptima]. *)
Module Tabla.
Record t : Type := mk { anguloOptimo : option Z; GiMinMensual : num }.
End Tabla.

Definition esBeta (anguloOptimo : option Z) (res : ResAnual) : bool :=
  match anguloOptimo with
  | Some a => res.(beta) =? a
  | None => false
  end.

Definition generarTablaAnualOptima
  (resultadosMensualesGlobales : list Item) (latitudRadianes : num)
  : Tabla.t :=
  match resultadosMensualesGlobales with
  | [] => Tabla.mk None (Fin 0)
  | _ :: _ =>
      let st := busquedaAnual resultadosMensualesGlobales latitudRadianes in
      let GiMinMensual :=
        match find (esBeta st.(anguloOptimo)) st.(resultadosAnuales) with
        | Some resultadoOptimo => resultadoOptimo.(GiMin)
        | None => PInf
        end in
      Tabla.mk st.(anguloOptimo) GiMinMensual
  end.

(** [ejecutarCalculos], from the validated inputs to the tilt search. *)
Definition ejecutarCalculos (latitudGrados : num) (diaDelMes : Z)
  (api : Z -> num) : Tabla.t :=
  let inclinacionGradosDefault := Math_abs latitudGrados in
  let latitudRadianes := (latitudGrados / RAD_A_DEG)%js in
  let inclinacionRadianesDefault := (inclinacionGradosDefault / RAD_A_DEG)%js in
  let raw := resultsRaw latitudRadianes diaDelMes api in
  let resultadosMensualesGlobales :=
    resultadosMensuales inclinacionRadianesDefault latitudRadianes raw in
  generarTablaAnualOptima resultadosMensualesGlobales latitudRadianes.

End Main.

(* ================================================================== *)
(** ** solar_radiation_core.js: calcularRadiacionOptima *)
(* ================================================================== *)

Module RadiationCore.

Import Main.
Local Open Scope Z_scope.

(** The text of this module is the last part of [README.md] (from
    "Modulo central para la obtencion de datos de radiacion solar").  Its
    calendar table is a copy of [Main.mesesData].  The data source of
    [src/js/solar_formulas.js] answers a number or throws after its retries:
    the oracle [api] gives [None] for a rejected request. *)

Definition prepararMes (latitudRadianes : num) (diaDelMes : Z)
  (mesData : MesData) : list Item :=
  if (diaDelMes <? 1) || (diaDelMes >? mesData.(dias)) then []
  else
    let dn := mesData.(inicio_dn) + (diaDelMes - 1) in
    let delta_rad := calcularDelta (IZR dn) in
    let g := calcularG0d latitudRadianes delta_rad (IZR dn) in
    [ mkItem mesData.(nombre) false mesData.(dias) dn
             delta_rad (G0.E0 g) (G0.omega_s g) (G0.G0d_kWh g)
             NaN NaN NaN NaN NaN ].

Definition completarMes (api : Z -> option num) (item : Item) : Item :=
  match api item.(dn) with
  | Some Gd =>
      let c := calcularComponentesHorizontales Gd item.(G0d_kWh) in
      mkItem item.(mesNombre) item.(isInvalid) item.(diasEnMes) item.(dn)
             item.(delta) item.(E0) item.(omega_s) item.(G0d_kWh)
             Gd (HC.Kd c) (HC.Dd c) (HC.Id c) item.(Gi)
  | None =>
      (* catch: the month is marked invalid *)
      mkItem item.(mesNombre) item.(isInvalid) item.(diasEnMes) item.(dn)
             item.(delta) item.(E0) item.(omega_s) item.(G0d_kWh)
             (Fin 0) item.(Kd) item.(Dd) item.(Id) item.(Gi)
  end.

Definition resultsRaw (latitudRadianes : num) (diaDelMes : Z)
  (api : Z -> option num) : list Item :=
  map (completarMes api)
      (flat_map (prepararMes latitudRadianes diaDelMes) mesesData).

Definition esDatoValido (item : Item) : bool :=
  typeof_number item.(Gd_kWh) && (item.(Gd_kWh) >? 0%R)%js.

(** The object returned by [calcularRadiacionOptima]; a final monthly
    result is the month object together with its tilted values. *)
Module Optima.
Record t : Type := mk {
  anguloOptimo : option Z;
  GiMinMensual : num;
  GiAnualMWh : num;
  resultadosMensuales : list (Item * Inc.t)
}.
End Optima.

(** From the valid months to the result: the guard on the number of
    months, the search (the loop of [Main.bucleAngulos], which this module
    repeats word for word) and the monthly results at the optimum. *)
Definition optimizar (datosBaseValidos : list Item) (latitudRadianes : num)
  : Optima.t :=
  if (Z.of_nat (List.length datosBaseValidos) <? 10) then
    Optima.mk None (Fin 0) (Fin 0) []
  else
    let st := bucleAngulos datosBaseValidos latitudRadianes 0 estadoInicial in
    let GiMinMensual :=
      match find (esBeta st.(anguloOptimo)) st.(resultadosAnuales) with
      | Some resultadoOptimo => resultadoOptimo.(GiMin)
      | None => Fin 0
      end in
    let resultadosMensualesFinal :=
      match st.(anguloOptimo) with
      | Some anguloOptimo =>
          let anguloRadianesOptimo := (Fin (IZR anguloOptimo) / RAD_A_DEG)%js in
          map (fun item =>
                 (item, calcularRadiacionInclinada anguloRadianesOptimo item
                                                   latitudRadianes))
              datosBaseValidos
      | None => []
      end in
    Optima.mk st.(anguloOptimo) GiMinMensual st.(maxGiAnual)
              resultadosMensualesFinal.

Definition calcularRadiacionOptima (latitudGrados : num) (diaDelMes : Z)
  (api : Z -> option num) : Optima.t :=
  let latitudRadianes := (latitudGrados / RAD_A_DEG)%js in
  let raw := resultsRaw latitudRadianes diaDelMes api in
  let datosBaseValidos := filter esDatoValido raw in
  optimizar datosBaseValidos latitudRadianes.

End RadiationCore.

(* ================================================================== *)
(** ** More of JavaScript: rounding and defaults *)
(* ================================================================== *)

Module JSExtra.

Local Open Scope R_scope.

(** [Math.ceil(x)]: [NaN] and the infinities are returned as they are. *)
Definition Math_ceil (x : num) : num :=
  match x with
  | Fin a => Fin (IZR (Zceil a))
  | _ => x
  end.

(** [x || d] for a number [x]: the falsy numbers are [0] and [NaN]. *)
Definition o_defecto (x d : num) : num :=
  if isNaN x || (x === 0%R)%js then d else x.

(** The number that [parseFloat] reads back from [x.toFixed(2)].
    [toFixed] prints ["NaN"] and the infinities by name, a magnitude of
    10^21 or more by [ToString] (which [parseFloat] reads back unchanged),
    and otherwise the sign followed by [n / 100] for the integer [n]
    closest to [100 * |x|], the larger one in a tie. *)
Definition centesimas (a : R) : R := IZR (Zfloor (a * 100 + / 2)) / 100.

Definition toFixed2 (x : num) : num :=
  match x with
  | Fin a =>
      if Rle_dec (10 ^ 21) (Rabs a) then Fin a
      else if Rlt_dec a 0 then Fin (- centesimas (- a))
      else Fin (centesimas a)
  | _ => x
  end.

End JSExtra.

Import JSExtra.

(* ================================================================== *)
(** ** src/solar_formulas.js: sizing of the off-grid system *)
(* ================================================================== *)

Module SolarSizing.

Local Open Scope R_scope.
Local Open Scope js_scope.

(** [dimensionarGenerador(ET_requerida, HPS_min, Cp = 0.8)]; the callers
    pass the three arguments. *)
Definition dimensionarGenerador (ET_requerida HPS_min Cp : num) : num :=
  if (HPS_min <=? 0%R) || (Cp <=? 0%R) then Fin 0
  else ET_requerida / (HPS_min * Cp).

Definition calcularNumeroTotalPaneles
  (ET_requerida HPS_min Pp_panel Pg_perdidas : num) : num :=
  if (HPS_min <=? 0%R) || (Pp_panel <=? 0%R) || (Pg_perdidas <=? 0%R)
  then Fin 0
  else
    let denominador := HPS_min * Pp_panel * Pg_perdidas in
    let Nt := ET_requerida / denominador in
    Math_ceil Nt.

Definition calcularPanelesEnSerie (V_BAT Vp : num) : num :=
  if Vp <=? 0%R then Fin 0
  else
    let Ns := V_BAT / Vp in
    Math_ceil Ns.

Definition calcularRamasEnParalelo (Nt Ns : num) : num :=
  if Ns <=? 0%R then Nt
  else
    let Np := Nt / Ns in
    Math_ceil Np.

Definition calcularCapacidadNominalBateria
  (ET_requeridaWh D_dias Vbat_voltios Pd_descarga : num) : num :=
  if (Vbat_voltios <=? 0%R) || (Pd_descarga <=? 0%R) then Fin 0
  else
    let energiaMinimaRequeridaWh := D_dias * ET_requeridaWh in
    let denominador := Vbat_voltios * Pd_descarga in
    let Cn := energiaMinimaRequeridaWh / denominador in
    Math_ceil Cn.

Definition calcularCorrienteGenerada (Pp_panel VpmpP Np : num) : num :=
  if VpmpP <=? 0%R then Fin 0
  else
    let IpmpP := Pp_panel / VpmpP in
    let IG := IpmpP * Np in
    IG.

(** [calcularCorrienteConsumida(Pdc, Vbat, Pac, Vac = 220)]: the caller of
    [main.js] leaves [Vac] out, which then is [Vac_defecto]. *)
Definition Vac_defecto : num := 220%R.

Definition calcularCorrienteConsumida (Pdc Vbat Pac Vac : num) : num :=
  if (Vbat <=? 0%R) || (Vac <=? 0%R) then Fin 0
  else
    let I_DC := Pdc / Vbat in
    let I_AC := Pac / Vac in
    I_DC + I_AC.

Definition calcularCorrienteRegulador (IG IC : num) : num :=
  let IR_Max := Math_max2 IG IC in
  Math_ceil (IR_Max * 1.25%R).

Definition calcularInversorNominal (P_ac_w factor_seguridad : num) : num :=
  if P_ac_w <=? 0%R then Fin 0
  else
    let P_nominal_W := P_ac_w * factor_seguridad in
    P_nominal_W.

End SolarSizing.

Import SolarSizing.

(* ================================================================== *)
(** ** src/solar_formulas.js: the data source obtenerGdOpenMeteo *)
(* ================================================================== *)

Module OpenMeteo.

Local Open Scope Z_scope.

(** What one request to the archive comes to, in the order in which the
    body of the [try] examines it. *)
Inductive Respuesta : Type :=
| Falla                       (* [fetch] or [response.json()] throws *)
| ConRazon                    (* [data.reason] is truthy *)
| ConValor (value_MJ : R)     (* a number heads the array of daily sums *)
| ValorNulo                   (* [null] or [undefined] heads the array *)
| SinDatos.                   (* no array of daily sums, or an empty one *)

(** The string that the function returns: one of its three messages
    ("Error API (OM): ...", "Datos no disponibles (OM)", "Error
    API/Conexion (OM) - Fallo en reintentos") or the two-decimal print of a
    number. *)
Inductive Texto : Type :=
| ErrorAPI
| DatosNoDisponibles
| FalloEnReintentos
| Cifra (x : num).

(** [parseFloat] of such a string: the three messages begin with a letter
    and read as [NaN]. *)
Definition parseFloat (s : Texto) : num :=
  match s with
  | Cifra x => toFixed2 x
  | _ => NaN
  end.

Definition MJ_A_KWH : num := 0.277778%R.

(** The outcome of a call together with what it did on the way: the number
    of requests sent and the pauses (in milliseconds) in their order. *)
Record Traza : Type := mkTraza {
  devuelto : Texto;
  peticiones : nat;
  esperas : list Z
}.

(** [for (let attempt = 0; attempt < maxRetries; attempt++)], with
    [porHacer] turns left; [red attempt] is the outcome of the request of
    turn [attempt]. *)
Fixpoint bucleReintentos (red : nat -> Respuesta) (maxRetries : nat)
  (porHacer attempt : nat) (pausas : list Z) : Traza :=
  match porHacer with
  | O => mkTraza FalloEnReintentos attempt pausas
  | S resto =>
      match red attempt with
      | ConRazon => mkTraza ErrorAPI (S attempt) pausas
      | ConValor value_MJ =>
          mkTraza (Cifra (Fin value_MJ * MJ_A_KWH)%js) (S attempt) pausas
      | ValorNulo => mkTraza DatosNoDisponibles (S attempt) pausas
      | SinDatos | Falla =>
          (* the [throw] of the last turn is left out and its [catch]
             does not pause *)
          if Z.of_nat attempt <? Z.of_nat maxRetries - 1 then
            bucleReintentos red maxRetries resto (S attempt)
              (pausas ++ [1000 * 2 ^ Z.of_nat attempt])
          else
            bucleReintentos red maxRetries resto (S attempt) pausas
      end
  end.

Definition obtenerGdOpenMeteo (red : nat -> Respuesta) (maxRetries : nat)
  : Traza :=
  bucleReintentos red maxRetries maxRetries 0 [].

Definition maxRetries_defecto : nat := 3.

(** The oracle of [Main.completarMes] when the requests of the day [dn]
    come to [red dn]: [parseFloat(await item.GdPromise)]. *)
Definition GdLeido (red : Z -> nat -> Respuesta) (dn : Z) : num :=
  parseFloat (devuelto (obtenerGdOpenMeteo (red dn) maxRetries_defecto)).

End OpenMeteo.

(* ================================================================== *)
(** ** src/js/solar_formulas.js: the data source of the refactored
       calculators *)
(* ================================================================== *)

Module OpenMeteoJS.

Local Open Scope Z_scope.

(** What one request comes to; this version also tests [response.ok]. *)
Inductive Respuesta : Type :=
| Falla                       (* [fetch] or [response.json()] throws *)
| NoOk                        (* [response.ok] is false *)
| ConRazon                    (* [data.reason] is truthy *)
| ConValor (value_MJ : R)     (* a number heads the array of daily sums *)
| ValorNulo                   (* [null] or [undefined] heads the array *)
| SinDatos.                   (* no array of daily sums, or an empty one *)

(** The function returns a number or throws: the error of the last turn
    ("Fallo definitivo de API: ...") or the one that follows the loop
    ("Error API/Conexion (OM) - Fallo en reintentos."). *)
Inductive Resultado : Type :=
| Devuelve (x : num)
| FalloDefinitivo
| FalloEnReintentos.

Definition MJ_A_KWH : num := 0.277778%R.

Record Traza : Type := mkTraza {
  resultado : Resultado;
  peticiones : nat;
  esperas : list Z
}.

(** Every outcome but a value throws inside the [try]; the [catch] pauses
    and goes on, or throws for good in the last turn. *)
Fixpoint bucleReintentos (red : nat -> Respuesta) (maxRetries : nat)
  (porHacer attempt : nat) (pausas : list Z) : Traza :=
  match porHacer with
  | O => mkTraza FalloEnReintentos attempt pausas
  | S resto =>
      match red attempt with
      | ConValor value_MJ =>
          mkTraza (Devuelve (Fin value_MJ * MJ_A_KWH)%js) (S attempt) pausas
      | _ =>
          if Z.of_nat attempt <? Z.of_nat maxRetries - 1 then
            bucleReintentos red maxRetries resto (S attempt)
              (pausas ++ [1000 * 2 ^ Z.of_nat attempt])
          else
            mkTraza FalloDefinitivo (S attempt) pausas
      end
  end.

Definition obtenerGdOpenMeteo (red : nat -> Respuesta) (maxRetries : nat)
  : Traza :=
  bucleReintentos red maxRetries maxRetries 0 [].

Definition maxRetries_defecto : nat := 3.


End OpenMeteoJS.

(* ================================================================== *)
(** ** src/utils_consumption.js: the table of loads *)
(* ================================================================== *)

Module Consumption.

Local Open Scope R_scope.
Local Open Scope js_scope.

(** A row of the table: the selected type and what [parseFloat] reads from
    the power and time fields. *)
Record Fila : Type := mkFila {
  tipo : string;
  potencia_leida : num;
  tiempo_leido : num
}.

(** The [for] loop of [calcularConsumoTotal]; [None] when a row is
    rejected ([is_valid = false; break]). *)
Fixpoint recorrerFilas (filas : list Fila) (EDC EAC : num)
  : option (num * num) :=
  match filas with
  | [] => Some (EDC, EAC)
  | row :: resto =>
      let potencia := o_defecto row.(potencia_leida) 0%R in
      let tiempo := o_defecto row.(tiempo_leido) 0%R in
      if (potencia <? 0%R) || (tiempo <? 0%R) || (tiempo >? 24%R) then None
      else
        let energiaDiaria := potencia * tiempo in
        if String.eqb row.(tipo) "DC" then
          recorrerFilas resto (EDC + energiaDiaria) EAC
        else
          recorrerFilas resto EDC (EAC + energiaDiaria)
  end.

(** The value returned (and handed to the callback); [etaBAT_leida] and
    [etaINV_leida] are what [parseFloat] reads from the two fields. *)
Definition calcularConsumoTotal (etaBAT_leida etaINV_leida : num)
  (filas : list Fila) : num :=
  let etaBAT := o_defecto etaBAT_leida 0%R in
  let etaINV := o_defecto etaINV_leida 0%R in
  if isNaN etaBAT || (etaBAT <=? 0%R) || isNaN etaINV || (etaINV <=? 0%R)
  then Fin 0
  else
    match recorrerFilas filas 0%R 0%R with
    | None => Fin 0
    | Some (EDC, EAC) =>
        let energiaDC_ajustada := EDC / etaBAT in
        let energiaAC_ajustada := EAC / (etaBAT * etaINV) in
        let ET := energiaDC_ajustada + energiaAC_ajustada in
        ET
    end.

Module Potencia.
Record t : Type := mk { Pdc_W : num; Pac_W : num }.
End Potencia.

Definition sumarPotencia (acc : Potencia.t) (row : Fila) : Potencia.t :=
  let potencia := o_defecto row.(potencia_leida) 0%R in
  if String.eqb row.(tipo) "DC" then
    Potencia.mk (Potencia.Pdc_W acc + potencia) (Potencia.Pac_W acc)
  else if String.eqb row.(tipo) "AC" then
    Potencia.mk (Potencia.Pdc_W acc) (Potencia.Pac_W acc + potencia)
  else acc.

Definition obtenerPotenciaInstantaneaTotal (filas : list Fila)
  : Potencia.t :=
  fold_left sumarPotencia filas (Potencia.mk 0%R 0%R).

End Consumption.

(* ================================================================== *)
(** ** src/main.js: sizing of the generator, the batteries and the
       regulator *)
(* ================================================================== *)

Module MainSizing.

Import Main Consumption.
Local Open Scope R_scope.
Local Open Scope js_scope.

(** *** ejecutarCalculos, step 8

    What the step computes and writes into the fields [input-et] and
    [input-hps]; a field is held as the number that [parseFloat] reads from
    its text.  [None] is the branch that clears the sizing section. *)
Record Generador : Type := mkGenerador {
  PpicoRequerida : num;
  input_et : num;
  input_hps : num
}.

Definition dimensionamientoFinal (ET_requerida : num) (tabla : Tabla.t)
  : option Generador :=
  match Tabla.anguloOptimo tabla with
  | Some _ =>
      let GiMinMensual := Tabla.GiMinMensual tabla in
      if GiMinMensual >? 0%R then
        let Cp_valor_estandar := Fin 0.8 in
        let PpicoRequerida :=
          dimensionarGenerador ET_requerida GiMinMensual Cp_valor_estandar in
        let ET_en_KWH := ET_requerida / 1000%R in
        Some (mkGenerador PpicoRequerida (toFixed2 ET_en_KWH)
                          (toFixed2 GiMinMensual))
      else None
  | None => None
  end.

(** *** calcularNumeroPaneles

    The arguments are what [parseFloat] reads from the six fields. *)
Inductive Paneles : Type :=
| RevisarDatos
| SoloTotal (Nt_total Nt_total_float : num)
| Matriz (Nt_total Nt_total_float Ns Np : num).

Definition calcularNumeroPaneles (Et_kwh HPS_kwh Pp_Wp Pg V_BAT Vp : num)
  : Paneles :=
  if isNaN Et_kwh || isNaN HPS_kwh || isNaN Pp_Wp || isNaN Pg
     || (Et_kwh <=? 0%R) || (HPS_kwh <=? 0%R) || (Pp_Wp <=? 0%R)
     || (Pg <=? 0%R)
  then RevisarDatos
  else
    let Et_wh := Et_kwh * 1000%R in
    let Nt_total_float := calcularNumeroTotalPaneles Et_wh HPS_kwh Pp_Wp Pg in
    let Nt_total := Math_ceil Nt_total_float in
    if isNaN V_BAT || isNaN Vp || (V_BAT <=? 0%R) || (Vp <=? 0%R) then
      SoloTotal Nt_total Nt_total_float
    else
      let Ns := calcularPanelesEnSerie V_BAT Vp in
      let Np := calcularRamasEnParalelo Nt_total Ns in
      Matriz Nt_total Nt_total_float Ns Np.

(** *** calcularCapacidadBaterias

    [consumoDiarioKWh] is [parseFloat(value || 0)] of the field [input-et]
    (0 for an empty field); the other arguments are what [parseFloat] reads
    from the fields.  [None] is the message asking to check the data. *)
Definition calcularCapacidadBaterias
  (consumoDiarioKWh autonomia_leida Vbat_voltios pd_leida : num)
  : option num :=
  let ET_requeridaWh := consumoDiarioKWh * 1000%R in
  let D_dias := o_defecto autonomia_leida 2%R in
  let Pd_descarga := o_defecto pd_leida 0.5%R in
  if (ET_requeridaWh <=? 0%R) || isNaN D_dias || (D_dias <=? 0%R)
     || isNaN Vbat_voltios || (Vbat_voltios <=? 0%R)
     || isNaN Pd_descarga || (Pd_descarga <=? 0%R) || (Pd_descarga >? 1%R)
  then None
  else
    let Cn_Ah :=
      calcularCapacidadNominalBateria ET_requeridaWh D_dias Vbat_voltios
                                      Pd_descarga in
    Some Cn_Ah.

(** *** calcularCorrienteReguladorFinal

    The arguments are what [parseFloat] reads from the fields [input-pp],
    [input-vp] (read twice, as [VpmpP] and as [Vp]), [input-et],
    [input-hps], [input-pg] and [input-vbat].  [None] is the early return
    that leaves the section empty. *)
Record Regulador : Type := mkRegulador { IG : num; IC : num; IR_final : num }.

Definition ramasDelRegulador (Et_kwh HPS_kwh Pp_Wp Pg V_BAT Vp : num) : num :=
  if (Et_kwh >? 0%R) && (HPS_kwh >? 0%R) && (Pp_Wp >? 0%R) && (Pg >? 0%R)
     && (V_BAT >? 0%R) && (Vp >? 0%R)
  then
    let Nt_total :=
      Math_ceil (calcularNumeroTotalPaneles (Et_kwh * 1000%R) HPS_kwh
                                            Pp_Wp Pg) in
    let Ns := calcularPanelesEnSerie V_BAT Vp in
    calcularRamasEnParalelo Nt_total Ns
  else Fin 0.

Definition calcularCorrienteReguladorFinal
  (pp_leida vp_leida et_leida hps_leida pg_leida vbat_leida : num)
  (filas : list Fila) : option Regulador :=
  let Pp_Wp := o_defecto pp_leida 0%R in
  let VpmpP := o_defecto vp_leida 0%R in
  let Et_kwh := o_defecto et_leida 0%R in
  let HPS_kwh := o_defecto hps_leida 0%R in
  let Pg := o_defecto pg_leida 0%R in
  let V_BAT := o_defecto vbat_leida 0%R in
  let Vp := o_defecto vp_leida 0%R in
  let Np := ramasDelRegulador Et_kwh HPS_kwh Pp_Wp Pg V_BAT Vp in
  let P := obtenerPotenciaInstantaneaTotal filas in
  let Pdc_W := Potencia.Pdc_W P in
  let Pac_W := Potencia.Pac_W P in
  let Vbat_voltios := V_BAT in
  if (Np <=? 0%R) || (Vbat_voltios <=? 0%R) || (Pp_Wp <=? 0%R)
     || (VpmpP <=? 0%R) || (Pdc_W + Pac_W <=? 0%R)
  then None
  else
    let IG := calcularCorrienteGenerada Pp_Wp VpmpP Np in
    let IC := calcularCorrienteConsumida Pdc_W Vbat_voltios Pac_W
                                         Vac_defecto in
    let IR_final := calcularCorrienteRegulador IG IC in
    Some (mkRegulador IG IC IR_final).

(** *** calcularInversorFinal *)
Definition calcularInversorFinal (vbat_leida : num) (filas : list Fila)
  : option num :=
  let V_BAT := o_defecto vbat_leida 0%R in
  let Pac_W := Potencia.Pac_W (obtenerPotenciaInstantaneaTotal filas) in
  if (V_BAT <=? 0%R) || (Pac_W <=? 0%R) then None
  else
    let FACTOR_SEGURIDAD := Fin 1.25 in
    Some (calcularInversorNominal Pac_W FACTOR_SEGURIDAD).

End MainSizing.

(* ================================================================== *)
(** ** solar_grid_formulas.js: sizing of a grid-connected system *)
(* ================================================================== *)

Module GridFormulas.

Local Open Scope R_scope.
Local Open Scope js_scope.

(** The three errors that the module throws. *)
Inductive Error : Type :=
| HSPyRendimiento   (* "HSP Anual y Rendimiento deben ser mayores que cero." *)
| PotenciaModulo    (* "La potencia del modulo debe ser mayor que cero." *)
| RadiacionAnual.   (* "El valor de Radiacion Anual (GiAnualMWh) debe ser
                        positivo. Verifica la API." *)

(** A computation that returns a value or throws. *)
Definition lanza (A : Type) : Type := (Error + A)%type.

Definition ligar {A B : Type} (m : lanza A) (f : A -> lanza B) : lanza B :=
  match m with
  | inl e => inl e
  | inr a => f a
  end.

Notation "'const' x '<-' m ';' k" := (ligar m (fun x => k))
  (at level 10, x name, m at level 100, k at level 200).

Definition calcularPotenciaPico
  (consumoAnual_kWh HSP_anual factorRendimiento : num) : lanza num :=
  if (HSP_anual <=? 0%R) || (factorRendimiento <=? 0%R) then
    inl HSPyRendimiento
  else
    let potenciaPico_kWp := consumoAnual_kWh / (HSP_anual * factorRendimiento) in
    inr potenciaPico_kWp.

Definition calcularNumeroModulos (potenciaPico_kWp potenciaModulo_Wp : num)
  : lanza num :=
  if potenciaModulo_Wp <=? 0%R then inl PotenciaModulo
  else
    let potenciaPico_Wp := potenciaPico_kWp * 1000%R in
    let numModulosFloat := potenciaPico_Wp / potenciaModulo_Wp in
    inr (Math_ceil numModulosFloat).

Definition dimensionarInversor (potenciaPico_kWp : num) : num :=
  let factorRatioDCAC := Fin 1 in
  let potenciaInversor_kW := potenciaPico_kWp * factorRatioDCAC in
  potenciaInversor_kW.

Module Sistema.
Record t : Type := mk {
  potenciaPico_kWp : num;
  numModulos : num;
  potenciaInversor_kW : num;
  HSP_anual_calculada_kWh : num;
  anguloOptimo : num
}.
End Sistema.

Definition dimensionarSistemaOnGrid
  (consumoAnual_kWh GiAnualMWh factorRendimiento potenciaModulo_Wp
   anguloOptimo : num) : lanza Sistema.t :=
  if GiAnualMWh <=? 0%R then inl RadiacionAnual
  else
    let HSP_anual := GiAnualMWh * 1000%R in
    const potenciaPico_kWp <-
      calcularPotenciaPico consumoAnual_kWh HSP_anual factorRendimiento;
    const numModulos <-
      calcularNumeroModulos potenciaPico_kWp potenciaModulo_Wp;
    let potenciaInversor_kW := dimensionarInversor potenciaPico_kWp in
    inr (Sistema.mk (toFixed2 potenciaPico_kWp) numModulos
                    (toFixed2 potenciaInversor_kW) (toFixed2 HSP_anual)
                    anguloOptimo).

End GridFormulas.

(* ================================================================== *)
(** ** src/js/main_grid_script.js: the grid-connected calculator *)
(* ================================================================== *)

Module GridScript.

Import GridFormulas.
Local Open Scope R_scope.
Local Open Scope js_scope.




(** *** handleGridCalculation, from the validation of the values on *)

Definition breakersComerciales : list num :=
  [Fin 15; Fin 20; Fin 25; Fin 30; Fin 40; Fin 50; Fin 60; Fin 70; Fin 80;
   Fin 100].

(** [breakersComerciales.find(b => b >= breakerCalculado) ||
    breakerCalculado]; no commercial size is falsy. *)
Definition sugerirBreaker (breakerCalculado : num) : num :=
  match find (fun b => b >=? breakerCalculado) breakersComerciales with
  | Some b => b
  | None => breakerCalculado
  end.

Module Resultados.
Record t : Type := mk {
  potenciaPico_kWp : num;
  numModulos : num;
  potenciaInversor_kW : num;
  corrienteAC : num;
  breakerSugerido : num;
  hspDiario : num;
  seccionCalculada : num
}.
End Resultados.

(** What the function shows: the request to check the values, the message
    of the [catch] around the computation, or the results. *)
Inductive Salida : Type :=
| ValoresNoValidos
| ErrorDeCalculo
| Mostrar (r : Resultados.t).

(** [consumoAnual_kWh] comes from [calcularConsumoAnualTotal], [HSP_anual]
    from the field or from the optimizer; the other arguments are what
    [parseFloat] reads from the fields. *)
Definition calculoDeRed
  (consumoAnual_kWh HSP_anual rendimientoSistema potenciaModulo_Wp
   voltaje_leido distancia_leida caida_leida : num) : Salida :=
  let voltajeRed := o_defecto voltaje_leido 120%R in
  let distanciaAC := o_defecto distancia_leida 10%R in
  let caidaMaxPorcentaje := o_defecto caida_leida 2%R in
  if (consumoAnual_kWh <=? 0%R) || (HSP_anual <=? 0%R)
     || (rendimientoSistema <=? 0%R) || (potenciaModulo_Wp <=? 0%R)
  then ValoresNoValidos
  else
    let factorRendimiento :=
      if rendimientoSistema >? 1%R then rendimientoSistema / 100%R
      else rendimientoSistema in
    let intento :=
      const potenciaPico_kWp <-
        calcularPotenciaPico consumoAnual_kWh HSP_anual factorRendimiento;
      const numModulos <-
        calcularNumeroModulos potenciaPico_kWp potenciaModulo_Wp;
      let potenciaInversor_kW := dimensionarInversor potenciaPico_kWp in
      let hspDiario := HSP_anual / 365%R in
      let corrienteAC := (potenciaInversor_kW * 1000%R) / voltajeRed in
      let breakerCalculado := Math_ceil (corrienteAC * 1.25%R) in
      let breakerSugerido := sugerirBreaker breakerCalculado in
      let rho := Fin 0.0172 in
      let deltaV_permitido := (caidaMaxPorcentaje / 100%R) * voltajeRed in
      let seccionCalculada :=
        (2%R * distanciaAC * corrienteAC * rho) / deltaV_permitido in
      inr (Resultados.mk potenciaPico_kWp numModulos potenciaInversor_kW
                         corrienteAC breakerSugerido hspDiario
                         seccionCalculada) in
    match intento with
    | inl _ => ErrorDeCalculo
    | inr r => Mostrar r
    end.

End GridScript.

(* ================================================================== *)
(** ** Specification-side definitions *)
(* ================================================================== *)

Section Specification.

Local Open Scope R_scope.

(** *** The formulas on finite values *)

(** Numerator and denominator of [Rb] on finite arguments. *)
Definition numR (p d w b : R) : R :=
  w * sin d * sin (p - b) + cos d * cos (p - b) * sin w.

Definition denR (p d w : R) : R :=
  w * sin d * sin p + cos d * cos p * sin w.

(** The horizontal split in the words of the specification:
    [clearnessIndex = min(1, global/extraterrestrial)], the diffuse part is
    [global * polynomial(clearnessIndex)] floored at 0 and the direct part is
    [max(0, global - diffuse)]. *)
Definition KdR (Gd G0d : R) : R := Rmin 1 (Gd / G0d).

Definition polyR (k : R) : R :=
  1.39 - 4.027 * k + 5.531 * k ^ 2 - 3.108 * k ^ 3.

Definition DdR (Gd G0d : R) : R := Rmax 0 (Gd * polyR (KdR Gd G0d)).

Definition IdR (Gd G0d : R) : R := Rmax 0 (Gd - DdR Gd G0d).

(** The tilted components in the words of the specification, on finite
    values: [Rb] is the ratio of the two sums, or 0 for a zero denominator;
    [directTilted = max(0, direct * Rb)]; the anisotropy index is
    [clamp(direct/extraterrestrial, 0, 1)]; the diffuse part mixes the
    beam-weighted and the isotropic sky models; the ground reflects with
    albedo 0.2. *)
Definition RbR (p d w b : R) : R :=
  if Req_dec_T (denR p d w) 0 then 0 else numR p d w b / denR p d w.

Definition anisotropiaR (i g0 : R) : R := Rmax 0 (Rmin 1 (i / g0)).

Definition directaInclinadaR (i rb : R) : R := Rmax 0 (i * rb).

Definition difusaInclinadaR (dd a rb b : R) : R :=
  dd * a * rb + dd * (1 - a) * (0.5 * (1 + cos b)).

Definition reflejadaR (g b : R) : R := 0.2 * g * (0.5 * (1 - cos b)).

Definition GiR (p d w g0 g dd i b : R) : R :=
  directaInclinadaR i (RbR p d w b)
  + difusaInclinadaR dd (anisotropiaR i g0) (RbR p d w b) b
  + reflejadaR g b.

(** *** The astronomical model on finite values *)

(** Declination of a day of the year (three harmonics). *)
Definition deltaR (dn : R) : R :=
  let gamma := 2 * Rtrigo1.PI * ((dn - 1) / 365) in
  0.006918 - 0.399912 * cos gamma + 0.070257 * sin gamma
  - 0.006758 * cos (2 * gamma) + 0.000907 * sin (2 * gamma)
  - 0.002697 * cos (3 * gamma) + 0.00148 * sin (3 * gamma).

Definition E0R (dn : R) : R := 1 + 0.033 * cos (2 * Rtrigo1.PI * dn / 365).

Definition operandoR (phi d : R) : R := - tan phi * tan d.

(** Daily extraterrestrial irradiation in kWh/m2 for a sunset hour angle
    [w]: the standard formula. *)
Definition G0dR (phi d dn w : R) : R :=
  24 / Rtrigo1.PI * 1367 * E0R dn
  * (w * sin d * sin phi + cos d * cos phi * sin w) / 1000.

(** *** Valid month samples and annual totals *)

(** A valid month sample, as [ejecutarCalculos] hands it to the search: a
    month whose day exists, with finite astronomical data, a finite positive
    measured irradiation (the filter of [main.js]) and the horizontal
    components that [calcularComponentesHorizontales] derives from them; the
    day count comes from the calendar table. *)
Definition muestraValida (item : Item) : Prop :=
  item.(isInvalid) = false
  /\ (exists d w g0 : R,
        item.(delta) = Fin d /\ item.(omega_s) = Fin w
        /\ item.(G0d_kWh) = Fin g0)
  /\ (exists g : R, item.(Gd_kWh) = Fin g /\ 0 < g)
  /\ calcularComponentesHorizontales item.(Gd_kWh) item.(G0d_kWh)
     = HC.mk item.(Kd) item.(Dd) item.(Id)
  /\ (0 <= item.(diasEnMes))%Z.

(** The candidate angles in the words of the specification: 0, 5, ..., 90. *)
Definition candidatos : list Z := map (fun k => (5 * Z.of_nat k)%Z) (seq 0 19).

(** Tilted global irradiation of a month at a candidate angle. *)
Definition GiEn (latitudRadianes : num) (betaGrados : Z) (item : Item) : num :=
  Inc.Gi (calcularRadiacionInclinada (Fin (IZR betaGrados) / RAD_A_DEG)%js
                                     item latitudRadianes).

(** Annual total of a candidate in the words of the specification: the sum,
    over the months whose [Gi] is not [NaN], of [Gi] weighted by the day
    count, divided by 1000. *)
Definition suma (l : list num) : num := fold_right add (Fin 0) l.

Definition totalAnual (items : list Item) (latitudRadianes : num)
  (betaGrados : Z) : num :=
  (suma (map (fun item => GiEn latitudRadianes betaGrados item
                          * Fin (IZR item.(diasEnMes)))
             (filter (fun item =>
                        negb (isNaN (GiEn latitudRadianes betaGrados item)))
                     items))
   / 1000%R)%js.

(** *** The search *)

(** One turn of the loop over the angles. *)
Definition pasoAngulo (items : list Item) (latitudRadianes : num)
  (st : Main.Estado) (betaGrados : Z) : Main.Estado :=
  Main.actualizarOptimo st (Main.evaluarAngulo items latitudRadianes betaGrados).

(** The selection rule in the words of the specification: among the rows,
    the row of angle [b], of annual total [m], is the first whose total is
    the greatest: the rows before it are strictly below [m], the rows after
    it are not above [m]. *)
Definition primerMaximo (rows : list Main.ResAnual) (b : Z) (m : R) : Prop :=
  exists l1 r l2,
    rows = l1 ++ r :: l2
    /\ Main.beta r = b /\ Main.GiAnual r = Fin m
    /\ Forall (fun r' => exists t, Main.GiAnual r' = Fin t /\ t < m) l1
    /\ Forall (fun r' => exists t, Main.GiAnual r' = Fin t /\ t <= m) l2.

(** What the loop maintains: the running maximum is a finite number, at
    least the initial -1; no angle is selected as long as no total exceeds
    -1, and otherwise the selected angle is the first maximum of the rows
    computed so far. *)
Definition invBusqueda (st : Main.Estado) : Prop :=
  exists m : R,
    Main.maxGiAnual st = Fin m
    /\ match Main.anguloOptimo st with
       | None =>
           m = -1
           /\ Forall (fun r' => exists t, Main.GiAnual r' = Fin t /\ t <= -1)
                     (Main.resultadosAnuales st)
       | Some b => -1 < m /\ primerMaximo (Main.resultadosAnuales st) b m
       end.

(** *** Concrete inputs used below *)

(** A polar-night month: the sun does not rise ([omega_s = 0], no
    extraterrestrial irradiation), yet the data source answered 1 kWh/m2;
    the splitter gives [NaN] components for it. *)
Definition mesNochePolar : Item :=
  mkItem "Diciembre" false 31 349
         (Fin (-0.4)) (Fin 1.03) (Fin 0) (Fin 0) (Fin 1) NaN NaN NaN NaN.

(** An equinox month at the equator: declination 0, sunset hour angle pi/2,
    10 kWh/m2 outside the atmosphere and 5 kWh/m2 measured on the ground,
    with the components that the splitter derives from them. *)
Definition mesEquinoccio : Item :=
  mkItem "Marzo" false 31 80
         (Fin 0) (Fin 1) (Fin (Rtrigo1.PI / 2)) (Fin 10) (Fin 5)
         (Fin (KdR 5 10)) (Fin (DdR 5 10)) (Fin (IdR 5 10)) NaN.

(** A data source that answered 5 kWh/m2 up to the middle of August (day
    227) and an error message afterwards: 8 usable months out of 12. *)
Definition apiOchoMeses (dn : Z) : num :=
  if (dn <=? 227)%Z then Fin 5 else NaN.

(** The same answers for the data source of [solar_radiation_core.js],
    where a failed request is a rejected promise. *)
Definition apiOchoMesesCore (dn : Z) : option num :=
  if (dn <=? 227)%Z then Some (Fin 5) else None.

End Specification.

(* ================================================================== *)
(** ** Specification-side definitions for the sizing and the data source *)
(* ================================================================== *)

Section SizingSpecification.

Local Open Scope R_scope.

(** What [parseFloat] reads from a numeric form field: a finite number, or
    [NaN] for an empty or unreadable text. *)
Definition numero (x : num) : Prop := x = NaN \/ exists r : R, x = Fin r.

(** The finite value of [x || 0]. *)
Definition valorR (x : num) : R :=
  match x with
  | Fin a => a
  | _ => 0
  end.

(** *** The table of loads *)

(** The test that rejects a row in [calcularConsumoTotal]. *)
Definition filaRechazada (row : Consumption.Fila) : bool :=
  let potencia := o_defecto (Consumption.potencia_leida row) 0 in
  let tiempo := o_defecto (Consumption.tiempo_leido row) 0 in
  (potencia <? 0)%js || (tiempo <? 0)%js || (tiempo >? 24)%js.

(** Daily energy of a row, as the loop computes it. *)
Definition energiaDiaria (row : Consumption.Fila) : num :=
  (o_defecto (Consumption.potencia_leida row) 0
   * o_defecto (Consumption.tiempo_leido row) 0)%js.

(** Daily energy of a row and the totals per type, on finite values. *)
Definition energiaR (row : Consumption.Fila) : R :=
  valorR (Consumption.potencia_leida row)
  * valorR (Consumption.tiempo_leido row).

Definition esDC (row : Consumption.Fila) : bool :=
  String.eqb (Consumption.tipo row) "DC".

Definition EDCR (filas : list Consumption.Fila) : R :=
  fold_right Rplus 0 (map energiaR (filter esDC filas)).

Definition EACR (filas : list Consumption.Fila) : R :=
  fold_right Rplus 0 (map energiaR (filter (fun row => negb (esDC row)) filas)).

(** Instantaneous power of the rows of type DC and of type AC. *)
Definition esAC (row : Consumption.Fila) : bool :=
  String.eqb (Consumption.tipo row) "AC".

Definition PdcR (filas : list Consumption.Fila) : R :=
  fold_right Rplus 0
    (map (fun row => valorR (Consumption.potencia_leida row))
         (filter esDC filas)).

Definition PacR (filas : list Consumption.Fila) : R :=
  fold_right Rplus 0
    (map (fun row => valorR (Consumption.potencia_leida row))
         (filter (fun row => negb (esDC row) && esAC row) filas)).

(** A row that the form accepts: readable fields, a power that is not
    negative and between 0 and 24 hours of use. *)
Definition filaAceptable (row : Consumption.Fila) : Prop :=
  exists p t : R,
    Consumption.potencia_leida row = Fin p
    /\ Consumption.tiempo_leido row = Fin t
    /\ 0 <= p /\ 0 <= t <= 24.

(** *** The data source *)

(** A response that ends the call: anything but a failed request or an
    answer without daily sums. *)
Definition decisiva (r : OpenMeteo.Respuesta) : bool :=
  match r with
  | OpenMeteo.Falla | OpenMeteo.SinDatos => false
  | _ => true
  end.

(** The string returned for a response that ends the call. *)
Definition textoDe (r : OpenMeteo.Respuesta) : OpenMeteo.Texto :=
  match r with
  | OpenMeteo.ConRazon => OpenMeteo.ErrorAPI
  | OpenMeteo.ConValor value_MJ =>
      OpenMeteo.Cifra (Fin value_MJ * OpenMeteo.MJ_A_KWH)%js
  | OpenMeteo.ValorNulo => OpenMeteo.DatosNoDisponibles
  | _ => OpenMeteo.FalloEnReintentos
  end.

(** The exponential back-off: pauses of 1 s, 2 s, 4 s, ... after the
    requests 0, 1, ..., [k - 1]. *)
Definition pausasHasta (k : nat) : list Z :=
  map (fun j => (1000 * 2 ^ Z.of_nat j)%Z) (seq 0 k).

(** A response of the refactored data source that carries a value. *)
Definition conValor (r : OpenMeteoJS.Respuesta) : bool :=
  match r with
  | OpenMeteoJS.ConValor _ => true
  | _ => false
  end.

(** *** Concrete inputs used below *)

(** A network that answers an error of the service twice and 18 MJ/m2 at
    the third request, and one that never answers a value. *)
Definition redJSTercera (attempt : nat) : OpenMeteoJS.Respuesta :=
  if (attempt =? 2)%nat then OpenMeteoJS.ConValor 18 else OpenMeteoJS.ConRazon.

Definition redJSNula (attempt : nat) : OpenMeteoJS.Respuesta :=
  OpenMeteoJS.ValorNulo.


(** A refrigerator on the inverter and a lamp on the battery. *)
Definition filaNevera : Consumption.Fila :=
  Consumption.mkFila "AC" (Fin 150) (Fin 8).

Definition filaLampara : Consumption.Fila :=
  Consumption.mkFila "DC" (Fin 10) (Fin 5).

(** A row with a negative power. *)
Definition filaNegativa : Consumption.Fila :=
  Consumption.mkFila "AC" (Fin (-5)) (Fin 1).

(** A network that is down, and one that answers 18 MJ/m2 at the third
    request. *)
Definition redCaida (attempt : nat) : OpenMeteo.Respuesta := OpenMeteo.Falla.

Definition redTercera (attempt : nat) : OpenMeteo.Respuesta :=
  if (attempt =? 2)%nat then OpenMeteo.ConValor 18 else OpenMeteo.Falla.

(** A data source of [solar_radiation_core.js] that answers 5 kWh/m2 for
    every day. *)
Definition apiCinco (dn : Z) : option num := Some (Fin 5).

End SizingSpecification.

(* ================================================================== *)
(** ** Arithmetic of JavaScript numbers on finite values *)
(* ================================================================== *)

Section NumFacts.

Local Open Scope R_scope.

Lemma ltb_Fin_true (a b : R) : a < b -> ltb (Fin a) (Fin b) = true.
Proof. intros H; simpl; destruct (Rlt_dec a b); [reflexivity | contradiction]. Qed.

Lemma ltb_Fin_false (a b : R) : b <= a -> ltb (Fin a) (Fin b) = false.
Proof. intros H; simpl; destruct (Rlt_dec a b); [lra | reflexivity]. Qed.

Lemma ltb_Fin_iff (a b : R) : ltb (Fin a) (Fin b) = true <-> a < b.
Proof.
  simpl; destruct (Rlt_dec a b); split; intros; auto; discriminate.
Qed.

Lemma leb_Fin_iff (a b : R) : leb (Fin a) (Fin b) = true <-> a <= b.
Proof.
  simpl; destruct (Rle_dec a b); split; intros; auto; discriminate.
Qed.

Lemma gtb_Fin_iff (a b : R) : gtb (Fin a) (Fin b) = true <-> b < a.
Proof. unfold gtb; apply ltb_Fin_iff. Qed.

Lemma geb_Fin_iff (a b : R) : geb (Fin a) (Fin b) = true <-> b <= a.
Proof. unfold geb; apply leb_Fin_iff. Qed.

Lemma eqb_Fin_iff (a b : R) : eqb (Fin a) (Fin b) = true <-> a = b.
Proof.
  simpl; destruct (Req_dec_T a b); split; intros; auto; discriminate.
Qed.

Lemma eqb_Fin_false (a b : R) : a <> b -> eqb (Fin a) (Fin b) = false.
Proof. intros H; simpl; destruct (Req_dec_T a b); [contradiction | reflexivity]. Qed.

Lemma div_Fin (a b : R) : b <> 0 -> div (Fin a) (Fin b) = Fin (a / b).
Proof. intros H; simpl; destruct (Req_dec_T b 0); [contradiction | reflexivity]. Qed.

Lemma RAD_A_DEG_Fin : RAD_A_DEG = Fin (180 / Rpi).
Proof. unfold RAD_A_DEG, SolarFormulas.PI, Math_PI; apply div_Fin, PI_neq0. Qed.

Lemma RAD_A_DEG_pos : 0 < 180 / Rpi.
Proof. apply Rdiv_lt_0_compat; [lra | apply PI_RGT_0]. Qed.

Lemma FACTOR_G0D_Fin : FACTOR_G0D = Fin (24 / Rpi).
Proof. unfold FACTOR_G0D, SolarFormulas.PI, Math_PI; apply div_Fin, PI_neq0. Qed.

(** Radians of a candidate angle given in degrees. *)
Lemma betaRadianes_Fin (b : Z) :
  (Fin (IZR b) / RAD_A_DEG)%js = Fin (IZR b / (180 / Rpi)).
Proof.
  rewrite RAD_A_DEG_Fin; apply div_Fin.
  pose proof RAD_A_DEG_pos; lra.
Qed.

End NumFacts.

(* ================================================================== *)
(** ** The beam transfer factor (calcularRb) *)
(* ================================================================== *)

Section BeamTransfer.

Local Open Scope R_scope.

Lemma numeradorRb_Fin (p d w b : R) :
  numeradorRb (Fin p) (Fin d) (Fin w) (Fin b) = Fin (numR p d w b).
Proof. reflexivity. Qed.

Lemma denominadorRb_Fin (p d w : R) :
  denominadorRb (Fin p) (Fin d) (Fin w) = Fin (denR p d w).
Proof. reflexivity. Qed.

Lemma calcularRb_Fin_zero (p d w b : R) :
  denR p d w = 0 -> calcularRb (Fin p) (Fin d) (Fin w) (Fin b) = Fin 0.
Proof.
  intros H; unfold calcularRb.
  rewrite denominadorRb_Fin, H.
  simpl; destruct (Req_dec_T 0 0); [reflexivity | contradiction].
Qed.

Lemma calcularRb_Fin_nonzero (p d w b : R) :
  denR p d w <> 0 ->
  calcularRb (Fin p) (Fin d) (Fin w) (Fin b) = Fin (numR p d w b / denR p d w).
Proof.
  intros H; unfold calcularRb.
  rewrite denominadorRb_Fin, numeradorRb_Fin, eqb_Fin_false by assumption.
  apply div_Fin; assumption.
Qed.

(** C7.  The beam transfer factor is defined for every combination of
    latitude, declination, sunset hour angle and tilt: whenever the
    denominator [w*sin(delta)*sin(phi) + cos(delta)*cos(phi)*sin(w)] is
    exactly 0 the function returns 0 and no division takes place, the
    division being performed only by a denominator that is not 0; on finite
    arguments the result is always a finite number (the quotient of
    numerator and denominator when the denominator is not 0), never [NaN]
    nor an infinity. *)
Theorem calcularRb_total :
  (forall p d w b : num,
      ((denominadorRb p d w === 0%R)%js = true -> calcularRb p d w b = Fin 0)
      /\ ((denominadorRb p d w === 0%R)%js = false ->
          calcularRb p d w b
          = (numeradorRb p d w b / denominadorRb p d w)%js))
  /\ (forall p d w b : R,
        exists r : R,
          calcularRb (Fin p) (Fin d) (Fin w) (Fin b) = Fin r
          /\ (denR p d w = 0 -> r = 0)
          /\ (denR p d w <> 0 -> r = numR p d w b / denR p d w)).
Proof.
  split.
  - intros p d w b; split; intros H; unfold calcularRb; rewrite H; reflexivity.
  - intros p d w b; destruct (Req_dec_T (denR p d w) 0) as [H0 | Hn].
    + exists 0; split; [apply calcularRb_Fin_zero; assumption | ].
      split; [reflexivity | intros; contradiction].
    + exists (numR p d w b / denR p d w); split;
        [apply calcularRb_Fin_nonzero; assumption | ].
      split; [intros; contradiction | reflexivity].
Qed.

Lemma calcularRb_total_witness :
  calcularRb (Fin 0) (Fin 0) (Fin 0) (Fin 0.5) = Fin 0
  /\ exists r : R,
       calcularRb (Fin 0) (Fin 0) (Fin (Rpi / 2)) (Fin 0) = Fin r
       /\ (denR 0 0 (Rpi / 2) <> 0 ->
           r = numR 0 0 (Rpi / 2) 0 / denR 0 0 (Rpi / 2)).
Proof.
  split.
  - apply (proj1 calcularRb_total (Fin 0) (Fin 0) (Fin 0) (Fin 0.5)).
    rewrite denominadorRb_Fin; apply eqb_Fin_iff.
    unfold denR; rewrite sin_0; ring.
  - destruct (proj2 calcularRb_total 0 0 (Rpi / 2) 0) as (r & Hr & _ & Hq).
    exists r; split; assumption.
Defined.

End BeamTransfer.

(* ================================================================== *)
(** ** The horizontal component splitter *)
(* ================================================================== *)

Section HorizontalSplit.

Local Open Scope R_scope.

(** The two clamping idioms of the code on finite values. *)
Lemma techo_uno (a : R) :
  (if (Fin a >? 1%R)%js then Fin 1.0 else Fin a) = Fin (Rmin 1 a).
Proof.
  unfold gtb, Rmin; simpl.
  destruct (Rlt_dec 1 a), (Rle_dec 1 a); f_equal; lra.
Qed.

Lemma piso_cero (a : R) :
  (if (Fin a <? 0%R)%js then Fin 0 else Fin a) = Fin (Rmax 0 a).
Proof.
  unfold Rmax; simpl.
  destruct (Rlt_dec a 0), (Rle_dec 0 a); f_equal; lra.
Qed.

(** On positive finite inputs the code computes the split of the
    specification. *)
Lemma componentes_Fin (Gd G0d : R) :
  0 < Gd -> 0 < G0d ->
  calcularComponentesHorizontales (Fin Gd) (Fin G0d)
  = HC.mk (Fin (KdR Gd G0d)) (Fin (DdR Gd G0d)) (Fin (IdR Gd G0d)).
Proof.
  intros HGd HG0.
  unfold calcularComponentesHorizontales, typeof_number.
  assert (Hg : (Fin Gd >? 0%R)%js = true) by (apply gtb_Fin_iff; assumption).
  assert (Hg0 : (Fin G0d >? 0%R)%js = true) by (apply gtb_Fin_iff; assumption).
  rewrite Hg, Hg0; simpl andb; cbv iota.
  rewrite div_Fin by lra.
  cbv zeta.
  rewrite techo_uno.
  change (Math_pow (Fin ?k) 2) with (Fin (k ^ 2)).
  change (Math_pow (Fin ?k) 3) with (Fin (k ^ 3)).
  change (Fin ?a * Fin ?b)%js with (Fin (a * b)).
  change (Fin ?a - Fin ?b)%js with (Fin (a - b)).
  change (Fin ?a + Fin ?b)%js with (Fin (a + b)).
  change (Fin ?a - Fin ?b)%js with (Fin (a - b)).
  change (Fin ?a * Fin ?b)%js with (Fin (a * b)).
  rewrite piso_cero.
  change (Fin ?a - Fin ?b)%js with (Fin (a - b)).
  rewrite piso_cero.
  reflexivity.
Qed.

(** C8.  For strictly positive finite inputs the clearness index returned by
    the splitter lies in [0, 1]: it is the ratio global/extraterrestrial
    when that ratio is at most 1 and exactly 1 otherwise. *)
Theorem indice_claridad_acotado (Gd G0d : R) :
  0 < Gd -> 0 < G0d ->
  exists k : R,
    HC.Kd (calcularComponentesHorizontales (Fin Gd) (Fin G0d)) = Fin k
    /\ 0 <= k <= 1
    /\ (Gd / G0d <= 1 -> k = Gd / G0d)
    /\ (1 < Gd / G0d -> k = 1).
Proof.
  intros HGd HG0; exists (KdR Gd G0d).
  rewrite componentes_Fin by assumption; simpl.
  assert (Hq : 0 < Gd / G0d) by (apply Rdiv_lt_0_compat; assumption).
  unfold KdR, Rmin; destruct (Rle_dec 1 (Gd / G0d)); repeat split; intros; lra.
Qed.

Lemma indice_claridad_acotado_witness :
  0 < 5 /\ 0 < 10 /\
  exists k : R,
    HC.Kd (calcularComponentesHorizontales (Fin 5) (Fin 10)) = Fin k
    /\ 0 <= k <= 1
    /\ (5 / 10 <= 1 -> k = 5 / 10)
    /\ (1 < 5 / 10 -> k = 1).
Proof.
  split; [lra | split; [lra | apply (indice_claridad_acotado 5 10); lra]].
Defined.

(** C3, the claim as stated fails: for a global irradiation of 1 kWh/m2 under
    an extraterrestrial irradiation of 10 kWh/m2 the clearness index is 0.1,
    the diffuse part is 1.039502 (more than the global value), the direct
    part is floored at 0, and the two do not add up to 1. *)
Lemma suma_componentes_contraejemplo :
  HC.Dd (calcularComponentesHorizontales (Fin 1) (Fin 10)) = Fin 1.039502
  /\ HC.Id (calcularComponentesHorizontales (Fin 1) (Fin 10)) = Fin 0
  /\ (HC.Id (calcularComponentesHorizontales (Fin 1) (Fin 10))
       + HC.Dd (calcularComponentesHorizontales (Fin 1) (Fin 10)))%js <> Fin 1.
Proof.
  rewrite componentes_Fin by lra; simpl.
  assert (Hk : KdR 1 10 = 0.1)
    by (unfold KdR, Rmin; destruct (Rle_dec 1 (1 / 10)); lra).
  assert (Hd : DdR 1 10 = 1.039502)
    by (unfold DdR; rewrite Hk; unfold polyR, Rmax;
        destruct (Rle_dec 0 _); lra).
  assert (Hi : IdR 1 10 = 0)
    by (unfold IdR; rewrite Hd; unfold Rmax; destruct (Rle_dec 0 _); lra).
  rewrite Hd, Hi; repeat split.
  intros H; injection H; lra.
Qed.

(** C3, amended.  For positive finite inputs the splitter returns finite
    non-negative diffuse and direct components, the direct one being
    [max(0, global - diffuse)]; they add up to the global value exactly when
    the diffuse component does not exceed it. *)
Theorem componentes_no_negativas (Gd G0d : R) :
  0 < Gd -> 0 < G0d ->
  exists d i : R,
    HC.Dd (calcularComponentesHorizontales (Fin Gd) (Fin G0d)) = Fin d
    /\ HC.Id (calcularComponentesHorizontales (Fin Gd) (Fin G0d)) = Fin i
    /\ 0 <= d /\ 0 <= i
    /\ i = Rmax 0 (Gd - d)
    /\ (i + d = Gd <-> d <= Gd).
Proof.
  intros HGd HG0; exists (DdR Gd G0d), (IdR Gd G0d).
  rewrite componentes_Fin by assumption; simpl.
  assert (Hd : 0 <= DdR Gd G0d) by (unfold DdR; apply Rmax_l).
  repeat split; auto.
  - unfold IdR; apply Rmax_l.
  - unfold IdR, Rmax; destruct (Rle_dec 0 _); lra.
  - unfold IdR, Rmax; destruct (Rle_dec 0 _); lra.
Qed.

Lemma componentes_no_negativas_witness :
  0 < 5 /\ 0 < 10 /\
  exists d i : R,
    HC.Dd (calcularComponentesHorizontales (Fin 5) (Fin 10)) = Fin d
    /\ HC.Id (calcularComponentesHorizontales (Fin 5) (Fin 10)) = Fin i
    /\ 0 <= d /\ 0 <= i
    /\ i = Rmax 0 (5 - d)
    /\ (i + d = 5 <-> d <= 5).
Proof.
  split; [lra | split; [lra | apply (componentes_no_negativas 5 10); lra]].
Defined.

End HorizontalSplit.

(* ================================================================== *)
(** ** The tilted irradiance calculator without usable data *)
(* ================================================================== *)

Section NoData.

Local Open Scope R_scope.

(** The beam transfer factor is returned as computed, with or without
    radiation data. *)
Lemma Rb_inclinada (inclinacionRadianes : num) (item : Item)
  (latitudRadianes : num) :
  Inc.Rb (calcularRadiacionInclinada inclinacionRadianes item latitudRadianes)
  = calcularRb latitudRadianes (delta item) (omega_s item) inclinacionRadianes.
Proof.
  unfold calcularRadiacionInclinada.
  destruct (typeof_number (Gd_kWh item) && (Gd_kWh item >? 0%R)%js
            && (G0d_kWh item >? 0%R)%js); reflexivity.
Qed.

(** C4, the claim as stated fails: in a polar-night month (no
    extraterrestrial irradiation, sunset hour angle 0) the denominator of the
    beam transfer factor is 0, and the calculator returns [Rb = 0], a
    number, not [NaN]. *)
Lemma Rb_sin_datos_contraejemplo :
  (G0d_kWh mesNochePolar >? 0%R)%js = false
  /\ Inc.Rb (calcularRadiacionInclinada (Fin 0.5) mesNochePolar (Fin 1.5))
     = Fin 0
  /\ isNaN (Inc.Rb (calcularRadiacionInclinada (Fin 0.5) mesNochePolar
                                               (Fin 1.5))) = false.
Proof.
  assert (HRb : Inc.Rb (calcularRadiacionInclinada (Fin 0.5) mesNochePolar
                                                   (Fin 1.5)) = Fin 0).
  { rewrite Rb_inclinada; unfold mesNochePolar; cbn [delta omega_s].
    apply calcularRb_Fin_zero; unfold denR; rewrite sin_0; ring. }
  split.
  - apply ltb_Fin_false; simpl; lra.
  - rewrite HRb; split; reflexivity.
Qed.

(** Without usable data the three radiation outputs are [NaN]. *)
Lemma sin_datos_NaN
  (inclinacionRadianes : num) (item : Item) (latitudRadianes : num) :
  isNaN (Gd_kWh item) = true
  \/ (Gd_kWh item >? 0%R)%js = false
  \/ (G0d_kWh item >? 0%R)%js = false ->
  calcularRadiacionInclinada inclinacionRadianes item latitudRadianes
  = Inc.mk (calcularRb latitudRadianes (delta item) (omega_s item)
                       inclinacionRadianes) NaN NaN NaN.
Proof.
  intros H; unfold calcularRadiacionInclinada.
  assert (Hc : typeof_number (Gd_kWh item) && (Gd_kWh item >? 0%R)%js
               && (G0d_kWh item >? 0%R)%js = false).
  { destruct H as [H | [H | H]].
    - destruct (Gd_kWh item); try discriminate; reflexivity.
    - rewrite H; reflexivity.
    - rewrite H; apply andb_false_r. }
  rewrite Hc; reflexivity.
Qed.

(** C4, amended.  When the global horizontal irradiation is [NaN] or not
    strictly positive, or the extraterrestrial irradiation is not strictly
    positive, the calculator returns [NaN] for the direct, the diffuse and
    the global tilted components; the beam transfer factor it returns is
    still the value of [calcularRb] for the geometry of the month. *)
Theorem radiacion_inclinada_sin_datos
  (inclinacionRadianes : num) (item : Item) (latitudRadianes : num) :
  isNaN (Gd_kWh item) = true
  \/ (Gd_kWh item >? 0%R)%js = false
  \/ (G0d_kWh item >? 0%R)%js = false ->
  let r := calcularRadiacionInclinada inclinacionRadianes item latitudRadianes in
  Inc.Id_beta r = NaN /\ Inc.Dd_beta r = NaN /\ Inc.Gi r = NaN
  /\ Inc.Rb r = calcularRb latitudRadianes (delta item) (omega_s item)
                           inclinacionRadianes.
Proof.
  intros H r; subst r; rewrite sin_datos_NaN by assumption.
  cbn [Inc.Id_beta Inc.Dd_beta Inc.Gi Inc.Rb]; auto.
Qed.

Lemma radiacion_inclinada_sin_datos_witness :
  (isNaN (Gd_kWh mesNochePolar) = true
   \/ (Gd_kWh mesNochePolar >? 0%R)%js = false
   \/ (G0d_kWh mesNochePolar >? 0%R)%js = false)
  /\ Inc.Gi (calcularRadiacionInclinada (Fin 0.5) mesNochePolar (Fin 1.5))
     = NaN.
Proof.
  assert (H : (G0d_kWh mesNochePolar >? 0%R)%js = false)
    by (apply ltb_Fin_false; simpl; lra).
  split; [right; right; exact H | ].
  apply (radiacion_inclinada_sin_datos (Fin 0.5) mesNochePolar (Fin 1.5)).
  right; right; exact H.
Defined.

End NoData.

(* ================================================================== *)
(** ** The extraterrestrial irradiation (calcularG0d) *)
(* ================================================================== *)

Section Extraterrestrial.

Local Open Scope R_scope.

Lemma entre_menos1_y_1 (a : num) :
  (a >=? (-1)%R)%js && (a <=? 1%R)%js = true ->
  exists x : R, a = Fin x /\ -1 <= x <= 1.
Proof.
  destruct a as [ | | |x]; simpl; try discriminate.
  intros H; apply andb_prop in H; destruct H as [H1 H2].
  apply geb_Fin_iff in H1; apply leb_Fin_iff in H2; eauto.
Qed.

Lemma Math_acos_Fin (x : R) :
  -1 <= x <= 1 -> Math_acos (Fin x) = Fin (acos x).
Proof.
  intros [H1 H2]; simpl.
  destruct (Rle_dec (-1) x); [ | contradiction].
  destruct (Rle_dec x 1); [reflexivity | contradiction].
Qed.

(** C5.  With [arccosArg = -tan(latitude)*tan(declination)], the function
    takes the sunset hour angle [acos(arccosArg)] and the two-term formula
    when [arccosArg] is in [-1, 1]; the angle pi and the term
    [pi*sin(declination)*sin(latitude)] alone when [arccosArg < -1]; the angle
    0 and the irradiation 0 when [arccosArg > 1].  Whatever the arguments
    ([NaN] and the infinities included), the sunset hour angle returned is a
    finite number between 0 and pi. *)
Theorem calcularG0d_ramas (latitudRadianes delta_rad dn : num) :
  let a := operandoArccos latitudRadianes delta_rad in
  let r := calcularG0d latitudRadianes delta_rad dn in
  let E0 := (1%R + 0.033%R * Math_cos ((2%R * PI * dn) / 365%R))%js in
  a = (- Math_tan latitudRadianes * Math_tan delta_rad)%js
  /\ ((a >=? (-1)%R)%js && (a <=? 1%R)%js = true ->
       G0.omega_s r = Math_acos a
       /\ G0.G0d_kWh r
          = (FACTOR_G0D * ICS * E0
             * (Math_acos a * Math_sin delta_rad * Math_sin latitudRadianes
                + Math_cos delta_rad * Math_cos latitudRadianes
                  * Math_sin (Math_acos a)) / 1000%R)%js)
  /\ ((a <? (-1)%R)%js = true ->
       G0.omega_s r = PI
       /\ G0.G0d_kWh r
          = (FACTOR_G0D * ICS * E0
             * (PI * Math_sin delta_rad * Math_sin latitudRadianes)
             / 1000%R)%js)
  /\ ((a >? 1%R)%js = true ->
       G0.omega_s r = Fin 0 /\ G0.G0d_kWh r = Fin 0)
  /\ (exists w : R, G0.omega_s r = Fin w /\ 0 <= w <= Rpi).
Proof.
  intros a r E0; subst r; unfold calcularG0d; fold a; fold E0.
  split; [reflexivity | ].
  destruct ((a >=? (-1)%R)%js && (a <=? 1%R)%js) eqn:Hin.
  - (* temperate and tropical zones *)
    destruct (entre_menos1_y_1 a Hin) as [x [Hx Hb]].
    cbn [G0.omega_s G0.G0d_kWh].
    split; [intros _; split; reflexivity | ].
    split; [intros Hlt; exfalso; rewrite Hx in Hlt;
            apply ltb_Fin_iff in Hlt; lra | ].
    split; [intros Hgt; exfalso; rewrite Hx in Hgt;
            apply gtb_Fin_iff in Hgt; lra | ].
    exists (acos x); rewrite Hx, Math_acos_Fin by assumption.
    split; [reflexivity | apply acos_bound].
  - destruct (a <? (-1)%R)%js eqn:Hlt.
    + (* midnight sun *)
      cbn [G0.omega_s G0.G0d_kWh].
      split; [intros; discriminate | ].
      split; [intros _; split; reflexivity | ].
      split.
      * intros Hgt; exfalso.
        destruct a as [ | | |x]; try discriminate.
        apply ltb_Fin_iff in Hlt; apply gtb_Fin_iff in Hgt; lra.
      * exists Rpi; split; [reflexivity | ].
        pose proof PI_RGT_0; lra.
    + (* polar night, and arguments that are not numbers *)
      cbn [G0.omega_s G0.G0d_kWh].
      split; [intros; discriminate | ].
      split; [intros; discriminate | ].
      split.
      * intros _; split; [reflexivity | ].
        rewrite div_Fin by lra; f_equal; lra.
      * exists 0; split; [reflexivity | ].
        pose proof PI_RGT_0; lra.
Qed.

Lemma raiz_de_3 : 1 < sqrt 3.
Proof. rewrite <- sqrt_1 at 1; apply sqrt_lt_1; lra. Qed.

Lemma calcularG0d_ramas_witness :
  G0.omega_s (calcularG0d (Fin 0) (Fin 0) (Fin 80)) = Math_acos (Fin 0)
  /\ G0.omega_s (calcularG0d (Fin (Rpi / 4)) (Fin (Rpi / 3)) (Fin 172)) = PI
  /\ G0.G0d_kWh (calcularG0d (Fin (Rpi / 4)) (Fin (- (Rpi / 3))) (Fin 355))
     = Fin 0.
Proof.
  pose proof raiz_de_3 as Hr.
  split; [ | split].
  - destruct (calcularG0d_ramas (Fin 0) (Fin 0) (Fin 80))
      as (_ & H & _).
    assert (Ha : operandoArccos (Fin 0) (Fin 0) = Fin 0)
      by (unfold operandoArccos; simpl; rewrite tan_0; f_equal; ring).
    rewrite Ha in H; apply H.
    rewrite (proj2 (geb_Fin_iff 0 (-1))), (proj2 (leb_Fin_iff 0 1)) by lra.
    reflexivity.
  - destruct (calcularG0d_ramas (Fin (Rpi / 4)) (Fin (Rpi / 3)) (Fin 172))
      as (_ & _ & H & _).
    apply H; unfold operandoArccos; simpl Math_tan.
    rewrite tan_PI4, tan_PI3; apply ltb_Fin_iff; lra.
  - destruct (calcularG0d_ramas (Fin (Rpi / 4)) (Fin (- (Rpi / 3))) (Fin 355))
      as (_ & _ & _ & H & _).
    apply H; unfold operandoArccos; simpl Math_tan.
    rewrite tan_PI4, tan_neg, tan_PI3; apply gtb_Fin_iff; lra.
Defined.

End Extraterrestrial.

(* ================================================================== *)
(** ** The tilted irradiance calculator on finite data *)
(* ================================================================== *)

Section Tilted.

Local Open Scope R_scope.

Lemma calcularRb_Fin (p d w b : R) :
  calcularRb (Fin p) (Fin d) (Fin w) (Fin b) = Fin (RbR p d w b).
Proof.
  unfold RbR; destruct (Req_dec_T (denR p d w) 0) as [H | H].
  - apply calcularRb_Fin_zero; assumption.
  - apply calcularRb_Fin_nonzero; assumption.
Qed.

Lemma anisotropia_Fin (x : R) :
  Math_max2 (Fin 0) (Math_min2 (Fin 1) (Fin x)) = Fin (Rmax 0 (Rmin 1 x)).
Proof.
  unfold Math_max2, Math_min2, Rmax, Rmin; simpl.
  destruct (Rlt_dec x 1), (Rle_dec 1 x); simpl;
    destruct (Rle_dec 0 _), (Rlt_dec 0 _); simpl; f_equal; lra.
Qed.

(** The calculator on a month whose fields are finite, with positive global
    and extraterrestrial irradiation. *)
Lemma inclinada_Fin (item : Item) (p d w g0 g dd i b : R) :
  delta item = Fin d -> omega_s item = Fin w ->
  G0d_kWh item = Fin g0 -> Gd_kWh item = Fin g ->
  Dd item = Fin dd -> Id item = Fin i ->
  0 < g -> 0 < g0 ->
  calcularRadiacionInclinada (Fin b) item (Fin p)
  = Inc.mk (Fin (RbR p d w b))
           (Fin (directaInclinadaR i (RbR p d w b)))
           (Fin (difusaInclinadaR dd (anisotropiaR i g0) (RbR p d w b) b))
           (Fin (GiR p d w g0 g dd i b)).
Proof.
  intros Hd Hw Hg0 Hg Hdd Hi Hgpos Hg0pos.
  unfold calcularRadiacionInclinada, typeof_number.
  rewrite Hd, Hw, Hg0, Hg, Hdd, Hi, calcularRb_Fin.
  assert (H1 : (Fin g >? 0%R)%js = true) by (apply gtb_Fin_iff; assumption).
  assert (H2 : (Fin g0 >? 0%R)%js = true) by (apply gtb_Fin_iff; assumption).
  rewrite H1, H2; simpl andb; cbv iota zeta.
  rewrite div_Fin by lra.
  rewrite anisotropia_Fin.
  change (Fin ?a * Fin ?b)%js with (Fin (a * b)).
  rewrite piso_cero.
  reflexivity.
Qed.

(** Without positive extraterrestrial irradiation the tilted global
    irradiation is [NaN]. *)
Lemma Gi_NaN_sin_G0d (item : Item) (b p : num) :
  (G0d_kWh item >? 0%R)%js = false ->
  Inc.Gi (calcularRadiacionInclinada b item p) = NaN.
Proof.
  intros H; rewrite sin_datos_NaN by (right; right; exact H); reflexivity.
Qed.

(** What a valid month sample consists of. *)
Lemma muestraValida_inv (item : Item) :
  muestraValida item ->
  exists d w g0 g : R,
    delta item = Fin d /\ omega_s item = Fin w
    /\ G0d_kWh item = Fin g0 /\ Gd_kWh item = Fin g /\ 0 < g
    /\ (0 <= diasEnMes item)%Z
    /\ ((g0 <= 0 /\ (G0d_kWh item >? 0%R)%js = false)
        \/ (0 < g0 /\ (G0d_kWh item >? 0%R)%js = true
            /\ Dd item = Fin (DdR g g0) /\ Id item = Fin (IdR g g0))).
Proof.
  intros (_ & (d & w & g0 & Hd & Hw & Hg0) & (g & Hg & Hgpos) & Hc & Hdias).
  exists d, w, g0, g; repeat (split; [assumption | ]).
  rewrite Hg0; destruct (Rlt_dec 0 g0) as [Hpos | Hneg].
  - right; split; [assumption | ].
    split; [apply gtb_Fin_iff; assumption | ].
    rewrite Hg, Hg0, componentes_Fin in Hc by assumption.
    injection Hc as _ HDd HId; auto.
  - left; split; [lra | apply ltb_Fin_false; lra].
Qed.

Lemma DdR_nonneg (g g0 : R) : 0 <= DdR g g0.
Proof. unfold DdR; apply Rmax_l. Qed.

Lemma IdR_nonneg (g g0 : R) : 0 <= IdR g g0.
Proof. unfold IdR; apply Rmax_l. Qed.

Lemma anisotropiaR_bounds (i g0 : R) : 0 <= anisotropiaR i g0 <= 1.
Proof.
  unfold anisotropiaR; split; [apply Rmax_l | ].
  apply Rmax_lub; [lra | apply Rmin_l].
Qed.

(** With no tilt the numerator of [Rb] is its denominator. *)
Lemma RbR_cero (p d w : R) : denR p d w <> 0 -> RbR p d w 0 = 1.
Proof.
  intros H; unfold RbR; destruct (Req_dec_T (denR p d w) 0); [contradiction | ].
  replace (numR p d w 0) with (denR p d w)
    by (unfold numR, denR; rewrite Rminus_0_r; reflexivity).
  field; assumption.
Qed.

Lemma RbR_cero_casos (p d w : R) : RbR p d w 0 = 0 \/ RbR p d w 0 = 1.
Proof.
  destruct (Req_dec_T (denR p d w) 0) as [H | H].
  - left; unfold RbR; destruct (Req_dec_T (denR p d w) 0);
      [reflexivity | contradiction].
  - right; apply RbR_cero; assumption.
Qed.

Lemma reflejadaR_cero (g : R) : reflejadaR g 0 = 0.
Proof. unfold reflejadaR; rewrite cos_0; lra. Qed.

(** The identity case of the tilt transformation, on finite values. *)
Lemma GiR_cero_identidad (p d w g0 g dd i : R) :
  denR p d w <> 0 -> 0 <= i -> GiR p d w g0 g dd i 0 = i + dd.
Proof.
  intros H Hi; unfold GiR, directaInclinadaR, difusaInclinadaR.
  rewrite RbR_cero, reflejadaR_cero, cos_0 by assumption.
  rewrite Rmax_right by lra.
  replace (0.5 * (1 + 1)) with 1 by lra; ring.
Qed.

(** C9.  For a valid month sample with positive extraterrestrial
    irradiation whose beam-transfer denominator at the given latitude is not
    zero, the calculator at tilt angle 0 gives [Rb = 1], a ground-reflected
    term equal to 0 and a tilted global irradiation equal to the sum of the
    horizontal direct and diffuse components (an identity of the exact
    arithmetic of the model). *)
Theorem identidad_inclinacion_cero (item : Item) (phi : R) :
  muestraValida item ->
  (G0d_kWh item >? 0%R)%js = true ->
  (denominadorRb (Fin phi) (delta item) (omega_s item) === 0%R)%js = false ->
  let r := calcularRadiacionInclinada (Fin 0) item (Fin phi) in
  Inc.Rb r = Fin 1
  /\ Rr (Fin 0) (Gd_kWh item) = Fin 0
  /\ Inc.Gi r = (Id item + Dd item)%js.
Proof.
  intros Hv HG0 Hden r; subst r.
  destruct (muestraValida_inv item Hv)
    as (d & w & g0 & g & Hd & Hw & Hg0 & Hg & Hgpos & _ & Hcase).
  destruct Hcase as [[_ Hno] | (Hg0pos & _ & HDd & HId)];
    [rewrite Hno in HG0; discriminate | ].
  rewrite Hd, Hw, denominadorRb_Fin in Hden.
  assert (Hden' : denR phi d w <> 0)
    by (intros E; rewrite E in Hden; simpl in Hden;
        destruct (Req_dec_T 0 0); [discriminate | contradiction]).
  rewrite (inclinada_Fin item phi d w g0 g _ _ 0 Hd Hw Hg0 Hg HDd HId)
    by assumption.
  cbn [Inc.Rb Inc.Gi]; rewrite RbR_cero by assumption.
  split; [reflexivity | ].
  split.
  - rewrite Hg; unfold Rr, rho; simpl; rewrite cos_0; f_equal; lra.
  - rewrite (GiR_cero_identidad phi d w g0 g) by (auto using IdR_nonneg).
    rewrite HDd, HId; reflexivity.
Qed.

Lemma mesEquinoccio_valida : muestraValida mesEquinoccio.
Proof.
  unfold muestraValida, mesEquinoccio.
  cbn [isInvalid delta omega_s G0d_kWh Gd_kWh Kd Dd Id diasEnMes].
  split; [reflexivity | ].
  split; [exists 0, (Rpi / 2), 10; auto | ].
  split; [exists 5; split; [reflexivity | lra] | ].
  split; [apply componentes_Fin; lra | lia].
Defined.

Lemma identidad_inclinacion_cero_witness :
  muestraValida mesEquinoccio
  /\ Inc.Gi (calcularRadiacionInclinada (Fin 0) mesEquinoccio (Fin 0))
     = (Id mesEquinoccio + Dd mesEquinoccio)%js.
Proof.
  split; [exact mesEquinoccio_valida | ].
  apply (identidad_inclinacion_cero mesEquinoccio 0 mesEquinoccio_valida).
  - apply gtb_Fin_iff; lra.
  - unfold mesEquinoccio; cbn [delta omega_s].
    rewrite denominadorRb_Fin; apply eqb_Fin_false.
    unfold denR; rewrite sin_0, cos_0, sin_PI2; lra.
Defined.

End Tilted.

(* ================================================================== *)
(** ** The annual tilt search *)
(* ================================================================== *)

Section Search.

Import Main.
Local Open Scope R_scope.

(** *** The loop visits the candidates 0, 5, ..., 90 *)

Lemma bucle_paso (items : list Item) (lat : num) (b : Z) (st : Estado) :
  (b <= 90)%Z ->
  bucleAngulos items lat b st
  = bucleAngulos items lat (b + 5) (pasoAngulo items lat st b).
Proof.
  intros H; rewrite bucleAngulos_equation_1; unfold bucleAngulos_unfold_clause_1.
  destruct (Z_le_dec b 90); [reflexivity | contradiction].
Qed.

Lemma bucle_fin (items : list Item) (lat : num) (b : Z) (st : Estado) :
  (90 < b)%Z -> bucleAngulos items lat b st = st.
Proof.
  intros H; rewrite bucleAngulos_equation_1; unfold bucleAngulos_unfold_clause_1.
  destruct (Z_le_dec b 90); [lia | reflexivity].
Qed.

Lemma bucle_desde (items : list Item) (lat : num) (n k : nat) (st : Estado) :
  (k + n = 19)%nat ->
  bucleAngulos items lat (5 * Z.of_nat k) st
  = fold_left (pasoAngulo items lat)
              (map (fun j => (5 * Z.of_nat j)%Z) (seq k n)) st.
Proof.
  revert k st; induction n as [ | n IH]; intros k st Hk.
  - apply bucle_fin; lia.
  - rewrite bucle_paso by lia.
    replace (5 * Z.of_nat k + 5)%Z with (5 * Z.of_nat (S k))%Z by lia.
    rewrite IH by lia; reflexivity.
Qed.

Lemma busquedaAnual_fold (items : list Item) (lat : num) :
  busquedaAnual items lat
  = fold_left (pasoAngulo items lat) candidatos estadoInicial.
Proof. unfold busquedaAnual; apply (bucle_desde items lat 19 0); reflexivity. Qed.

(** *** The annual total of a candidate *)

Lemma add_assoc (x y z : num) : (x + y + z)%js = (x + (y + z))%js.
Proof.
  destruct x, y, z; simpl; try reflexivity; f_equal; ring.
Qed.

Lemma add_0_r (x : num) : (x + Fin 0)%js = x.
Proof. destruct x; simpl; try reflexivity; f_equal; ring. Qed.

Lemma add_0_l (x : num) : (Fin 0 + x)%js = x.
Proof. destruct x; simpl; try reflexivity; f_equal; ring. Qed.

(** The [forEach] over the months adds to the running total the weighted
    [Gi] of the months whose [Gi] is a number, and collects these [Gi]. *)
Lemma acumular_fold (lat : num) (b : Z) (items : list Item)
  (acc : num) (l : list num) :
  fold_left (acumularMes (Fin (IZR b) / RAD_A_DEG)%js lat) items (acc, l)
  = ((acc + suma (map (fun item => GiEn lat b item * Fin (IZR (diasEnMes item)))
                      (filter (fun item => negb (isNaN (GiEn lat b item)))
                              items)))%js,
     l ++ map (GiEn lat b)
              (filter (fun item => negb (isNaN (GiEn lat b item))) items)).
Proof.
  revert acc l; induction items as [ | item items IH]; intros acc l.
  - simpl; rewrite add_0_r, app_nil_r; reflexivity.
  - cbn [fold_left filter].
    unfold acumularMes at 2, typeof_number; fold (GiEn lat b item).
    simpl andb.
    destruct (negb (isNaN (GiEn lat b item))).
    + rewrite IH; cbn [map suma fold_right].
      fold (suma (map (fun item0 => GiEn lat b item0
                                   * Fin (IZR (diasEnMes item0)))
                      (filter (fun item0 => negb (isNaN (GiEn lat b item0)))
                              items)))%js.
      rewrite add_assoc, <- app_assoc; reflexivity.
    + apply IH.
Qed.

(** The months whose [Gi] at a candidate is a number, and their [Gi]. *)
Lemma evaluarAngulo_spec (items : list Item) (lat : num) (b : Z) :
  evaluarAngulo items lat b
  = mkResAnual b (totalAnual items lat b)
      (Math_min (map (GiEn lat b)
                     (filter (fun item => negb (isNaN (GiEn lat b item)))
                             items))).
Proof.
  unfold evaluarAngulo; rewrite acumular_fold, add_0_l; reflexivity.
Qed.

(** *** Totals of valid month samples *)

Lemma GiR_cero_nonneg (p d w g0 g dd i : R) :
  0 <= dd -> 0 <= i -> 0 <= GiR p d w g0 g dd i 0.
Proof.
  intros Hdd Hi; unfold GiR, directaInclinadaR, difusaInclinadaR.
  rewrite reflejadaR_cero, cos_0.
  pose proof (anisotropiaR_bounds i g0) as Ha.
  pose proof (Rmax_l 0 (i * RbR p d w 0)) as Hm.
  replace (0.5 * (1 + 1)) with 1 by lra.
  destruct (RbR_cero_casos p d w) as [E | E]; rewrite E in *; nra.
Qed.

(** At every candidate the [Gi] of a valid sample is [NaN] or finite; with
    no tilt it is moreover not negative. *)
Lemma GiEn_valida (item : Item) (phi : R) (b : Z) :
  muestraValida item ->
  GiEn (Fin phi) b item = NaN
  \/ exists gi : R, GiEn (Fin phi) b item = Fin gi /\ (b = 0%Z -> 0 <= gi).
Proof.
  intros Hv.
  destruct (muestraValida_inv item Hv)
    as (d & w & g0 & g & Hd & Hw & Hg0 & Hg & Hgpos & _ & Hcase).
  destruct Hcase as [[_ Hno] | (Hg0pos & _ & HDd & HId)].
  - left; unfold GiEn; apply Gi_NaN_sin_G0d; assumption.
  - right; unfold GiEn; rewrite betaRadianes_Fin.
    rewrite (inclinada_Fin item phi d w g0 g _ _ _ Hd Hw Hg0 Hg HDd HId)
      by assumption.
    cbn [Inc.Gi]; eexists; split; [reflexivity | ].
    intros ->; replace (IZR 0 / (180 / Rpi)) with 0 by (unfold Rdiv; ring).
    apply GiR_cero_nonneg; [apply DdR_nonneg | apply IdR_nonneg].
Qed.

Lemma suma_Fin (P : R -> Prop) (l : list num) :
  P 0 -> (forall a b, P a -> P b -> P (a + b)) ->
  Forall (fun x => exists t, x = Fin t /\ P t) l ->
  exists s, suma l = Fin s /\ P s.
Proof.
  intros H0 Hadd; induction 1 as [ | x l (t & -> & Ht) _ (s & Hs & HP)].
  - exists 0; split; [reflexivity | assumption].
  - exists (t + s); cbn [suma fold_right]; fold (suma l).
    rewrite Hs; split; [reflexivity | auto].
Qed.

Lemma totalAnual_valida (items : list Item) (phi : R) (b : Z) :
  Forall muestraValida items ->
  exists t : R,
    totalAnual items (Fin phi) b = Fin t /\ (b = 0%Z -> 0 <= t).
Proof.
  intros Hv; unfold totalAnual.
  destruct (suma_Fin (fun s => b = 0%Z -> 0 <= s)
              (map (fun item => GiEn (Fin phi) b item
                                * Fin (IZR (diasEnMes item)))%js
                   (filter (fun item => negb (isNaN (GiEn (Fin phi) b item)))
                           items)))
    as (s & Hs & HP).
  - intros _; lra.
  - intros x y Hx Hy Hb; specialize (Hx Hb); specialize (Hy Hb); lra.
  - apply Forall_map, Forall_forall; intros item Hin.
    apply filter_In in Hin; destruct Hin as [Hin Hnan].
    rewrite Forall_forall in Hv; specialize (Hv item Hin).
    destruct (GiEn_valida item phi b Hv) as [E | (gi & E & Hgi)].
    + rewrite E in Hnan; discriminate.
    + rewrite E; eexists; split; [reflexivity | ].
      intros Hb; specialize (Hgi Hb).
      destruct (muestraValida_inv item Hv)
        as (_ & _ & _ & _ & _ & _ & _ & _ & _ & Hdias & _).
      apply Rmult_le_pos; [assumption | ].
      apply IZR_le in Hdias; exact Hdias.
  - rewrite Hs, div_Fin by lra.
    eexists; split; [reflexivity | ].
    intros Hb; specialize (HP Hb); lra.
Qed.

(** *** The selection rule *)

Lemma resultados_fold (items : list Item) (lat : num) (cands : list Z)
  (st : Estado) :
  resultadosAnuales (fold_left (pasoAngulo items lat) cands st)
  = resultadosAnuales st ++ map (evaluarAngulo items lat) cands.
Proof.
  revert st; induction cands as [ | b cands IH]; intros st.
  - simpl; rewrite app_nil_r; reflexivity.
  - cbn [fold_left map]; rewrite IH.
    unfold pasoAngulo, actualizarOptimo.
    destruct (_ >? _)%js; cbn [resultadosAnuales];
      rewrite <- app_assoc; reflexivity.
Qed.

Lemma primerMaximo_todos (rows : list ResAnual) (b : Z) (m : R) :
  primerMaximo rows b m ->
  Forall (fun r' => exists t, GiAnual r' = Fin t /\ t <= m) rows.
Proof.
  intros (l1 & r & l2 & -> & _ & Hr & H1 & H2).
  apply Forall_app; split.
  - eapply Forall_impl; [ | exact H1].
    intros a (t & Ht & Hlt); exists t; split; [assumption | lra].
  - constructor; [exists m; split; [assumption | lra] | assumption].
Qed.

(** Step of the invariant: one more row with a finite total. *)
Lemma inv_paso (st : Estado) (r : ResAnual) (t : R) :
  invBusqueda st -> GiAnual r = Fin t -> invBusqueda (actualizarOptimo st r).
Proof.
  intros (m & Hm & Hsel) Ht; unfold invBusqueda, actualizarOptimo.
  rewrite Hm, Ht; unfold gtb; simpl ltb.
  assert (Hall : -1 <= m /\
            Forall (fun r' => exists t', GiAnual r' = Fin t' /\ t' <= m)
                   (resultadosAnuales st)).
  { destruct (anguloOptimo st) as [b | ].
    - destruct Hsel as [Hgt Hpm]; split; [lra | ].
      eapply primerMaximo_todos; eassumption.
    - destruct Hsel as [-> Hle]; split; [lra | assumption]. }
  destruct Hall as [Hm1 Hall].
  destruct (Rlt_dec m t) as [Hlt | Hge]; cbn [maxGiAnual anguloOptimo resultadosAnuales].
  - (* a new maximum *)
    exists t; split; [reflexivity | ].
    split; [lra | ].
    exists (resultadosAnuales st), r, []; repeat split; auto.
    eapply Forall_impl; [ | exact Hall].
    intros a (t' & Ht' & Hle); exists t'; split; [assumption | lra].
  - (* the maximum stays *)
    exists m; split; [reflexivity | ].
    destruct (anguloOptimo st) as [b | ].
    + destruct Hsel as [Hgt (l1 & r0 & l2 & Hrows & Hb & Hr0 & H1 & H2)].
      split; [assumption | ].
      exists l1, r0, (l2 ++ [r]); rewrite Hrows, <- app_assoc.
      repeat split; auto.
      apply Forall_app; split; [assumption | ].
      constructor; [exists t; split; [assumption | lra] | constructor].
    + destruct Hsel as [-> Hle]; split; [reflexivity | ].
      apply Forall_app; split; [assumption | ].
      constructor; [exists t; split; [assumption | lra] | constructor].
Qed.

Lemma inv_fold (items : list Item) (lat : num) (cands : list Z) (st : Estado) :
  invBusqueda st ->
  (forall b, In b cands -> exists t, totalAnual items lat b = Fin t) ->
  invBusqueda (fold_left (pasoAngulo items lat) cands st).
Proof.
  revert st; induction cands as [ | b cands IH]; intros st Hinv Hfin.
  - exact Hinv.
  - cbn [fold_left]; apply IH.
    + destruct (Hfin b (or_introl eq_refl)) as (t & Ht).
      unfold pasoAngulo; apply (inv_paso st _ t Hinv).
      rewrite evaluarAngulo_spec; exact Ht.
    + intros b' Hb'; apply Hfin; right; assumption.
Qed.

Lemma inv_inicial : invBusqueda estadoInicial.
Proof.
  exists (-1); split; [reflexivity | ].
  cbn; split; [reflexivity | constructor].
Qed.

Lemma candidatos_lista :
  candidatos = [0; 5; 10; 15; 20; 25; 30; 35; 40; 45; 50; 55; 60; 65; 70;
                75; 80; 85; 90]%Z.
Proof. reflexivity. Qed.

Lemma candidatos_creciente (c1 c2 : list Z) (b : Z) :
  candidatos = c1 ++ b :: c2 -> Forall (fun b' => (b < b')%Z) c2.
Proof.
  assert (Hs : StronglySorted Z.lt candidatos)
    by (rewrite candidatos_lista; repeat constructor; lia).
  intros E; rewrite E in Hs; clear E.
  induction c1 as [ | a c1 IH].
  - apply StronglySorted_inv in Hs; tauto.
  - apply StronglySorted_inv in Hs; tauto.
Qed.

(** The search selects the first maximum among the candidates, as soon as
    every total is a finite number and the total without tilt exceeds the
    initial -1. *)
Lemma busqueda_primer_maximo (items : list Item) (lat : num) :
  (forall b, In b candidatos -> exists t, totalAnual items lat b = Fin t) ->
  (exists t0, totalAnual items lat 0 = Fin t0 /\ -1 < t0) ->
  exists (b : Z) (m : R) (c1 c2 : list Z),
    candidatos = c1 ++ b :: c2
    /\ anguloOptimo (busquedaAnual items lat) = Some b
    /\ maxGiAnual (busquedaAnual items lat) = Fin m
    /\ totalAnual items lat b = Fin m
    /\ (forall b', In b' c1 ->
          exists t, totalAnual items lat b' = Fin t /\ t < m)
    /\ (forall b', In b' c2 ->
          exists t, totalAnual items lat b' = Fin t /\ t <= m).
Proof.
  intros Hfin (t0 & Ht0 & Hpos).
  pose proof (inv_fold items lat candidatos estadoInicial inv_inicial Hfin)
    as (m & Hm & Hsel).
  rewrite <- busquedaAnual_fold in Hm, Hsel.
  assert (Hrows : resultadosAnuales (busquedaAnual items lat)
                  = map (evaluarAngulo items lat) candidatos)
    by (rewrite busquedaAnual_fold, resultados_fold; reflexivity).
  rewrite Hrows in Hsel.
  destruct (anguloOptimo (busquedaAnual items lat)) as [b | ].
  - destruct Hsel as [_ (l1 & r & l2 & Hsplit & Hb & Hr & H1 & H2)].
    apply map_eq_app in Hsplit; destruct Hsplit as (c1 & c2' & Hc & Hl1 & Hl2).
    apply map_eq_cons in Hl2; destruct Hl2 as (b0 & c2 & -> & Hr0 & Hl2).
    subst l1 l2 r; rewrite evaluarAngulo_spec in Hb, Hr; cbn in Hb, Hr.
    subst b0; exists b, m, c1, c2; repeat split; auto.
    + intros b' Hb'; rewrite Forall_forall in H1.
      destruct (H1 _ (in_map _ _ _ Hb')) as (t & Ht & Hlt).
      rewrite evaluarAngulo_spec in Ht; eauto.
    + intros b' Hb'; rewrite Forall_forall in H2.
      destruct (H2 _ (in_map _ _ _ Hb')) as (t & Ht & Hle).
      rewrite evaluarAngulo_spec in Ht; eauto.
  - exfalso; destruct Hsel as [_ Hle].
    rewrite candidatos_lista in Hle; cbn [map] in Hle.
    apply Forall_inv in Hle; destruct Hle as (t & Ht & Hle).
    rewrite evaluarAngulo_spec in Ht; cbn in Ht.
    rewrite Ht0 in Ht; injection Ht as <-; lra.
Qed.

Lemma tabla_no_vacia (items : list Item) (lat : num) :
  items <> [] ->
  generarTablaAnualOptima items lat
  = Tabla.mk (anguloOptimo (busquedaAnual items lat))
      match find (esBeta (anguloOptimo (busquedaAnual items lat)))
                 (resultadosAnuales (busquedaAnual items lat)) with
      | Some resultadoOptimo => GiMin resultadoOptimo
      | None => PInf
      end.
Proof.
  intros H; destruct items as [ | item items]; [contradiction | reflexivity].
Qed.

Lemma resultados_busqueda (items : list Item) (lat : num) :
  resultadosAnuales (busquedaAnual items lat)
  = map (evaluarAngulo items lat) candidatos.
Proof. rewrite busquedaAnual_fold, resultados_fold; reflexivity. Qed.

Lemma beta_evaluarAngulo (items : list Item) (lat : num) (b : Z) :
  beta (evaluarAngulo items lat b) = b.
Proof. rewrite evaluarAngulo_spec; reflexivity. Qed.

(** The hypotheses of [busqueda_primer_maximo] hold for valid samples. *)
Lemma totales_validos (items : list Item) (phi : R) :
  Forall muestraValida items ->
  (forall b, In b candidatos ->
     exists t, totalAnual items (Fin phi) b = Fin t)
  /\ (exists t0, totalAnual items (Fin phi) 0 = Fin t0 /\ -1 < t0).
Proof.
  intros Hv; split.
  - intros b _; destruct (totalAnual_valida items phi b Hv) as (t & Ht & _).
    exists t; exact Ht.
  - destruct (totalAnual_valida items phi 0 Hv) as (t & Ht & Hpos).
    exists t; split; [exact Ht | ].
    specialize (Hpos eq_refl); lra.
Qed.

(** C1.  For a non-empty list of valid month samples and a latitude, the
    search evaluates exactly the 19 candidate angles 0, 5, ..., 90; the annual
    total of each candidate is the sum, over the months whose [Gi] is not
    [NaN], of [Gi] weighted by the day count, divided by 1000; and the angle
    returned is the candidate of greatest total, the first one in case of a
    tie: its total is at least that of every candidate and strictly above
    that of every smaller angle. *)
Theorem busqueda_angulo_optimo (items : list Item) (phi : R) :
  items <> [] -> Forall muestraValida items ->
  map beta (resultadosAnuales (busquedaAnual items (Fin phi)))
  = [0; 5; 10; 15; 20; 25; 30; 35; 40; 45; 50; 55; 60; 65; 70; 75; 80; 85;
     90]%Z
  /\ List.length (resultadosAnuales (busquedaAnual items (Fin phi))) = 19%nat
  /\ (forall r, In r (resultadosAnuales (busquedaAnual items (Fin phi))) ->
        GiAnual r = totalAnual items (Fin phi) (beta r))
  /\ exists (b : Z) (m : R),
       Tabla.anguloOptimo (generarTablaAnualOptima items (Fin phi)) = Some b
       /\ In b candidatos
       /\ totalAnual items (Fin phi) b = Fin m
       /\ forall b', In b' candidatos ->
            exists t, totalAnual items (Fin phi) b' = Fin t
                      /\ t <= m /\ ((b' < b)%Z -> t < m).
Proof.
  intros Hne Hv; rewrite resultados_busqueda.
  split; [ | split; [ | split]].
  - rewrite map_map, <- candidatos_lista.
    erewrite map_ext; [apply map_id | ].
    intros b; apply beta_evaluarAngulo.
  - rewrite length_map; reflexivity.
  - intros r Hr; apply in_map_iff in Hr; destruct Hr as (b & <- & _).
    rewrite evaluarAngulo_spec; reflexivity.
  - destruct (totales_validos items phi Hv) as [Hfin H0].
    destruct (busqueda_primer_maximo items (Fin phi) Hfin H0)
      as (b & m & c1 & c2 & Hc & Hb & _ & Hm & H1 & H2).
    exists b, m; rewrite tabla_no_vacia by assumption; cbn [Tabla.anguloOptimo].
    split; [assumption | ].
    split; [rewrite Hc; apply in_elt | ].
    split; [assumption | ].
    intros b' Hb'; rewrite Hc in Hb'.
    apply in_app_or in Hb'; destruct Hb' as [Hin | [<- | Hin]].
    + destruct (H1 b' Hin) as (t & Ht & Hlt).
      exists t; repeat split; auto; lra.
    + exists m; repeat split; auto; [lra | lia].
    + destruct (H2 b' Hin) as (t & Ht & Hle).
      exists t; repeat split; auto.
      pose proof (candidatos_creciente c1 c2 b Hc) as Hs.
      rewrite Forall_forall in Hs; specialize (Hs b' Hin); lia.
Qed.

Lemma mesEquinoccio_lista : Forall muestraValida [mesEquinoccio].
Proof. constructor; [exact mesEquinoccio_valida | constructor]. Defined.

Lemma busqueda_angulo_optimo_witness :
  [mesEquinoccio] <> [] /\ Forall muestraValida [mesEquinoccio]
  /\ List.length (resultadosAnuales (busquedaAnual [mesEquinoccio] (Fin 0)))
     = 19%nat.
Proof.
  assert (Hne : [mesEquinoccio] <> []) by discriminate.
  split; [exact Hne | split; [exact mesEquinoccio_lista | ]].
  apply (busqueda_angulo_optimo [mesEquinoccio] 0 Hne mesEquinoccio_lista).
Defined.

(** *** When no month has a [Gi] *)

Lemma filter_nada {A : Type} (f : A -> bool) (l : list A) :
  (forall x, In x l -> f x = false) -> filter f l = [].
Proof.
  induction l as [ | a l IH]; intros H; [reflexivity | ].
  cbn [filter]; rewrite (H a (or_introl eq_refl)).
  apply IH; intros x Hx; apply H; right; assumption.
Qed.

Lemma evaluarAngulo_todo_NaN (items : list Item) (lat : num) (b : Z) :
  (forall item, In item items -> isNaN (GiEn lat b item) = true) ->
  evaluarAngulo items lat b = mkResAnual b (Fin 0) PInf.
Proof.
  intros H; rewrite evaluarAngulo_spec; unfold totalAnual.
  rewrite filter_nada by (intros x Hx; rewrite (H x Hx); reflexivity).
  cbn [map suma fold_right Math_min fold_left].
  rewrite div_Fin by lra; do 2 f_equal; lra.
Qed.

(** When every [Gi] is [NaN] every total is 0, the first candidate is
    selected and the minimum is that of no number at all. *)
Lemma tabla_todo_NaN (items : list Item) (lat : num) :
  items <> [] ->
  (forall b item, In b candidatos -> In item items ->
     isNaN (GiEn lat b item) = true) ->
  (forall r, In r (resultadosAnuales (busquedaAnual items lat)) ->
     GiAnual r = Fin 0)
  /\ generarTablaAnualOptima items lat = Tabla.mk (Some 0%Z) PInf.
Proof.
  intros Hne Hnan.
  assert (Hrow : forall b, In b candidatos ->
            evaluarAngulo items lat b = mkResAnual b (Fin 0) PInf)
    by (intros b Hb; apply evaluarAngulo_todo_NaN;
        intros item Hin; apply Hnan; assumption).
  assert (Htot : forall b, In b candidatos -> totalAnual items lat b = Fin 0).
  { intros b Hb; specialize (Hrow b Hb).
    rewrite evaluarAngulo_spec in Hrow; injection Hrow as E _; exact E. }
  assert (H0 : In 0%Z candidatos) by (rewrite candidatos_lista; left; reflexivity).
  split.
  - rewrite resultados_busqueda; intros r Hr.
    apply in_map_iff in Hr; destruct Hr as (b & <- & Hb).
    rewrite (Hrow b Hb); reflexivity.
  - destruct (busqueda_primer_maximo items lat) as
      (b & m & c1 & c2 & Hc & Hb & _ & Hm & H1 & _).
    + intros b Hb; exists 0; auto.
    + exists 0; split; [auto | lra].
    + assert (Hbin : In b candidatos) by (rewrite Hc; apply in_elt).
      rewrite (Htot b Hbin) in Hm; injection Hm as <-.
      destruct c1 as [ | x c1].
      * rewrite candidatos_lista in Hc; injection Hc as <- _.
        assert (Hfind : find (esBeta (Some 0%Z))
                          (map (evaluarAngulo items lat) candidatos)
                        = Some (evaluarAngulo items lat 0)).
        { rewrite candidatos_lista; cbn [map find].
          unfold esBeta at 1; rewrite beta_evaluarAngulo; reflexivity. }
        rewrite tabla_no_vacia, Hb, resultados_busqueda, Hfind by assumption.
        rewrite (Hrow 0%Z H0); reflexivity.
      * exfalso; destruct (H1 x (or_introl eq_refl)) as (t & Ht & Hlt).
        rewrite Htot in Ht by (rewrite Hc; left; reflexivity).
        injection Ht as <-; lra.
Qed.

(** C10.  For every non-empty list of valid month samples the search
    returns an angle, never null.  In particular when the [Gi] of every
    month is [NaN] at every candidate (as when no month has extraterrestrial
    irradiation) every annual total is 0, the first candidate 0 is selected
    and the minimum monthly irradiation reported is [Infinity]. *)
Theorem angulo_optimo_no_nulo (items : list Item) (phi : R) :
  items <> [] -> Forall muestraValida items ->
  Tabla.anguloOptimo (generarTablaAnualOptima items (Fin phi)) <> None
  /\ ((forall b item, In b candidatos -> In item items ->
         isNaN (GiEn (Fin phi) b item) = true) ->
      (forall r, In r (resultadosAnuales (busquedaAnual items (Fin phi))) ->
         GiAnual r = Fin 0)
      /\ generarTablaAnualOptima items (Fin phi) = Tabla.mk (Some 0%Z) PInf)
  /\ ((forall item, In item items -> G0d_kWh item = Fin 0) ->
      generarTablaAnualOptima items (Fin phi) = Tabla.mk (Some 0%Z) PInf).
Proof.
  intros Hne Hv; split; [ | split].
  - destruct (totales_validos items phi Hv) as [Hfin H0].
    destruct (busqueda_primer_maximo items (Fin phi) Hfin H0)
      as (b & m & c1 & c2 & _ & Hb & _).
    rewrite tabla_no_vacia by assumption; cbn [Tabla.anguloOptimo].
    rewrite Hb; discriminate.
  - apply tabla_todo_NaN; assumption.
  - intros HG0; apply tabla_todo_NaN; [assumption | ].
    intros b item _ Hin; unfold GiEn.
    rewrite Gi_NaN_sin_G0d; [reflexivity | ].
    rewrite (HG0 item Hin); apply ltb_Fin_false; lra.
Qed.

Lemma mesNochePolar_valida : muestraValida mesNochePolar.
Proof.
  unfold muestraValida, mesNochePolar.
  cbn [isInvalid delta omega_s G0d_kWh Gd_kWh Kd Dd Id diasEnMes].
  split; [reflexivity | ].
  split; [exists (-0.4), 0, 0; auto | ].
  split; [exists 1; split; [reflexivity | lra] | ].
  split; [ | lia].
  unfold calcularComponentesHorizontales, gtb.
  rewrite (ltb_Fin_false 0 0) by lra; rewrite andb_false_r; reflexivity.
Defined.

Lemma angulo_optimo_no_nulo_witness :
  [mesNochePolar] <> [] /\ Forall muestraValida [mesNochePolar]
  /\ generarTablaAnualOptima [mesNochePolar] (Fin 1.5)
     = Tabla.mk (Some 0%Z) PInf.
Proof.
  assert (Hne : [mesNochePolar] <> []) by discriminate.
  assert (Hv : Forall muestraValida [mesNochePolar])
    by (constructor; [exact mesNochePolar_valida | constructor]).
  split; [exact Hne | split; [exact Hv | ]].
  apply (angulo_optimo_no_nulo [mesNochePolar] 1.5 Hne Hv).
  intros item [<- | []]; reflexivity.
Defined.

End Search.

(* ================================================================== *)
(** ** From the inputs of ejecutarCalculos to valid month samples *)
(* ================================================================== *)

Section Pipeline.

Import Main.
Local Open Scope R_scope.

Lemma calcularDelta_Fin (x : R) : calcularDelta (Fin x) = Fin (deltaR x).
Proof.
  unfold calcularDelta, deltaR, SolarFormulas.PI, Math_PI.
  change (sub (Fin x) (Fin 1)) with (Fin (x - 1)).
  rewrite div_Fin by lra; reflexivity.
Qed.

Lemma operandoArccos_Fin (phi d : R) :
  operandoArccos (Fin phi) (Fin d) = Fin (operandoR phi d).
Proof. reflexivity. Qed.

(** On finite arguments [calcularG0d] returns finite numbers. *)
Lemma calcularG0d_Fin (phi d x : R) :
  exists w g0 : R,
    calcularG0d (Fin phi) (Fin d) (Fin x)
    = G0.mk (Fin w) (Fin (E0R x)) (Fin g0).
Proof.
  unfold calcularG0d; rewrite operandoArccos_Fin, FACTOR_G0D_Fin.
  unfold SolarFormulas.PI, Math_PI, ICS.
  change (Fin 2 * Fin Rpi * Fin x)%js with (Fin (2 * Rpi * x)).
  rewrite (div_Fin (2 * Rpi * x) 365) by lra.
  change (Fin 1 + Fin 0.033 * Math_cos (Fin (2 * Rpi * x / 365)))%js
    with (Fin (E0R x)).
  destruct ((Fin (operandoR phi d) >=? (-1)%R)%js
            && (Fin (operandoR phi d) <=? 1%R)%js) eqn:Hin.
  - destruct (entre_menos1_y_1 _ Hin) as (a & Ha & Hb).
    injection Ha as Ha; rewrite Math_acos_Fin by (rewrite Ha; assumption).
    cbn [Math_sin Math_cos mul add].
    rewrite div_Fin by lra; eauto.
  - destruct (Fin (operandoR phi d) <? (-1)%R)%js.
    + cbn [Math_sin Math_cos mul add].
      rewrite div_Fin by lra; eauto.
    + rewrite div_Fin by lra; eauto.
Qed.

Lemma mesesData_dias (mes : MesData) :
  In mes mesesData -> (0 <= dias mes)%Z.
Proof.
  unfold mesesData; cbn [In].
  intros H; repeat (destruct H as [<- | H]; [cbn; lia | ]); contradiction.
Qed.

(** A month of [resultsRaw] that passes the filter is a valid sample. *)
Lemma mes_filtrado_valido (phi : R) (diaDelMes : Z) (api : Z -> num)
  (mes : MesData) :
  (forall dn, api dn = NaN \/ exists g, api dn = Fin g) ->
  In mes mesesData ->
  esMesValido (completarMes api (prepararMes (Fin phi) diaDelMes mes)) = true ->
  muestraValida (completarMes api (prepararMes (Fin phi) diaDelMes mes)).
Proof.
  intros Hapi Hmes; unfold prepararMes.
  destruct ((diaDelMes <? 1)%Z || (diaDelMes >? dias mes)%Z).
  - unfold completarMes, esMesValido; cbn; discriminate.
  - rewrite calcularDelta_Fin.
    destruct (calcularG0d_Fin phi
                (deltaR (IZR (inicio_dn mes + (diaDelMes - 1))))
                (IZR (inicio_dn mes + (diaDelMes - 1)))) as (w & g0 & ->).
    unfold completarMes, esMesValido, muestraValida.
    cbn [isInvalid delta omega_s G0d_kWh Gd_kWh Kd Dd Id diasEnMes dn
         G0.omega_s G0.E0 G0.G0d_kWh HC.Kd HC.Dd HC.Id].
    intros Hf.
    split; [reflexivity | ].
    split; [do 3 eexists; repeat split; reflexivity | ].
    split.
    + destruct (Hapi (inicio_dn mes + (diaDelMes - 1))%Z) as [E | (g & E)];
        rewrite E in Hf |- *; [discriminate | ].
      exists g; split; [reflexivity | ].
      apply gtb_Fin_iff.
      destruct (Fin g >? 0%R)%js; [reflexivity | ].
      rewrite andb_false_r in Hf; discriminate.
    + split; [ | apply mesesData_dias; assumption].
      destruct (calcularComponentesHorizontales _ _); reflexivity.
Qed.

Lemma conGi_valida (b lat : num) (item : Item) :
  muestraValida item -> muestraValida (conGi b lat item).
Proof. unfold muestraValida, conGi; cbn; tauto. Qed.

Lemma pipeline_valida (phi : R) (diaDelMes : Z) (api : Z -> num) (b : num) :
  (forall dn, api dn = NaN \/ exists g, api dn = Fin g) ->
  Forall muestraValida
    (resultadosMensuales b (Fin phi) (resultsRaw (Fin phi) diaDelMes api)).
Proof.
  intros Hapi; unfold resultadosMensuales, resultsRaw.
  apply Forall_map, Forall_forall; intros item Hin.
  apply filter_In in Hin; destruct Hin as [Hin Hf].
  rewrite map_map in Hin; apply in_map_iff in Hin.
  destruct Hin as (mes & <- & Hmes).
  apply conGi_valida, mes_filtrado_valido; assumption.
Qed.

End Pipeline.

(* ================================================================== *)
(** ** The guard on the number of valid months *)
(* ================================================================== *)

Section Guard.

Import Main.
Local Open Scope R_scope.

Lemma grados_a_radianes (x : R) :
  (Fin x / RAD_A_DEG)%js = Fin (x / (180 / Rpi)).
Proof.
  rewrite RAD_A_DEG_Fin; apply div_Fin.
  pose proof RAD_A_DEG_pos; lra.
Qed.

(** [calcularRadiacionOptima] gives up below 10 valid months. *)
Lemma core_guardia (datos : list Item) (lat : num) :
  (List.length datos < 10)%nat ->
  RadiationCore.optimizar datos lat
  = RadiationCore.Optima.mk None (Fin 0) (Fin 0) [].
Proof.
  intros H; unfold RadiationCore.optimizar.
  destruct (Z.ltb_spec (Z.of_nat (List.length datos)) 10); [reflexivity | lia].
Qed.

(** [generarTablaAnualOptima] searches as soon as one month is valid. *)
Lemma main_sin_guardia (phiGrados : R) (diaDelMes : Z) (api : Z -> num) :
  (forall dn, api dn = NaN \/ exists g, api dn = Fin g) ->
  filter esMesValido
         (resultsRaw (Fin phiGrados / RAD_A_DEG)%js diaDelMes api) <> [] ->
  exists b : Z,
    Tabla.anguloOptimo (ejecutarCalculos (Fin phiGrados) diaDelMes api)
    = Some b.
Proof.
  intros Hapi Hne; unfold ejecutarCalculos.
  rewrite grados_a_radianes in *.
  set (phi := phiGrados / (180 / Rpi)) in *.
  set (b0 := (Math_abs (Fin phiGrados) / RAD_A_DEG)%js).
  pose proof (pipeline_valida phi diaDelMes api b0 Hapi) as Hv.
  assert (Hne' : resultadosMensuales b0 (Fin phi)
                   (resultsRaw (Fin phi) diaDelMes api) <> []).
  { unfold resultadosMensuales; intros E; apply map_eq_nil in E;
      contradiction. }
  destruct (totales_validos _ phi Hv) as [Hfin H0].
  destruct (busqueda_primer_maximo _ (Fin phi) Hfin H0)
    as (b & m & c1 & c2 & _ & Hb & _).
  exists b; rewrite tabla_no_vacia by assumption; exact Hb.
Qed.

(** The months of [resultsRaw] that pass the filter, read off the calendar
    table and the answers of the data source. *)
Lemma meses_filtrados (lat : num) (diaDelMes : Z) (api : Z -> num) :
  List.length (filter esMesValido (resultsRaw lat diaDelMes api))
  = List.length
      (filter (fun mes =>
                 negb ((diaDelMes <? 1)%Z || (diaDelMes >? dias mes)%Z)
                 && (api (inicio_dn mes + (diaDelMes - 1))%Z >? 0%R)%js)
              mesesData).
Proof.
  unfold resultsRaw; rewrite map_map.
  induction mesesData as [ | mes l IH]; [reflexivity | ].
  cbn [map filter].
  replace (esMesValido (completarMes api (prepararMes lat diaDelMes mes)))
    with (negb ((diaDelMes <? 1)%Z || (diaDelMes >? dias mes)%Z)
          && (api (inicio_dn mes + (diaDelMes - 1))%Z >? 0%R)%js).
  - destruct (_ && _); cbn [List.length]; rewrite IH; reflexivity.
  - unfold prepararMes.
    destruct ((diaDelMes <? 1)%Z || (diaDelMes >? dias mes)%Z);
      [reflexivity | ].
    unfold completarMes, esMesValido, typeof_number.
    cbn [isInvalid Gd_kWh dn negb andb].
    destruct (api (inicio_dn mes + (diaDelMes - 1))%Z); reflexivity.
Qed.

Lemma ocho_meses :
  List.length (filter esMesValido
                 (resultsRaw (Fin 10 / RAD_A_DEG)%js 15 apiOchoMeses))
  = 8%nat.
Proof.
  rewrite meses_filtrados.
  erewrite filter_ext.
  - instantiate (1 := fun mes =>
                        negb ((15 <? 1)%Z || (15 >? dias mes)%Z)
                        && (inicio_dn mes + (15 - 1) <=? 227)%Z).
    reflexivity.
  - intros mes; unfold apiOchoMeses.
    destruct (inicio_dn mes + (15 - 1) <=? 227)%Z; [ | reflexivity].
    rewrite (proj2 (gtb_Fin_iff 5 0)) by lra; reflexivity.
Defined.

Lemma apiOchoMeses_numeros (dn : Z) :
  apiOchoMeses dn = NaN \/ exists g, apiOchoMeses dn = Fin g.
Proof.
  unfold apiOchoMeses; destruct (dn <=? 227)%Z; [right; eauto | left; auto].
Defined.

(** The months of [RadiationCore.resultsRaw] that pass its filter. *)
Lemma meses_filtrados_core (lat : num) (diaDelMes : Z)
  (api : Z -> option num) :
  List.length (filter RadiationCore.esDatoValido
                      (RadiationCore.resultsRaw lat diaDelMes api))
  = List.length
      (filter (fun mes =>
                 negb ((diaDelMes <? 1)%Z || (diaDelMes >? dias mes)%Z)
                 && match api (inicio_dn mes + (diaDelMes - 1))%Z with
                    | Some Gd => (Gd >? 0%R)%js
                    | None => false
                    end)
              mesesData).
Proof.
  unfold RadiationCore.resultsRaw.
  induction mesesData as [ | mes l IH]; [reflexivity | ].
  cbn [flat_map filter]; rewrite map_app, filter_app, length_app, IH.
  unfold RadiationCore.prepararMes.
  destruct ((diaDelMes <? 1)%Z || (diaDelMes >? dias mes)%Z); [reflexivity | ].
  cbn [map filter negb andb].
  unfold RadiationCore.completarMes, RadiationCore.esDatoValido, typeof_number.
  cbn [dn].
  destruct (api (inicio_dn mes + (diaDelMes - 1))%Z) as [Gd | ];
    cbn [Gd_kWh andb].
  - destruct (Gd >? 0%R)%js; reflexivity.
  - unfold gtb; rewrite (ltb_Fin_false 0 0) by lra; reflexivity.
Qed.

Lemma ocho_meses_core :
  List.length (filter RadiationCore.esDatoValido
                 (RadiationCore.resultsRaw (Fin 10 / RAD_A_DEG)%js 15
                                           apiOchoMesesCore))
  = 8%nat.
Proof.
  rewrite meses_filtrados_core.
  erewrite filter_ext.
  - instantiate (1 := fun mes =>
                        negb ((15 <? 1)%Z || (15 >? dias mes)%Z)
                        && (inicio_dn mes + (15 - 1) <=? 227)%Z).
    reflexivity.
  - intros mes; unfold apiOchoMesesCore.
    destruct (inicio_dn mes + (15 - 1) <=? 227)%Z; [ | reflexivity].
    rewrite (proj2 (gtb_Fin_iff 5 0)) by lra; reflexivity.
Defined.

(** C2, evaluated on [main.js].  Where the refactored optimizer
    [calcularRadiacionOptima] returns its "no optimum" result (null angle,
    zero annual yield, no monthly result) below 10 valid months, the search
    of [ejecutarCalculos] and [generarTablaAnualOptima] runs as soon as one
    month is valid: with fewer than 10 valid months, exactly 8 for instance,
    it returns an angle, not null. *)
Theorem busqueda_con_menos_de_10_meses
  (phiGrados : R) (diaDelMes : Z) (api : Z -> num)
  (apiCore : Z -> option num) :
  (forall dn, api dn = NaN \/ exists g, api dn = Fin g) ->
  (1 <= List.length
          (filter esMesValido
                  (resultsRaw (Fin phiGrados / RAD_A_DEG)%js diaDelMes api))
     < 10)%nat ->
  (List.length
     (filter RadiationCore.esDatoValido
             (RadiationCore.resultsRaw (Fin phiGrados / RAD_A_DEG)%js
                                       diaDelMes apiCore))
   < 10)%nat ->
  (exists b : Z,
      Tabla.anguloOptimo (ejecutarCalculos (Fin phiGrados) diaDelMes api)
      = Some b)
  /\ RadiationCore.calcularRadiacionOptima (Fin phiGrados) diaDelMes apiCore
     = RadiationCore.Optima.mk None (Fin 0) (Fin 0) [].
Proof.
  intros Hapi [H1 H10] Hcore; split.
  - apply main_sin_guardia; [assumption | ].
    intros E; rewrite E in H1; cbn in H1; lia.
  - unfold RadiationCore.calcularRadiacionOptima.
    apply core_guardia; assumption.
Qed.

Lemma busqueda_con_menos_de_10_meses_witness :
  (1 <= List.length
          (filter esMesValido
                  (resultsRaw (Fin 10 / RAD_A_DEG)%js 15 apiOchoMeses))
     < 10)%nat
  /\ (exists b : Z,
        Tabla.anguloOptimo (ejecutarCalculos (Fin 10) 15 apiOchoMeses)
        = Some b)
  /\ RadiationCore.calcularRadiacionOptima (Fin 10) 15 apiOchoMesesCore
     = RadiationCore.Optima.mk None (Fin 0) (Fin 0) [].
Proof.
  assert (H : (1 <= List.length
                      (filter esMesValido
                         (resultsRaw (Fin 10 / RAD_A_DEG)%js 15 apiOchoMeses))
               < 10)%nat) by (rewrite ocho_meses; lia).
  assert (Hc : (List.length
                  (filter RadiationCore.esDatoValido
                     (RadiationCore.resultsRaw (Fin 10 / RAD_A_DEG)%js 15
                                               apiOchoMesesCore))
                < 10)%nat) by (rewrite ocho_meses_core; lia).
  split; [exact H | ].
  exact (busqueda_con_menos_de_10_meses 10 15 apiOchoMeses apiOchoMesesCore
           apiOchoMeses_numeros H Hc).
Defined.

End Guard.

(* ================================================================== *)
(** ** Outside the polar circles *)
(* ================================================================== *)

Section NonPolar.

Local Open Scope R_scope.

Lemma PI_cota_inf : 3.1415 < Rpi.
Proof.
  pose proof (PI_2_3_7_ineq 1) as [H _].
  unfold sum_f_R0, tg_alt, PI_2_3_7_tg, Ratan_seq in H.
  simpl in H; lra.
Qed.

Lemma cos_3a (x : R) :
  cos (3 * x) = cos x * cos x * cos x - 3 * cos x * sin x * sin x.
Proof.
  replace (3 * x) with (2 * x + x) by ring.
  rewrite cos_plus, cos_2a, sin_2a; ring.
Qed.

Lemma sin_3a (x : R) :
  sin (3 * x) = 3 * cos x * cos x * sin x - sin x * sin x * sin x.
Proof.
  replace (3 * x) with (2 * x + x) by ring.
  rewrite sin_plus, cos_2a, sin_2a; ring.
Qed.

(** *** The declination stays within 0.41 rad (23.49 degrees)

    The three-harmonic series, times 10^6, is written on [c = cos gamma],
    [s = sin gamma] and the cosines and sines of the double and triple
    angle.  Its distance to the bound 410000 is, on the unit circle, a sum
    of two squares plus a remainder that the ranges of sine and cosine keep
    positive; the last factor of each identity is the multiple of
    [c*c + s*s - 1] that makes it an identity of polynomials. *)

Lemma certificado_sup (c s c2 s2 c3 s3 : R) :
  c * c + s * s = 1 ->
  c2 = c * c - s * s -> s2 = 2 * s * c ->
  c3 = c * c * c - 3 * c * s * s -> s3 = 3 * c * c * s - s * s * s ->
  1000000
  * (403082 + 399912 * c - 70257 * s + 6758 * c2 - 907 * s2
     + 2697 * c3 - 1480 * s3)
  = (2949 + 4322 * c - 41 * s + 433122 * c2 + 77570 * s2 + 457318 * c3) ^ 2
    + (-1618 + 41 * c + 4322 * s - 77570 * c2 + 433122 * s2
       + 457318 * s3) ^ 2
    + (300479202 + 122100 * c - 488754 * s - 626868 * c2 - 425144 * s2
       - 261564 * c3 - 118952 * s3).
Proof.
  intros H H2 H2' H3 H3'; subst c2 s2 c3 s3.
  apply Rminus_diag_uniq.
  match goal with
  | |- ?e = 0 =>
      replace e with
        ((- 402770206273 + 70242283436 * s - 398798468116 * s * s
          + 70948314520 * s * s * s - 209139753124 * s * s * s * s
          - 399886519420 * c - 75000152 * c * s - 396148973592 * c * s * s
          - 406704581700 * c * c + 70948314520 * c * c * s
          - 418279506248 * c * c * s * s - 396148973592 * c * c * c
          - 209139753124 * c * c * c * c)
         * (c * c + s * s - 1)) by ring
  end.
  rewrite H; ring.
Qed.

Lemma certificado_inf (c s c2 s2 c3 s3 : R) :
  c * c + s * s = 1 ->
  c2 = c * c - s * s -> s2 = 2 * s * c ->
  c3 = c * c * c - 3 * c * s * s -> s3 = 3 * c * c * s - s * s * s ->
  1000000
  * (416918 - 399912 * c + 70257 * s - 6758 * c2 + 907 * s2
     - 2697 * c3 + 1480 * s3)
  = (-2828 - 9867 * c - 1907 * s - 428529 * c2 - 73870 * s2
     + 476878 * c3) ^ 2
    + (1552 + 1907 * c - 9867 * s + 73870 * c2 - 428529 * s2
       + 476878 * s3) ^ 2
    + (300091749 + 46378 * c - 455518 * s - 342052 * c2 + 532604 * s2
       + 221968 * c3 - 229312 * s3).
Proof.
  intros H H2 H2' H3 H3'; subst c2 s2 c3 s3.
  apply Rminus_diag_uniq.
  match goal with
  | |- ?e = 0 =>
      replace e with
        ((- 416607501963 - 70277296694 * s - 425917218077 * s * s
          - 70453955720 * s * s * s - 227412626884 * s * s * s * s
          + 399973773458 * c - 3637625384 * c * s + 408712104924 * c * s * s
          - 407095797173 * c * c - 70453955720 * c * c * s
          - 454825253768 * c * c * s * s + 408712104924 * c * c * c
          - 227412626884 * c * c * c * c)
         * (c * c + s * s - 1)) by ring
  end.
  rewrite H; ring.
Qed.

Lemma declinacion_cota (g : R) :
  - 0.41
  < 0.006918 - 0.399912 * cos g + 0.070257 * sin g
    - 0.006758 * cos (2 * g) + 0.000907 * sin (2 * g)
    - 0.002697 * cos (3 * g) + 0.00148 * sin (3 * g)
  < 0.41.
Proof.
  assert (Hc : cos g * cos g + sin g * sin g = 1)
    by (pose proof (sin2_cos2 g) as H; unfold Rsqr in H; lra).
  pose proof (certificado_sup (cos g) (sin g) (cos (2 * g)) (sin (2 * g))
                (cos (3 * g)) (sin (3 * g)) Hc (cos_2a g) (sin_2a g)
                (cos_3a g) (sin_3a g)) as Hsup.
  pose proof (certificado_inf (cos g) (sin g) (cos (2 * g)) (sin (2 * g))
                (cos (3 * g)) (sin (3 * g)) Hc (cos_2a g) (sin_2a g)
                (cos_3a g) (sin_3a g)) as Hinf.
  pose proof (COS_bound g); pose proof (SIN_bound g).
  pose proof (COS_bound (2 * g)); pose proof (SIN_bound (2 * g)).
  pose proof (COS_bound (3 * g)); pose proof (SIN_bound (3 * g)).
  match type of Hsup with
  | _ = ?a ^ 2 + ?b ^ 2 + _ =>
      pose proof (pow2_ge_0 a); pose proof (pow2_ge_0 b);
      set (A1 := a ^ 2) in *; set (B1 := b ^ 2) in *
  end.
  match type of Hinf with
  | _ = ?a ^ 2 + ?b ^ 2 + _ =>
      pose proof (pow2_ge_0 a); pose proof (pow2_ge_0 b);
      set (A2 := a ^ 2) in *; set (B2 := b ^ 2) in *
  end.
  split; lra.
Qed.

Lemma deltaR_cota (dn : R) : - 0.41 < deltaR dn < 0.41.
Proof. unfold deltaR; apply declinacion_cota. Qed.

(** *** The sunset hour angle and the irradiation *)

Lemma sin_menos_x_cos (x : R) : 0 < x -> x < Rpi -> 0 < sin x - x * cos x.
Proof.
  intros H0 Hpi.
  destruct (Rle_dec (cos x) 0) as [Hc | Hc].
  - pose proof (sin_gt_0 x H0 Hpi); nra.
  - assert (Hx2 : x < Rpi / 2).
    { destruct (Rlt_dec x (Rpi / 2)) as [ | Hn]; [assumption | exfalso].
      apply Hc, cos_le_0; lra. }
    pose proof PI_4 as HP4.
    assert (Hx4 : x <= 4) by lra.
    assert (Hxa : - 2 <= x) by lra.
    assert (Hxb : x <= 2) by lra.
    pose proof (pre_sin_bound x 0 (Rlt_le _ _ H0) Hx4) as [Hs _].
    pose proof (pre_cos_bound x 0 Hxa Hxb) as [_ Hcu].
    unfold sin_approx, sin_term, sum_f_R0 in Hs.
    unfold cos_approx, cos_term, sum_f_R0 in Hcu.
    simpl in Hs, Hcu.
    assert (Hs' : x - x * x * x / 6 <= sin x) by lra.
    assert (Hc' : cos x <= 1 - x * x / 2 + x * x * x * x / 24) by lra.
    assert (Hxc : x * cos x <= x * (1 - x * x / 2 + x * x * x * x / 24))
      by (apply Rmult_le_compat_l; lra).
    assert (Hx3 : 0 < x * x * x) by (repeat apply Rmult_lt_0_compat; lra).
    assert (Hx8 : 0 < 8 - x * x) by nra.
    pose proof (Rmult_lt_0_compat _ _ Hx3 Hx8).
    lra.
Qed.

(** Where the sum and the difference of latitude and declination stay
    within a quarter turn, the argument of the arc cosine is strictly
    between -1 and 1. *)
Lemma operando_acotado (phi d : R) :
  - (Rpi / 2) < phi + d < Rpi / 2 ->
  - (Rpi / 2) < phi - d < Rpi / 2 ->
  0 < cos phi * cos d
  /\ operandoR phi d * (cos phi * cos d) = - (sin phi * sin d)
  /\ -1 < operandoR phi d < 1.
Proof.
  intros [Hs1 Hs2] [Hd1 Hd2].
  assert (Hphi : 0 < cos phi) by (apply cos_gt_0; lra).
  assert (Hdel : 0 < cos d) by (apply cos_gt_0; lra).
  assert (Hu : 0 < cos phi * cos d) by (apply Rmult_lt_0_compat; assumption).
  assert (Hsum : 0 < cos (phi + d)) by (apply cos_gt_0; lra).
  assert (Hdif : 0 < cos (phi - d)) by (apply cos_gt_0; lra).
  rewrite cos_plus in Hsum; rewrite cos_minus in Hdif.
  assert (Hop : operandoR phi d * (cos phi * cos d) = - (sin phi * sin d))
    by (unfold operandoR, tan; field; split; lra).
  split; [assumption | split; [assumption | ]].
  split; nra.
Qed.

Lemma calcularG0d_templada (phi d x : R) :
  -1 <= operandoR phi d <= 1 ->
  calcularG0d (Fin phi) (Fin d) (Fin x)
  = G0.mk (Fin (acos (operandoR phi d))) (Fin (E0R x))
          (Fin (G0dR phi d x (acos (operandoR phi d)))).
Proof.
  intros [H1 H2]; unfold calcularG0d.
  rewrite operandoArccos_Fin, FACTOR_G0D_Fin.
  unfold SolarFormulas.PI, Math_PI, ICS.
  change (Fin 2 * Fin Rpi * Fin x)%js with (Fin (2 * Rpi * x)).
  rewrite (div_Fin (2 * Rpi * x) 365) by lra.
  change (Fin 1 + Fin 0.033 * Math_cos (Fin (2 * Rpi * x / 365)))%js
    with (Fin (E0R x)).
  rewrite (proj2 (geb_Fin_iff (operandoR phi d) (-1))) by lra.
  rewrite (proj2 (leb_Fin_iff (operandoR phi d) 1)) by lra.
  cbn [andb]; rewrite Math_acos_Fin by (split; assumption).
  cbn [Math_sin Math_cos mul add].
  rewrite div_Fin by lra; reflexivity.
Qed.

Lemma E0R_pos (x : R) : 0 < E0R x.
Proof. unfold E0R; pose proof (COS_bound (2 * Rpi * x / 365)); lra. Qed.

(** C6.  For every latitude between -66.5 and 66.5 degrees, converted to
    radians, and every day of the year between 1 and 365, the declination of
    [calcularDelta] and the result of [calcularG0d] are such that the sunset
    hour angle is strictly between 0 and pi and the daily extraterrestrial
    irradiation is strictly positive. *)
Theorem zona_no_polar (latitudGrados dn : R) :
  -66.5 <= latitudGrados <= 66.5 -> 1 <= dn <= 365 ->
  exists w g0 : R,
    G0.omega_s (calcularG0d (Fin latitudGrados / RAD_A_DEG)%js
                            (calcularDelta (Fin dn)) (Fin dn)) = Fin w
    /\ 0 < w < Rpi
    /\ G0.G0d_kWh (calcularG0d (Fin latitudGrados / RAD_A_DEG)%js
                               (calcularDelta (Fin dn)) (Fin dn)) = Fin g0
    /\ 0 < g0.
Proof.
  intros [Hl1 Hl2] _.
  rewrite grados_a_radianes, calcularDelta_Fin.
  set (phi := latitudGrados / (180 / Rpi)).
  set (d := deltaR dn).
  pose proof PI_cota_inf as Hpi.
  pose proof (deltaR_cota dn) as [Hd1 Hd2]; fold d in Hd1, Hd2.
  assert (Hphi : phi = latitudGrados * (Rpi / 180))
    by (unfold phi; field; lra).
  assert (Hphi1 : - (66.5 * (Rpi / 180)) <= phi) by (rewrite Hphi; nra).
  assert (Hphi2 : phi <= 66.5 * (Rpi / 180)) by (rewrite Hphi; nra).
  destruct (operando_acotado phi d) as (Hu & Hop & Hx1 & Hx2);
    [split; lra | split; lra | ].
  rewrite calcularG0d_templada by lra.
  cbn [G0.omega_s G0.G0d_kWh].
  set (x := operandoR phi d) in *.
  destruct (acos_bound_lt x (conj Hx1 Hx2)) as [Hw1 Hw2].
  exists (acos x), (G0dR phi d dn (acos x)).
  split; [reflexivity | ].
  split; [split; assumption | ].
  split; [reflexivity | ].
  pose proof (sin_menos_x_cos (acos x) Hw1 Hw2) as Hpos.
  rewrite cos_acos in Hpos by lra.
  assert (HT : acos x * sin d * sin phi + cos d * cos phi * sin (acos x)
               = cos phi * cos d * (sin (acos x) - acos x * x))
    by (replace (acos x * sin d * sin phi)
          with (acos x * (sin phi * sin d)) by ring;
        replace (sin phi * sin d) with (- (x * (cos phi * cos d))) by lra;
        ring).
  unfold G0dR; rewrite HT.
  pose proof (E0R_pos dn) as HE.
  assert (Hk : 0 < 24 / Rpi * 1367)
    by (apply Rmult_lt_0_compat; [apply Rdiv_lt_0_compat | ]; lra).
  apply Rdiv_lt_0_compat; [ | lra].
  apply Rmult_lt_0_compat;
    [apply Rmult_lt_0_compat; [exact Hk | exact HE]
    | apply Rmult_lt_0_compat; [exact Hu | exact Hpos]].
Qed.

Lemma zona_no_polar_witness :
  -66.5 <= 10 <= 66.5 /\ 1 <= 15 <= 365
  /\ exists w g0 : R,
       G0.omega_s (calcularG0d (Fin 10 / RAD_A_DEG)%js
                               (calcularDelta (Fin 15)) (Fin 15)) = Fin w
       /\ 0 < w < Rpi
       /\ G0.G0d_kWh (calcularG0d (Fin 10 / RAD_A_DEG)%js
                                  (calcularDelta (Fin 15)) (Fin 15)) = Fin g0
       /\ 0 < g0.
Proof.
  assert (H1 : -66.5 <= 10 <= 66.5) by lra.
  assert (H2 : 1 <= 15 <= 365) by lra.
  split; [exact H1 | split; [exact H2 | ]].
  exact (zona_no_polar 10 15 H1 H2).
Defined.

End NonPolar.

(* ================================================================== *)
(** ** Rounding up and the sizing formulas *)
(* ================================================================== *)

Section SizingFormulas.

Local Open Scope R_scope.

Lemma leb_Fin_true (a b : R) : a <= b -> leb (Fin a) (Fin b) = true.
Proof. intros H; apply leb_Fin_iff; exact H. Qed.

Lemma leb_Fin_false (a b : R) : b < a -> leb (Fin a) (Fin b) = false.
Proof. intros H; simpl; destruct (Rle_dec a b); [lra | reflexivity]. Qed.

Lemma Zceil_IZR (z : Z) : Zceil (IZR z) = z.
Proof. apply Zceil_eq; lra. Qed.

(** The least whole number of parts of size [d] that cover [a]. *)
Lemma techo_cociente (a d : R) :
  0 < d ->
  a <= IZR (Zceil (a / d)) * d
  /\ IZR (Zceil (a / d)) * d < a + d
  /\ (forall m : Z, a <= IZR m * d -> (Zceil (a / d) <= m)%Z).
Proof.
  intros Hd; destruct (Zceil_bound (a / d)) as [H1 H2].
  assert (Ha : a / d * d = a) by (field; lra).
  split; [ | split].
  - rewrite <- Ha at 1; apply Rmult_le_compat_r; lra.
  - assert (H : (IZR (Zceil (a / d)) - 1) * d < a / d * d)
      by (apply Rmult_lt_compat_r; lra).
    lra.
  - intros m Hm; rewrite <- (Zceil_IZR m); apply Zceil_le.
    apply Rmult_le_reg_r with d; [exact Hd | lra].
Qed.

Lemma total_paneles_Fin (ET HPS Pp Pg : R) :
  0 < HPS -> 0 < Pp -> 0 < Pg ->
  calcularNumeroTotalPaneles (Fin ET) (Fin HPS) (Fin Pp) (Fin Pg)
  = Fin (IZR (Zceil (ET / (HPS * Pp * Pg)))).
Proof.
  intros H1 H2 H3; unfold calcularNumeroTotalPaneles.
  rewrite !leb_Fin_false by assumption; cbn [orb].
  change (Fin HPS * Fin Pp * Fin Pg)%js with (Fin (HPS * Pp * Pg)).
  rewrite div_Fin; [reflexivity | ].
  assert (0 < HPS * Pp * Pg) by (repeat apply Rmult_lt_0_compat; assumption).
  lra.
Qed.

Lemma serie_Fin (V_BAT Vp : R) :
  0 < Vp ->
  calcularPanelesEnSerie (Fin V_BAT) (Fin Vp) = Fin (IZR (Zceil (V_BAT / Vp))).
Proof.
  intros H; unfold calcularPanelesEnSerie.
  rewrite leb_Fin_false by assumption.
  rewrite div_Fin by lra; reflexivity.
Qed.

Lemma paralelo_Fin (Nt Ns : R) :
  0 < Ns ->
  calcularRamasEnParalelo (Fin Nt) (Fin Ns) = Fin (IZR (Zceil (Nt / Ns))).
Proof.
  intros H; unfold calcularRamasEnParalelo.
  rewrite leb_Fin_false by assumption.
  rewrite div_Fin by lra; reflexivity.
Qed.


Lemma Math_max2_Fin (a b : R) : Math_max2 (Fin a) (Fin b) = Fin (Rmax a b).
Proof.
  unfold Math_max2; cbn [isNaN orb].
  unfold Rmax; destruct (Rle_dec a b) as [Hle | Hgt].
  - destruct (Rle_lt_or_eq_dec a b Hle) as [Hlt | ->].
    + rewrite ltb_Fin_true by assumption; reflexivity.
    + rewrite ltb_Fin_false by lra; reflexivity.
  - rewrite ltb_Fin_false by lra; reflexivity.
Qed.

Lemma regulador_Fin (ig ic : R) :
  calcularCorrienteRegulador (Fin ig) (Fin ic)
  = Fin (IZR (Zceil (Rmax ig ic * 1.25))).
Proof. unfold calcularCorrienteRegulador; rewrite Math_max2_Fin; reflexivity. Qed.



(** X2. [calcularCorrienteRegulador]: for finite currents the rating is a
    whole number of amperes that covers both the generated and the consumed
    current with the 25 % margin, and exceeds 1.25 times the larger of the
    two by less than one ampere. *)
Theorem regulador_cubre_ambas_corrientes (ig ic : R) :
  exists n : Z,
    calcularCorrienteRegulador (Fin ig) (Fin ic) = Fin (IZR n)
    /\ 1.25 * ig <= IZR n
    /\ 1.25 * ic <= IZR n
    /\ IZR n < 1.25 * Rmax ig ic + 1.
Proof.
  exists (Zceil (Rmax ig ic * 1.25)); split; [apply regulador_Fin | ].
  destruct (Zceil_bound (Rmax ig ic * 1.25)) as [H1 H2].
  pose proof (Rmax_l ig ic); pose proof (Rmax_r ig ic).
  repeat split; lra.
Qed.

End SizingFormulas.

(* ================================================================== *)
(** ** The panel matrix, the batteries and the regulator of main.js *)
(* ================================================================== *)

Section MainSizingFacts.

Import Consumption MainSizing.
Local Open Scope R_scope.

Lemma o_defecto_Fin (a : R) (d : num) : a <> 0 -> o_defecto (Fin a) d = Fin a.
Proof.
  intros H; unfold o_defecto; cbn [isNaN orb].
  rewrite eqb_Fin_false by assumption; reflexivity.
Qed.

Lemma o_defecto_numero (x : num) :
  numero x -> o_defecto x 0%R = Fin (valorR x).
Proof.
  intros [-> | (r & ->)]; [reflexivity | ].
  unfold o_defecto; cbn [isNaN orb valorR].
  destruct (Req_dec_T r 0) as [-> | Hr].
  - rewrite (proj2 (eqb_Fin_iff 0 0) eq_refl); reflexivity.
  - rewrite eqb_Fin_false by assumption; reflexivity.
Qed.

Lemma o_defecto_positivo (x : num) :
  (o_defecto x 0%R >? 0%R)%js = true ->
  o_defecto x 0%R = x /\ (x >? 0%R)%js = true.
Proof.
  destruct x as [ | | | a]; unfold o_defecto; cbn [isNaN orb].
  - intros H; apply gtb_Fin_iff in H; lra.
  - intros _; split; reflexivity.
  - intros H; discriminate H.
  - destruct (Req_dec_T a 0) as [-> | Ha].
    + rewrite (proj2 (eqb_Fin_iff 0 0) eq_refl).
      intros H; apply gtb_Fin_iff in H; lra.
    + rewrite eqb_Fin_false by assumption; intros H; split; [reflexivity | exact H].
Qed.

Lemma positivo_valido (x : num) :
  (x >? 0%R)%js = true -> isNaN x = false /\ (x <=? 0%R)%js = false.
Proof.
  destruct x as [ | | | a]; try discriminate.
  - intros _; split; reflexivity.
  - intros H; apply gtb_Fin_iff in H; split; [reflexivity | ].
    apply leb_Fin_false; exact H.
Qed.

Lemma IZR_pos_ge1 (n : Z) : 0 < IZR n -> (1 <= n)%Z.
Proof. intros H; apply lt_IZR in H; lia. Qed.

(** The value of [calcularNumeroPaneles] on positive fields. *)
Lemma numero_paneles_Fin (Et HPS Pp Pg V_BAT Vp : R) :
  0 < Et -> 0 < HPS -> 0 < Pp -> 0 < Pg -> 0 < V_BAT -> 0 < Vp ->
  let nt := Zceil (Et * 1000 / (HPS * Pp * Pg)) in
  let ns := Zceil (V_BAT / Vp) in
  let np := Zceil (IZR nt / IZR ns) in
  calcularNumeroPaneles (Fin Et) (Fin HPS) (Fin Pp) (Fin Pg) (Fin V_BAT)
                        (Fin Vp)
  = Matriz (Fin (IZR nt)) (Fin (IZR nt)) (Fin (IZR ns)) (Fin (IZR np))
  /\ (1 <= nt)%Z /\ (1 <= ns)%Z /\ (1 <= np)%Z.
Proof.
  intros H1 H2 H3 H4 H5 H6 nt ns np.
  assert (Hd : 0 < HPS * Pp * Pg)
    by (repeat apply Rmult_lt_0_compat; assumption).
  destruct (techo_cociente (Et * 1000) (HPS * Pp * Pg) Hd) as (Ht & _ & _).
  destruct (techo_cociente V_BAT Vp H6) as (Hs & _ & _).
  fold nt in Ht; fold ns in Hs.
  assert (Hnt : 0 < IZR nt) by nra.
  assert (Hns : 0 < IZR ns) by nra.
  destruct (techo_cociente (IZR nt) (IZR ns) Hns) as (Hp & _ & _).
  fold np in Hp.
  assert (Hnp : 0 < IZR np) by nra.
  split; [ | repeat split; apply IZR_pos_ge1; assumption].
  unfold calcularNumeroPaneles; cbn [isNaN orb].
  rewrite !leb_Fin_false by assumption; cbn [orb].
  change (Fin Et * Fin 1000)%js with (Fin (Et * 1000)).
  rewrite total_paneles_Fin by assumption; fold nt.
  cbn [Math_ceil]; rewrite Zceil_IZR.
  rewrite serie_Fin by assumption; fold ns.
  rewrite paralelo_Fin by assumption; reflexivity.
Qed.

(** X3. [calcularNumeroPaneles]: for six positive fields the matrix shown
    has whole numbers of panels, of panels in series and of parallel
    branches, all at least 1; the total covers the daily energy, the string
    reaches the battery voltage with less than one panel in excess, and the
    matrix holds the total with less than one string in excess.  The value
    shown as unrounded equals the rounded one. *)
Theorem matriz_de_paneles (Et HPS Pp Pg V_BAT Vp : R) :
  0 < Et -> 0 < HPS -> 0 < Pp -> 0 < Pg -> 0 < V_BAT -> 0 < Vp ->
  exists nt ns np : Z,
    calcularNumeroPaneles (Fin Et) (Fin HPS) (Fin Pp) (Fin Pg) (Fin V_BAT)
                          (Fin Vp)
    = Matriz (Fin (IZR nt)) (Fin (IZR nt)) (Fin (IZR ns)) (Fin (IZR np))
    /\ (1 <= nt)%Z /\ (1 <= ns)%Z /\ (1 <= np)%Z
    /\ Et * 1000 <= IZR nt * (HPS * Pp * Pg)
    /\ V_BAT <= IZR ns * Vp < V_BAT + Vp
    /\ (nt <= np * ns < nt + ns)%Z.
Proof.
  intros H1 H2 H3 H4 H5 H6.
  destruct (numero_paneles_Fin Et HPS Pp Pg V_BAT Vp H1 H2 H3 H4 H5 H6)
    as (E & Hnt & Hns & Hnp).
  cbv zeta in E, Hnt, Hns, Hnp.
  set (nt := Zceil (Et * 1000 / (HPS * Pp * Pg))) in *.
  set (ns := Zceil (V_BAT / Vp)) in *.
  set (np := Zceil (IZR nt / IZR ns)) in *.
  exists nt, ns, np.
  assert (Hd : 0 < HPS * Pp * Pg)
    by (repeat apply Rmult_lt_0_compat; assumption).
  destruct (techo_cociente (Et * 1000) (HPS * Pp * Pg) Hd) as (Ht & _ & _).
  destruct (techo_cociente V_BAT Vp H6) as (Hs1 & Hs2 & _).
  assert (Hns' : 0 < IZR ns) by (apply IZR_lt; lia).
  destruct (techo_cociente (IZR nt) (IZR ns) Hns') as (Hp1 & Hp2 & _).
  fold nt in Ht; fold ns in Hs1, Hs2; fold np in Hp1, Hp2.
  repeat split; try assumption.
  - apply le_IZR; rewrite mult_IZR; exact Hp1.
  - apply lt_IZR; rewrite plus_IZR, mult_IZR; exact Hp2.
Qed.

Lemma matriz_de_paneles_witness :
  exists nt ns np : Z,
    calcularNumeroPaneles (Fin 3) (Fin 4) (Fin 300) (Fin 0.8) (Fin 24)
                          (Fin 18)
    = Matriz (Fin (IZR nt)) (Fin (IZR nt)) (Fin (IZR ns)) (Fin (IZR np))
    /\ (1 <= nt)%Z /\ (1 <= ns)%Z /\ (1 <= np)%Z
    /\ 3 * 1000 <= IZR nt * (4 * 300 * 0.8)
    /\ 24 <= IZR ns * 18 < 24 + 18
    /\ (nt <= np * ns < nt + ns)%Z.
Proof.
  apply (matriz_de_paneles 3 4 300 0.8 24 18); lra.
Defined.



(** X5. An unreadable consumption field is treated differently by the two
    functions that read it: [calcularNumeroPaneles] asks to check the data,
    whereas the validation of [calcularCapacidadBaterias] lets [NaN]
    through and the capacity shown is [NaN]. *)
Theorem consumo_ilegible (HPS Pp Pg V_BAT Vp : num) (D Vbat Pd : R) :
  0 < D -> 0 < Vbat -> 0 < Pd <= 1 ->
  calcularNumeroPaneles NaN HPS Pp Pg V_BAT Vp = RevisarDatos
  /\ calcularCapacidadBaterias NaN (Fin D) (Fin Vbat) (Fin Pd) = Some NaN.
Proof.
  intros H2 H3 [H4 H5]; split; [reflexivity | ].
  unfold calcularCapacidadBaterias.
  rewrite !o_defecto_Fin by lra.
  cbn [isNaN mul].
  change (NaN <=? 0%R)%js with false.
  rewrite (leb_Fin_false D 0), (leb_Fin_false Vbat 0), (leb_Fin_false Pd 0)
    by assumption.
  unfold gtb; rewrite (ltb_Fin_false 1 Pd) by assumption.
  cbn [orb].
  unfold calcularCapacidadNominalBateria.
  rewrite (leb_Fin_false Vbat 0), (leb_Fin_false Pd 0) by assumption.
  reflexivity.
Qed.

Lemma consumo_ilegible_witness :
  calcularNumeroPaneles NaN (Fin 4) (Fin 300) (Fin 0.8) (Fin 24) (Fin 18)
  = RevisarDatos
  /\ calcularCapacidadBaterias NaN (Fin 2) (Fin 24) (Fin 0.5) = Some NaN.
Proof.
  apply (consumo_ilegible (Fin 4) (Fin 300) (Fin 0.8) (Fin 24) (Fin 18)
                          2 24 0.5); lra.
Defined.

End MainSizingFacts.

(* ================================================================== *)
(** ** The regulator of main.js *)
(* ================================================================== *)

Section RegulatorFacts.

Import Consumption MainSizing.
Local Open Scope R_scope.

Lemma PdcR_cons (row : Fila) (filas : list Fila) :
  PdcR (row :: filas)
  = (if esDC row then valorR (potencia_leida row) else 0) + PdcR filas.
Proof.
  unfold PdcR; cbn [filter]; destruct (esDC row); cbn [map fold_right]; lra.
Qed.

Lemma PacR_cons (row : Fila) (filas : list Fila) :
  PacR (row :: filas)
  = (if negb (esDC row) && esAC row then valorR (potencia_leida row) else 0)
    + PacR filas.
Proof.
  unfold PacR; cbn [filter]; destruct (negb (esDC row) && esAC row);
    cbn [map fold_right]; lra.
Qed.

(** The instantaneous power of a table with readable power fields. *)
Lemma potencia_fold (filas : list Fila) (a b : R) :
  Forall (fun row => numero (potencia_leida row)) filas ->
  fold_left sumarPotencia filas (Potencia.mk (Fin a) (Fin b))
  = Potencia.mk (Fin (a + PdcR filas)) (Fin (b + PacR filas)).
Proof.
  intros H; revert a b; induction H as [ | row filas Hrow _ IH]; intros a b.
  - unfold PdcR, PacR; cbn; f_equal; f_equal; lra.
  - rewrite PdcR_cons, PacR_cons; unfold esDC, esAC.
    cbn [fold_left]; unfold sumarPotencia at 2.
    rewrite (o_defecto_numero _ Hrow).
    destruct (String.eqb (tipo row) "DC") eqn:Edc; cbn [negb andb].
    + cbn [Potencia.Pdc_W Potencia.Pac_W add]; rewrite IH.
      f_equal; f_equal; lra.
    + destruct (String.eqb (tipo row) "AC") eqn:Eac.
      * cbn [Potencia.Pdc_W Potencia.Pac_W add]; rewrite IH.
        f_equal; f_equal; lra.
      * rewrite IH; f_equal; f_equal; lra.
Qed.

Lemma potencia_total_Fin (filas : list Fila) :
  Forall (fun row => numero (potencia_leida row)) filas ->
  obtenerPotenciaInstantaneaTotal filas
  = Potencia.mk (Fin (PdcR filas)) (Fin (PacR filas)).
Proof.
  intros H; unfold obtenerPotenciaInstantaneaTotal.
  rewrite (potencia_fold filas 0 0 H); f_equal; f_equal; lra.
Qed.

(** When the branches recomputed for the regulator are not rejected, the
    six fields are positive and were read as they are. *)
Lemma ramas_positivas (et hps pp pg vbat vp : num) :
  (ramasDelRegulador (o_defecto et 0%R) (o_defecto hps 0%R)
                     (o_defecto pp 0%R) (o_defecto pg 0%R)
                     (o_defecto vbat 0%R) (o_defecto vp 0%R) <=? 0%R)%js
  = false ->
  (o_defecto et 0%R = et /\ (et >? 0%R)%js = true)
  /\ (o_defecto hps 0%R = hps /\ (hps >? 0%R)%js = true)
  /\ (o_defecto pp 0%R = pp /\ (pp >? 0%R)%js = true)
  /\ (o_defecto pg 0%R = pg /\ (pg >? 0%R)%js = true)
  /\ (o_defecto vbat 0%R = vbat /\ (vbat >? 0%R)%js = true)
  /\ (o_defecto vp 0%R = vp /\ (vp >? 0%R)%js = true).
Proof.
  unfold ramasDelRegulador.
  destruct ((o_defecto et 0%R >? 0%R)%js) eqn:E1;
    [ | cbn [andb]; rewrite leb_Fin_true by lra; discriminate].
  destruct ((o_defecto hps 0%R >? 0%R)%js) eqn:E2;
    [ | cbn [andb]; rewrite leb_Fin_true by lra; discriminate].
  destruct ((o_defecto pp 0%R >? 0%R)%js) eqn:E3;
    [ | cbn [andb]; rewrite leb_Fin_true by lra; discriminate].
  destruct ((o_defecto pg 0%R >? 0%R)%js) eqn:E4;
    [ | cbn [andb]; rewrite leb_Fin_true by lra; discriminate].
  destruct ((o_defecto vbat 0%R >? 0%R)%js) eqn:E5;
    [ | cbn [andb]; rewrite leb_Fin_true by lra; discriminate].
  destruct ((o_defecto vp 0%R >? 0%R)%js) eqn:E6;
    [ | cbn [andb]; rewrite leb_Fin_true by lra; discriminate].
  intros _; repeat split; apply o_defecto_positivo; assumption.
Qed.

(** The value of [calcularCorrienteReguladorFinal] on positive fields. *)
Lemma regulador_final_Fin (pp vp et hps pg vbat : R) (filas : list Fila) :
  0 < pp -> 0 < vp -> 0 < et -> 0 < hps -> 0 < pg -> 0 < vbat ->
  Forall (fun row => numero (potencia_leida row)) filas ->
  0 < PdcR filas + PacR filas ->
  let nt := Zceil (et * 1000 / (hps * pp * pg)) in
  let ns := Zceil (vbat / vp) in
  let np := Zceil (IZR nt / IZR ns) in
  let ig := pp / vp * IZR np in
  let ic := PdcR filas / vbat + PacR filas / 220 in
  calcularCorrienteReguladorFinal (Fin pp) (Fin vp) (Fin et) (Fin hps)
                                  (Fin pg) (Fin vbat) filas
  = Some (mkRegulador (Fin ig) (Fin ic)
                      (Fin (IZR (Zceil (Rmax ig ic * 1.25))))).
Proof.
  intros H1 H2 H3 H4 H5 H6 Hf Hp nt ns np ig ic.
  destruct (numero_paneles_Fin et hps pp pg vbat vp H3 H4 H1 H5 H6 H2)
    as (_ & Hnt & Hns & Hnp).
  change (1 <= nt)%Z in Hnt; change (1 <= ns)%Z in Hns;
    change (1 <= np)%Z in Hnp.
  assert (Hnp' : 0 < IZR np) by (apply IZR_lt; lia).
  assert (Hns' : 0 < IZR ns) by (apply IZR_lt; lia).
  assert (ERamas : ramasDelRegulador (Fin et) (Fin hps) (Fin pp) (Fin pg)
                                     (Fin vbat) (Fin vp) = Fin (IZR np)).
  { unfold ramasDelRegulador.
    rewrite !(proj2 (gtb_Fin_iff _ 0)) by assumption; cbn [andb].
    change (Fin et * Fin 1000)%js with (Fin (et * 1000)).
    rewrite total_paneles_Fin by assumption; fold nt.
    cbn [Math_ceil]; rewrite Zceil_IZR.
    rewrite serie_Fin by assumption; fold ns.
    rewrite paralelo_Fin by assumption; reflexivity. }
  unfold calcularCorrienteReguladorFinal.
  rewrite !o_defecto_Fin by lra.
  rewrite ERamas, (potencia_total_Fin filas Hf).
  cbn [Potencia.Pdc_W Potencia.Pac_W add].
  rewrite !leb_Fin_false by assumption; cbn [orb].
  unfold calcularCorrienteGenerada, calcularCorrienteConsumida, Vac_defecto.
  rewrite !leb_Fin_false by lra; cbn [orb].
  rewrite !div_Fin by lra.
  cbn [mul add]; rewrite regulador_Fin; reflexivity.
Qed.

Lemma filas_ejemplo_legibles :
  Forall (fun row => numero (potencia_leida row)) [filaNevera; filaLampara].
Proof.
  constructor; [right; eexists; reflexivity | ].
  constructor; [right; eexists; reflexivity | constructor].
Qed.

(** X6. [calcularCorrienteReguladorFinal]: for positive fields and a table
    of readable powers whose sum is positive, the regulator is sized with
    the number of parallel branches that [calcularNumeroPaneles] shows; the
    rating is a whole number of amperes, at least 1, that covers 1.25 times
    the generated current and 1.25 times the consumed current. *)
Theorem regulador_final_dimensionado
  (pp vp et hps pg vbat : R) (filas : list Fila) :
  0 < pp -> 0 < vp -> 0 < et -> 0 < hps -> 0 < pg -> 0 < vbat ->
  Forall (fun row => numero (potencia_leida row)) filas ->
  0 < PdcR filas + PacR filas ->
  exists nt ns np n : Z,
    calcularNumeroPaneles (Fin et) (Fin hps) (Fin pp) (Fin pg) (Fin vbat)
                          (Fin vp)
    = Matriz (Fin (IZR nt)) (Fin (IZR nt)) (Fin (IZR ns)) (Fin (IZR np))
    /\ calcularCorrienteReguladorFinal (Fin pp) (Fin vp) (Fin et) (Fin hps)
                                       (Fin pg) (Fin vbat) filas
       = Some (mkRegulador (Fin (pp / vp * IZR np))
                           (Fin (PdcR filas / vbat + PacR filas / 220))
                           (Fin (IZR n)))
    /\ (1 <= np)%Z /\ (1 <= n)%Z
    /\ 1.25 * (pp / vp * IZR np) <= IZR n
    /\ 1.25 * (PdcR filas / vbat + PacR filas / 220) <= IZR n.
Proof.
  intros H1 H2 H3 H4 H5 H6 Hf Hp.
  destruct (numero_paneles_Fin et hps pp pg vbat vp H3 H4 H1 H5 H6 H2)
    as (E & _ & _ & Hnp).
  pose proof (regulador_final_Fin pp vp et hps pg vbat filas
                H1 H2 H3 H4 H5 H6 Hf Hp) as ER.
  cbv zeta in E, Hnp, ER.
  set (nt := Zceil (et * 1000 / (hps * pp * pg))) in *.
  set (ns := Zceil (vbat / vp)) in *.
  set (np := Zceil (IZR nt / IZR ns)) in *.
  set (ig := pp / vp * IZR np) in *.
  set (ic := PdcR filas / vbat + PacR filas / 220) in *.
  exists nt, ns, np, (Zceil (Rmax ig ic * 1.25)).
  destruct (Zceil_bound (Rmax ig ic * 1.25)) as [_ Hc].
  pose proof (Rmax_l ig ic); pose proof (Rmax_r ig ic).
  assert (Hig : 0 < ig).
  { unfold ig; apply Rmult_lt_0_compat;
      [apply Rdiv_lt_0_compat; assumption | apply IZR_lt; lia]. }
  repeat split; try assumption; fold ig; fold ic; try lra.
  apply IZR_pos_ge1; lra.
Qed.

Lemma regulador_final_dimensionado_witness :
  exists nt ns np n : Z,
    calcularNumeroPaneles (Fin 3) (Fin 4) (Fin 300) (Fin 0.8) (Fin 24)
                          (Fin 18)
    = Matriz (Fin (IZR nt)) (Fin (IZR nt)) (Fin (IZR ns)) (Fin (IZR np))
    /\ calcularCorrienteReguladorFinal (Fin 300) (Fin 18) (Fin 3) (Fin 4)
                                       (Fin 0.8) (Fin 24)
                                       [filaNevera; filaLampara]
       = Some (mkRegulador (Fin (300 / 18 * IZR np))
                           (Fin (PdcR [filaNevera; filaLampara] / 24
                                 + PacR [filaNevera; filaLampara] / 220))
                           (Fin (IZR n)))
    /\ (1 <= np)%Z /\ (1 <= n)%Z
    /\ 1.25 * (300 / 18 * IZR np) <= IZR n
    /\ 1.25 * (PdcR [filaNevera; filaLampara] / 24
               + PacR [filaNevera; filaLampara] / 220) <= IZR n.
Proof.
  apply (regulador_final_dimensionado 300 18 3 4 0.8 24
                                      [filaNevera; filaLampara]);
    try lra.
  - exact filas_ejemplo_legibles.
  - unfold PdcR, PacR; cbn; lra.
Defined.

(** X7. Whatever the fields hold, [calcularCorrienteReguladorFinal] shows a
    regulator only when [calcularNumeroPaneles] shows the panel matrix for
    the same fields, and the generated current is computed from the number
    of parallel branches of that matrix. *)
Theorem regulador_solo_con_matriz
  (pp vp et hps pg vbat : num) (filas : list Fila) (r : Regulador) :
  calcularCorrienteReguladorFinal pp vp et hps pg vbat filas = Some r ->
  exists Nt_total Nt_total_float Ns Np : num,
    calcularNumeroPaneles et hps pp pg vbat vp
    = Matriz Nt_total Nt_total_float Ns Np
    /\ IG r = calcularCorrienteGenerada pp vp Np.
Proof.
  unfold calcularCorrienteReguladorFinal; cbv zeta.
  destruct ((ramasDelRegulador (o_defecto et 0%R) (o_defecto hps 0%R)
               (o_defecto pp 0%R) (o_defecto pg 0%R)
               (o_defecto vbat 0%R) (o_defecto vp 0%R) <=? 0%R)%js) eqn:E;
    [cbn [orb]; discriminate | ].
  destruct (ramas_positivas et hps pp pg vbat vp E)
    as ((Eet & Pet) & (Ehps & Phps) & (Epp & Ppp) & (Epg & Ppg)
        & (Evbat & Pvbat) & (Evp & Pvp)).
  clear E; rewrite Eet, Ehps, Epp, Epg, Evbat, Evp.
  cbn [orb].
  match goal with
  | |- (if ?c then _ else _) = _ -> _ => destruct c; [discriminate | ]
  end.
  intros [= <-]; cbn [IG].
  unfold calcularNumeroPaneles.
  destruct (positivo_valido et Pet) as [-> ->].
  destruct (positivo_valido hps Phps) as [-> ->].
  destruct (positivo_valido pp Ppp) as [-> ->].
  destruct (positivo_valido pg Ppg) as [-> ->].
  destruct (positivo_valido vbat Pvbat) as [-> ->].
  destruct (positivo_valido vp Pvp) as [-> ->].
  cbn [orb].
  do 4 eexists; split; [reflexivity | ].
  unfold ramasDelRegulador; rewrite Pet, Phps, Ppp, Ppg, Pvbat, Pvp.
  reflexivity.
Qed.

Lemma regulador_solo_con_matriz_witness :
  exists Nt_total Nt_total_float Ns Np : num,
    calcularNumeroPaneles (Fin 3) (Fin 4) (Fin 300) (Fin 0.8) (Fin 24)
                          (Fin 18)
    = Matriz Nt_total Nt_total_float Ns Np
    /\ Fin (300 / 18
            * IZR (Zceil (IZR (Zceil (3 * 1000 / (4 * 300 * 0.8)))
                          / IZR (Zceil (24 / 18)))))
       = calcularCorrienteGenerada (Fin 300) (Fin 18) Np.
Proof.
  pose proof filas_ejemplo_legibles as Hf.
  assert (Hp : 0 < PdcR [filaNevera; filaLampara]
                   + PacR [filaNevera; filaLampara])
    by (unfold PdcR, PacR; cbn; lra).
  exact (regulador_solo_con_matriz
           (Fin 300) (Fin 18) (Fin 3) (Fin 4) (Fin 0.8) (Fin 24)
           [filaNevera; filaLampara] _
           (regulador_final_Fin 300 18 3 4 0.8 24 [filaNevera; filaLampara]
              ltac:(lra) ltac:(lra) ltac:(lra) ltac:(lra) ltac:(lra)
              ltac:(lra) Hf Hp)).
Defined.

End RegulatorFacts.

(* ================================================================== *)
(** ** The daily consumption of utils_consumption.js *)
(* ================================================================== *)

Section ConsumptionFacts.

Import Consumption.
Local Open Scope R_scope.

Lemma recorrer_cons (row : Fila) (resto : list Fila) (EDC EAC : num) :
  recorrerFilas (row :: resto) EDC EAC
  = if filaRechazada row then None
    else if esDC row then recorrerFilas resto (EDC + energiaDiaria row)%js EAC
         else recorrerFilas resto EDC (EAC + energiaDiaria row)%js.
Proof. reflexivity. Qed.

(** A rejected row ends the loop, wherever it stands. *)
Lemma recorrer_rechazada (filas : list Fila) (row : Fila) (EDC EAC : num) :
  In row filas -> filaRechazada row = true ->
  recorrerFilas filas EDC EAC = None.
Proof.
  intros Hin Hrow; revert EDC EAC.
  induction filas as [ | r resto IH]; intros EDC EAC; [contradiction | ].
  rewrite recorrer_cons.
  destruct (filaRechazada r) eqn:Er; [reflexivity | ].
  destruct Hin as [-> | Hin]; [congruence | ].
  destruct (esDC r); apply IH; assumption.
Qed.

(** A row with readable fields that is not rejected has a power and a time
    that are not negative. *)
Lemma fila_no_rechazada (row : Fila) :
  numero (potencia_leida row) -> numero (tiempo_leido row) ->
  filaRechazada row = false ->
  energiaDiaria row = Fin (energiaR row)
  /\ 0 <= valorR (potencia_leida row)
  /\ 0 <= valorR (tiempo_leido row) <= 24.
Proof.
  intros Hp Ht; unfold filaRechazada, energiaDiaria, energiaR.
  rewrite (o_defecto_numero _ Hp), (o_defecto_numero _ Ht).
  set (p := valorR (potencia_leida row)); set (t := valorR (tiempo_leido row)).
  intros H; apply orb_false_elim in H; destruct H as [H H3].
  apply orb_false_elim in H; destruct H as [H1 H2].
  split; [reflexivity | ].
  assert (~ p < 0) by (intros C; apply ltb_Fin_iff in C; congruence).
  assert (~ t < 0) by (intros C; apply ltb_Fin_iff in C; congruence).
  assert (~ 24 < t) by (intros C; apply gtb_Fin_iff in C; congruence).
  lra.
Qed.

Lemma EDCR_cons (row : Fila) (filas : list Fila) :
  EDCR (row :: filas) = (if esDC row then energiaR row else 0) + EDCR filas.
Proof.
  unfold EDCR; cbn [filter]; destruct (esDC row); cbn [map fold_right]; lra.
Qed.

Lemma EACR_cons (row : Fila) (filas : list Fila) :
  EACR (row :: filas) = (if esDC row then 0 else energiaR row) + EACR filas.
Proof.
  unfold EACR; cbn [filter]; destruct (esDC row); cbn [negb map fold_right];
    lra.
Qed.

(** The loop on readable rows: it stops at a rejected row or returns the
    two sums. *)
Lemma recorrer_legibles (filas : list Fila) (a b : R) :
  Forall (fun row => numero (potencia_leida row)
                     /\ numero (tiempo_leido row)) filas ->
  (recorrerFilas filas (Fin a) (Fin b) = None
   /\ exists row, In row filas /\ filaRechazada row = true)
  \/ (recorrerFilas filas (Fin a) (Fin b)
      = Some (Fin (a + EDCR filas), Fin (b + EACR filas))
      /\ Forall (fun row => filaRechazada row = false
                            /\ 0 <= energiaR row) filas).
Proof.
  intros H; revert a b; induction H as [ | row filas [Hp Ht] _ IH];
    intros a b.
  - right; split; [ | constructor].
    unfold EDCR, EACR; cbn; do 2 f_equal; f_equal; lra.
  - rewrite recorrer_cons, EDCR_cons, EACR_cons.
    destruct (filaRechazada row) eqn:Er.
    + left; split; [reflexivity | exists row; split; [left; reflexivity | exact Er]].
    + destruct (fila_no_rechazada row Hp Ht Er) as (-> & Hp0 & Ht0).
      assert (He : 0 <= energiaR row)
        by (unfold energiaR; apply Rmult_le_pos; lra).
      cbn [add].
      destruct (esDC row).
      * destruct (IH (a + energiaR row) b) as [(E & r & Hin & Hr) | (E & Hall)].
        -- left; split; [exact E | exists r; split; [right; exact Hin | exact Hr]].
        -- right; split; [ | constructor; [split; assumption | exact Hall]].
           rewrite E; do 2 f_equal; f_equal; lra.
      * destruct (IH a (b + energiaR row)) as [(E & r & Hin & Hr) | (E & Hall)].
        -- left; split; [exact E | exists r; split; [right; exact Hin | exact Hr]].
        -- right; split; [ | constructor; [split; assumption | exact Hall]].
           rewrite E; do 2 f_equal; f_equal; lra.
Qed.

Lemma EDCR_nonneg (filas : list Fila) :
  Forall (fun row => filaRechazada row = false /\ 0 <= energiaR row) filas ->
  0 <= EDCR filas /\ 0 <= EACR filas.
Proof.
  induction 1 as [ | row filas [_ He] _ [IH1 IH2]].
  - unfold EDCR, EACR; cbn; lra.
  - rewrite EDCR_cons, EACR_cons; destruct (esDC row); lra.
Qed.



Lemma fila_aceptable (row : Fila) :
  filaAceptable row ->
  numero (potencia_leida row) /\ numero (tiempo_leido row)
  /\ filaRechazada row = false.
Proof.
  intros (p & t & Ep & Et & Hp & Ht1 & Ht2).
  split; [right; exists p; exact Ep | ].
  split; [right; exists t; exact Et | ].
  unfold filaRechazada.
  rewrite !o_defecto_numero by (right; eexists; eassumption).
  rewrite Ep, Et; cbn [valorR]; unfold gtb.
  rewrite !ltb_Fin_false by lra; reflexivity.
Qed.

(** X9. [calcularConsumoTotal]: with both efficiencies in (0, 1] and rows
    that the form accepts, the daily energy is the DC energy divided by the
    battery efficiency plus the AC energy divided by both efficiencies, and
    it is never below the energy that the loads themselves draw. *)
Theorem consumo_con_perdidas (etaBAT etaINV : R) (filas : list Fila) :
  0 < etaBAT <= 1 -> 0 < etaINV <= 1 ->
  Forall filaAceptable filas ->
  calcularConsumoTotal (Fin etaBAT) (Fin etaINV) filas
  = Fin (EDCR filas / etaBAT + EACR filas / (etaBAT * etaINV))
  /\ EDCR filas + EACR filas
     <= EDCR filas / etaBAT + EACR filas / (etaBAT * etaINV).
Proof.
  intros [Hb1 Hb2] [Hi1 Hi2] Hf.
  assert (Hleg : Forall (fun row => numero (potencia_leida row)
                                    /\ numero (tiempo_leido row)) filas).
  { eapply Forall_impl; [ | exact Hf].
    intros row Hrow; destruct (fila_aceptable row Hrow) as (H1 & H2 & _).
    split; assumption. }
  destruct (recorrer_legibles filas 0 0 Hleg)
    as [(_ & row & Hin & Hr) | (E & Hall)].
  { rewrite Forall_forall in Hf.
    destruct (fila_aceptable row (Hf row Hin)) as (_ & _ & Hno); congruence. }
  destruct (EDCR_nonneg filas Hall) as [H1 H2].
  assert (Hbi : 0 < etaBAT * etaINV) by (apply Rmult_lt_0_compat; lra).
  split.
  - unfold calcularConsumoTotal.
    rewrite !o_defecto_Fin by lra; cbn [isNaN].
    rewrite !leb_Fin_false by assumption; cbn [orb].
    rewrite E.
    change (Fin etaBAT * Fin etaINV)%js with (Fin (etaBAT * etaINV)).
    rewrite !div_Fin by lra; cbn [add].
    f_equal; lra.
  - assert (Hx : forall x d, 0 <= x -> 0 < d <= 1 -> x <= x / d).
    { intros x d Hx [Hd1 Hd2].
      apply Rmult_le_reg_r with d; [exact Hd1 | ].
      replace (x / d * d) with x by (field; lra).
      nra. }
    assert (etaBAT * etaINV <= 1) by nra.
    pose proof (Hx (EDCR filas) etaBAT H1 (conj Hb1 Hb2)).
    pose proof (Hx (EACR filas) (etaBAT * etaINV) H2 (conj Hbi H)).
    lra.
Qed.

Lemma filas_ejemplo_aceptables : Forall filaAceptable [filaNevera; filaLampara].
Proof.
  constructor; [exists 150, 8; repeat split; try reflexivity; lra | ].
  constructor; [exists 10, 5; repeat split; try reflexivity; lra | ].
  constructor.
Qed.

Lemma consumo_con_perdidas_witness :
  calcularConsumoTotal (Fin 0.8) (Fin 0.9) [filaNevera; filaLampara]
  = Fin (EDCR [filaNevera; filaLampara] / 0.8
         + EACR [filaNevera; filaLampara] / (0.8 * 0.9))
  /\ EDCR [filaNevera; filaLampara] + EACR [filaNevera; filaLampara]
     <= EDCR [filaNevera; filaLampara] / 0.8
        + EACR [filaNevera; filaLampara] / (0.8 * 0.9).
Proof.
  apply (consumo_con_perdidas 0.8 0.9 [filaNevera; filaLampara]);
    [lra | lra | exact filas_ejemplo_aceptables].
Defined.

(** X10. [calcularConsumoTotal]: one row with a negative power, a negative
    time or more than 24 hours makes the whole consumption 0, whatever the
    other rows and the efficiencies are. *)
Theorem fila_rechazada_anula
  (etaBAT etaINV : num) (filas : list Fila) (row : Fila) :
  In row filas -> filaRechazada row = true ->
  calcularConsumoTotal etaBAT etaINV filas = Fin 0.
Proof.
  intros Hin Hr; unfold calcularConsumoTotal.
  rewrite (recorrer_rechazada filas row _ _ Hin Hr).
  match goal with |- (if ?c then _ else _) = _ => destruct c end;
    reflexivity.
Qed.

Lemma filaNegativa_rechazada : filaRechazada filaNegativa = true.
Proof.
  unfold filaRechazada, filaNegativa; cbn [potencia_leida tiempo_leido].
  rewrite !o_defecto_Fin by lra.
  rewrite ltb_Fin_true by lra; reflexivity.
Qed.

Lemma fila_rechazada_anula_witness :
  calcularConsumoTotal (Fin 0.8) (Fin 0.9)
                       [filaNevera; filaNegativa; filaLampara]
  = Fin 0.
Proof.
  apply (fila_rechazada_anula (Fin 0.8) (Fin 0.9)
           [filaNevera; filaNegativa; filaLampara] filaNegativa).
  - right; left; reflexivity.
  - exact filaNegativa_rechazada.
Defined.

Lemma add_comm (x y : num) : (x + y)%js = (y + x)%js.
Proof.
  destruct x, y; cbn [add]; try reflexivity; f_equal; lra.
Qed.

Lemma add_swap (a x y : num) : (a + x + y)%js = (a + y + x)%js.
Proof.
  rewrite !add_assoc, (add_comm x y); reflexivity.
Qed.

Lemma recorrer_permutacion (filas filas' : list Fila) :
  Permutation filas filas' ->
  forall EDC EAC : num,
    recorrerFilas filas EDC EAC = recorrerFilas filas' EDC EAC.
Proof.
  induction 1 as [ | x l l' _ IH | x y l | l l' l'' _ IH1 _ IH2];
    intros EDC EAC.
  - reflexivity.
  - rewrite !recorrer_cons.
    destruct (filaRechazada x); [reflexivity | ].
    destruct (esDC x); apply IH.
  - rewrite !recorrer_cons.
    destruct (filaRechazada x), (filaRechazada y), (esDC x), (esDC y);
      try reflexivity;
      rewrite (add_swap _ (energiaDiaria y) (energiaDiaria x)); reflexivity.
  - rewrite IH1; apply IH2.
Qed.

(** X11. [calcularConsumoTotal]: the daily energy does not depend on the
    order of the rows of the table (in exact arithmetic). *)
Theorem consumo_independiente_del_orden
  (etaBAT etaINV : num) (filas filas' : list Fila) :
  Permutation filas filas' ->
  calcularConsumoTotal etaBAT etaINV filas
  = calcularConsumoTotal etaBAT etaINV filas'.
Proof.
  intros H; unfold calcularConsumoTotal.
  rewrite (recorrer_permutacion filas filas' H); reflexivity.
Qed.

Lemma consumo_independiente_del_orden_witness :
  calcularConsumoTotal (Fin 0.8) (Fin 0.9) [filaNevera; filaLampara]
  = calcularConsumoTotal (Fin 0.8) (Fin 0.9) [filaLampara; filaNevera].
Proof.
  apply (consumo_independiente_del_orden (Fin 0.8) (Fin 0.9)
           [filaNevera; filaLampara] [filaLampara; filaNevera]).
  apply perm_swap.
Defined.

End ConsumptionFacts.

(* ================================================================== *)
(** ** The retries of obtenerGdOpenMeteo *)
(* ================================================================== *)

Section OpenMeteoFacts.

Import OpenMeteo.
Local Open Scope nat_scope.

Lemma pausas_seq (a n : nat) (ps : list Z) :
  (ps ++ [(1000 * 2 ^ Z.of_nat a)%Z])
  ++ map (fun j => (1000 * 2 ^ Z.of_nat j)%Z) (seq (S a) n)
  = ps ++ map (fun j => (1000 * 2 ^ Z.of_nat j)%Z) (seq a (S n)).
Proof. rewrite <- app_assoc; reflexivity. Qed.

Lemma mas_turnos (a p M : nat) :
  a + S (S p) = M -> (Z.of_nat a <? Z.of_nat M - 1)%Z = true.
Proof. intros H; apply Z.ltb_lt; lia. Qed.

Lemma ultimo_turno (a M : nat) :
  a + 1 = M -> (Z.of_nat a <? Z.of_nat M - 1)%Z = false.
Proof. intros H; apply Z.ltb_ge; lia. Qed.

(** The loop when no response ends the call. *)
Lemma bucle_sin_decision (red : nat -> Respuesta) (M p a : nat)
  (ps : list Z) :
  a + p = M ->
  (forall k, a <= k < M -> decisiva (red k) = false) ->
  bucleReintentos red M p a ps
  = mkTraza FalloEnReintentos M
      (ps ++ map (fun j => (1000 * 2 ^ Z.of_nat j)%Z) (seq a (p - 1))).
Proof.
  revert a ps; induction p as [ | p IH]; intros a ps Hap Hno.
  - cbn; rewrite app_nil_r; f_equal; lia.
  - assert (Ha : decisiva (red a) = false) by (apply Hno; lia).
    cbn [bucleReintentos].
    destruct p as [ | p].
    + rewrite (ultimo_turno a M) by lia.
      destruct (red a); try discriminate Ha;
        cbn; rewrite app_nil_r; f_equal; lia.
    + rewrite (mas_turnos a p M) by lia.
      assert (E : bucleReintentos red M (S p) (S a)
                    (ps ++ [(1000 * 2 ^ Z.of_nat a)%Z])
                  = mkTraza FalloEnReintentos M
                      (ps ++ map (fun j => (1000 * 2 ^ Z.of_nat j)%Z)
                                 (seq a (S (S p) - 1)))).
      { rewrite IH; [ | lia | intros k Hk; apply Hno; lia].
        replace (S p - 1) with p by lia.
        replace (S (S p) - 1) with (S p) by lia.
        rewrite pausas_seq; reflexivity. }
      destruct (red a); try discriminate Ha; exact E.
Qed.

(** The loop up to the first response that ends the call. *)
Lemma bucle_decisiva (red : nat -> Respuesta) (M p a k : nat)
  (ps : list Z) :
  a + p = M -> a <= k < M ->
  (forall j, a <= j < k -> decisiva (red j) = false) ->
  decisiva (red k) = true ->
  bucleReintentos red M p a ps
  = mkTraza (textoDe (red k)) (S k)
      (ps ++ map (fun j => (1000 * 2 ^ Z.of_nat j)%Z) (seq a (k - a))).
Proof.
  revert a ps; induction p as [ | p IH]; intros a ps Hap Hk Hno Hsi;
    [lia | ].
  cbn [bucleReintentos].
  destruct (Nat.eq_dec a k) as [-> | Hne].
  - replace (k - k) with 0 by lia; cbn [seq map]; rewrite app_nil_r.
    destruct (red k); try discriminate Hsi; reflexivity.
  - assert (Ha : decisiva (red a) = false) by (apply Hno; lia).
    destruct p as [ | p]; [lia | ].
    rewrite (mas_turnos a p M) by lia.
    assert (E : bucleReintentos red M (S p) (S a)
                  (ps ++ [(1000 * 2 ^ Z.of_nat a)%Z])
                = mkTraza (textoDe (red k)) (S k)
                    (ps ++ map (fun j => (1000 * 2 ^ Z.of_nat j)%Z)
                               (seq a (k - a)))).
    { rewrite IH; [ | lia | lia | intros j Hj; apply Hno; lia | exact Hsi].
      replace (k - a) with (S (k - S a)) by lia.
      rewrite pausas_seq; reflexivity. }
    destruct (red a); try discriminate Ha; exact E.
Qed.

(** X12. [obtenerGdOpenMeteo]: when none of the first [maxRetries]
    requests brings a reason, a value or a null, the function answers the
    retry-failure message after exactly [maxRetries] requests, having
    paused 1 s, 2 s, 4 s, ... between them and not after the last one. *)
Theorem reintentos_agotados (red : nat -> Respuesta) (maxRetries : nat) :
  (forall k, k < maxRetries -> decisiva (red k) = false) ->
  obtenerGdOpenMeteo red maxRetries
  = mkTraza FalloEnReintentos maxRetries (pausasHasta (maxRetries - 1)).
Proof.
  intros H; unfold obtenerGdOpenMeteo, pausasHasta.
  rewrite (bucle_sin_decision red maxRetries maxRetries 0 []);
    [reflexivity | lia | intros k Hk; apply H; lia].
Qed.

Lemma reintentos_agotados_witness :
  obtenerGdOpenMeteo redCaida 3
  = mkTraza FalloEnReintentos 3 [1000%Z; 2000%Z].
Proof.
  apply (reintentos_agotados redCaida 3).
  intros k _; reflexivity.
Defined.

(** X13. [obtenerGdOpenMeteo]: the first request, among the first
    [maxRetries], that brings a reason, a value or a null decides the
    answer; no further request is sent, and the pauses before it are
    1 s, 2 s, 4 s, ... one after each failed request. *)
Theorem primera_respuesta_decide
  (red : nat -> Respuesta) (maxRetries k : nat) :
  k < maxRetries ->
  (forall j, j < k -> decisiva (red j) = false) ->
  decisiva (red k) = true ->
  obtenerGdOpenMeteo red maxRetries
  = mkTraza (textoDe (red k)) (S k) (pausasHasta k).
Proof.
  intros Hk Hno Hsi; unfold obtenerGdOpenMeteo, pausasHasta.
  rewrite (bucle_decisiva red maxRetries maxRetries 0 k []);
    [ | lia | lia | intros j Hj; apply Hno; lia | exact Hsi].
  replace (k - 0) with k by lia; reflexivity.
Qed.

Lemma primera_respuesta_decide_witness :
  obtenerGdOpenMeteo redTercera 3
  = mkTraza (Cifra (Fin 18 * MJ_A_KWH)%js) 3 [1000%Z; 2000%Z].
Proof.
  apply (primera_respuesta_decide redTercera 3 2).
  - lia.
  - intros j Hj; unfold redTercera.
    destruct j as [ | [ | j]]; [reflexivity | reflexivity | lia].
  - reflexivity.
Defined.

(** The trace of the loop, whatever the network does. *)
Lemma bucle_traza (red : nat -> Respuesta) (M p a : nat) (ps : list Z) :
  a + p = M ->
  let t := bucleReintentos red M p a ps in
  a <= peticiones t <= M
  /\ (0 < p -> a < peticiones t)
  /\ esperas t
     = ps ++ map (fun j => (1000 * 2 ^ Z.of_nat j)%Z)
                 (seq a (peticiones t - 1 - a)).
Proof.
  revert a ps; induction p as [ | p IH]; intros a ps Hap; cbv zeta.
  - cbn [bucleReintentos peticiones esperas].
    replace (a - 1 - a) with 0 by lia; cbn [seq map]; rewrite app_nil_r.
    repeat split; lia.
  - cbn [bucleReintentos].
    assert (Hfin : forall s : Texto,
               a <= peticiones (mkTraza s (S a) ps) <= M
               /\ (0 < S p -> a < peticiones (mkTraza s (S a) ps))
               /\ esperas (mkTraza s (S a) ps)
                  = ps ++ map (fun j => (1000 * 2 ^ Z.of_nat j)%Z)
                              (seq a (peticiones (mkTraza s (S a) ps)
                                      - 1 - a))).
    { intros s; cbn [peticiones esperas].
      replace (S a - 1 - a) with 0 by lia; cbn [seq map]; rewrite app_nil_r.
      repeat split; lia. }
    assert (Hsigue :
              let t := if (Z.of_nat a <? Z.of_nat M - 1)%Z
                       then bucleReintentos red M p (S a)
                              (ps ++ [(1000 * 2 ^ Z.of_nat a)%Z])
                       else bucleReintentos red M p (S a) ps in
              a <= peticiones t <= M
              /\ (0 < S p -> a < peticiones t)
              /\ esperas t
                 = ps ++ map (fun j => (1000 * 2 ^ Z.of_nat j)%Z)
                             (seq a (peticiones t - 1 - a))).
    { cbv zeta; destruct p as [ | p].
      - rewrite (ultimo_turno a M) by lia.
        cbn [bucleReintentos]; apply (Hfin FalloEnReintentos).
      - rewrite (mas_turnos a p M) by lia.
        destruct (IH (S a) (ps ++ [(1000 * 2 ^ Z.of_nat a)%Z])
                     ltac:(lia)) as (H1 & H2 & H3).
        specialize (H2 ltac:(lia)).
        split; [lia | split; [lia | ]].
        rewrite H3.
        replace (peticiones
                   (bucleReintentos red M (S p) (S a)
                      (ps ++ [(1000 * 2 ^ Z.of_nat a)%Z])) - 1 - a)
          with (S (peticiones
                     (bucleReintentos red M (S p) (S a)
                        (ps ++ [(1000 * 2 ^ Z.of_nat a)%Z])) - 1 - S a))
          by lia.
        apply pausas_seq. }
    destruct (red a); first [apply Hfin | exact Hsigue].
Qed.

(** X14. [obtenerGdOpenMeteo]: whatever the network does, the function
    sends at most [maxRetries] requests and pauses exactly once between two
    consecutive requests, for 1 s, 2 s, 4 s, ... *)
Theorem reintentos_acotados (red : nat -> Respuesta) (maxRetries : nat) :
  peticiones (obtenerGdOpenMeteo red maxRetries) <= maxRetries
  /\ esperas (obtenerGdOpenMeteo red maxRetries)
     = pausasHasta (peticiones (obtenerGdOpenMeteo red maxRetries) - 1).
Proof.
  destruct (bucle_traza red maxRetries maxRetries 0 [] ltac:(lia))
    as (H1 & _ & H3).
  cbv zeta in H1, H3; fold (obtenerGdOpenMeteo red maxRetries) in H1, H3.
  split; [lia | ].
  rewrite H3; unfold pausasHasta; cbn [app].
  replace (peticiones (obtenerGdOpenMeteo red maxRetries) - 1 - 0)
    with (peticiones (obtenerGdOpenMeteo red maxRetries) - 1) by lia.
  reflexivity.
Qed.

End OpenMeteoFacts.

(* ================================================================== *)
(** ** Two-decimal rounding and what main.js reads from the data source *)
(* ================================================================== *)

Section ReadingFacts.

Import OpenMeteo.
Local Open Scope R_scope.

Lemma centesimas_cota (a : R) : a - 0.005 < centesimas a <= a + 0.005.
Proof.
  unfold centesimas; destruct (Zfloor_bound (a * 100 + / 2)) as [H1 H2]; lra.
Qed.

Lemma centesimas_nonneg (a : R) : 0 <= a -> 0 <= centesimas a.
Proof.
  intros Ha; unfold centesimas.
  assert (H : (0 <= Zfloor (a * 100 + / 2))%Z) by (apply Zfloor_lub; lra).
  apply IZR_le in H; lra.
Qed.

Lemma centesimas_pos (a : R) : 0 < centesimas a <-> 0.005 <= a.
Proof.
  unfold centesimas; split; intros H.
  - assert (H0 : 0 < IZR (Zfloor (a * 100 + / 2))) by lra.
    apply lt_IZR in H0.
    assert (H1 : (1 <= Zfloor (a * 100 + / 2))%Z) by lia.
    apply IZR_le in H1.
    destruct (Zfloor_bound (a * 100 + / 2)) as [H2 _]; lra.
  - assert (H1 : (1 <= Zfloor (a * 100 + / 2))%Z) by (apply Zfloor_lub; lra).
    apply IZR_le in H1; lra.
Qed.

(** Rounding to two decimals keeps a finite number finite, moves it by at
    most 0.005 and gives a positive number exactly from 0.005 on. *)
Lemma toFixed2_Fin (a : R) :
  exists c : R,
    toFixed2 (Fin a) = Fin c
    /\ (0 < c <-> 0.005 <= a)
    /\ Rabs (c - a) <= 0.005.
Proof.
  unfold toFixed2.
  assert (Hpow : 1 <= 10 ^ 21) by (apply pow_R1_Rle; lra).
  destruct (Rle_dec (10 ^ 21) (Rabs a)) as [Hbig | Hsmall].
  - exists a; split; [reflexivity | split].
    + split; intros H; [rewrite Rabs_right in Hbig by lra; lra | lra].
    + replace (a - a) with 0 by lra; rewrite Rabs_R0; lra.
  - destruct (Rlt_dec a 0) as [Hneg | Hpos].
    + exists (- centesimas (- a)); split; [reflexivity | split].
      * pose proof (centesimas_nonneg (- a) ltac:(lra)).
        split; intros; lra.
      * pose proof (centesimas_cota (- a)).
        apply Rabs_le; lra.
    + exists (centesimas a); split; [reflexivity | split].
      * apply centesimas_pos.
      * pose proof (centesimas_cota a).
        apply Rabs_le; lra.
Qed.

(** The string returned is one of the three messages or the print of a
    finite number of kWh. *)
Lemma bucle_devuelto (red : nat -> Respuesta) (M p a : nat) (ps : list Z) :
  let s := devuelto (bucleReintentos red M p a ps) in
  (exists v : R, s = Cifra (Fin (v * 0.277778)))
  \/ parseFloat s = NaN.
Proof.
  revert a ps; induction p as [ | p IH]; intros a ps; cbv zeta.
  - right; reflexivity.
  - cbn [bucleReintentos].
    destruct (red a) as [ | | v | | ]; cbn [devuelto].
    + destruct (Z.of_nat a <? Z.of_nat M - 1)%Z; apply IH.
    + right; reflexivity.
    + left; exists v; reflexivity.
    + right; reflexivity.
    + destruct (Z.of_nat a <? Z.of_nat M - 1)%Z; apply IH.
Qed.


(** X16. A month whose day exists passes the filter of [ejecutarCalculos]
    exactly when the data source returned the print of a value of at least
    0.005 kWh/m2: an error message, but also a smaller measurement (which
    prints as 0.00), excludes the month from the search. *)
Theorem mes_usado_si_hay_dato (red : Z -> nat -> Respuesta) (item : Item) :
  isInvalid item = false ->
  Main.esMesValido (Main.completarMes (GdLeido red) item) = true
  <-> exists v : R,
        devuelto (obtenerGdOpenMeteo (red (SolarFormulas.dn item))
                                     maxRetries_defecto)
        = Cifra (Fin (v * 0.277778))
        /\ 0.005 <= v * 0.277778.
Proof.
  intros Hinv; unfold Main.completarMes, Main.esMesValido.
  rewrite Hinv; cbn [isInvalid Gd_kWh negb andb typeof_number].
  unfold GdLeido, obtenerGdOpenMeteo.
  destruct (bucle_devuelto (red (SolarFormulas.dn item)) maxRetries_defecto
                           maxRetries_defecto 0%nat [])
    as [(v & E) | E]; cbv zeta in E.
  - rewrite E; cbn [parseFloat].
    destruct (toFixed2_Fin (v * 0.277778)) as (c & -> & Hc & _).
    cbn [isNaN negb andb]; rewrite gtb_Fin_iff, Hc.
    split.
    + intros H; exists v; split; [reflexivity | exact H].
    + intros (v' & [= Ev] & H); rewrite Ev; exact H.
  - rewrite E; cbn [isNaN negb andb]; split; [discriminate | ].
    intros (v & E' & _); rewrite E' in E; cbn [parseFloat] in E.
    destruct (toFixed2_Fin (v * 0.277778)) as (c & Ec & _).
    rewrite Ec in E; discriminate E.
Qed.

Lemma mes_usado_si_hay_dato_witness :
  Main.esMesValido
    (Main.completarMes (GdLeido (fun _ => redTercera)) mesEquinoccio) = true
  <-> exists v : R,
        devuelto (obtenerGdOpenMeteo redTercera maxRetries_defecto)
        = Cifra (Fin (v * 0.277778))
        /\ 0.005 <= v * 0.277778.
Proof.
  apply (mes_usado_si_hay_dato (fun _ => redTercera) mesEquinoccio).
  reflexivity.
Defined.

End ReadingFacts.

(* ================================================================== *)
(** ** From the tilt search to the sizing (ejecutarCalculos, step 8) *)
(* ================================================================== *)

Section FinalSizingFacts.

Import Main MainSizing.
Local Open Scope R_scope.

Lemma scale_inf_pos (pos : bool) (r : R) :
  0 < r -> scale_inf pos r = if pos then PInf else NInf.
Proof.
  intros H; unfold scale_inf; destruct (Rlt_dec 0 r); [reflexivity | lra].
Qed.

Lemma toFixed2_pos (a : R) :
  0.005 <= a -> exists c : R, toFixed2 (Fin a) = Fin c /\ 0 < c.
Proof.
  intros H; destruct (toFixed2_Fin a) as (c & E & Hc & _).
  exists c; split; [exact E | apply Hc; exact H].
Qed.

(** X17. [ejecutarCalculos], step 8, after a search in which no month has a
    tilted irradiation at any angle (polar night): the search answers the
    angle 0 with an infinite minimum, the test [GiMinMensual > 0] lets it
    through, and the sizing goes on with a required peak power of 0 Wp and
    the field of peak sun hours set to Infinity; [calcularNumeroPaneles]
    then shows a matrix of 0 panels in 0 parallel branches. *)
Theorem dimensionamiento_sin_sol
  (items : list Item) (phi ET Pp Pg V_BAT Vp : R) :
  items <> [] ->
  (forall b item, In b candidatos -> In item items ->
     isNaN (GiEn (Fin phi) b item) = true) ->
  5 <= ET -> 0 < Pp -> 0 < Pg -> 0 < V_BAT -> 0 < Vp ->
  exists (g : Generador) (ns : Z),
    dimensionamientoFinal (Fin ET) (generarTablaAnualOptima items (Fin phi))
    = Some g
    /\ PpicoRequerida g = Fin 0
    /\ input_hps g = PInf
    /\ calcularNumeroPaneles (input_et g) (input_hps g) (Fin Pp) (Fin Pg)
                             (Fin V_BAT) (Fin Vp)
       = Matriz (Fin 0) (Fin 0) (Fin (IZR ns)) (Fin 0)
    /\ (1 <= ns)%Z.
Proof.
  intros Hne Hnan HET HPp HPg HV HVp.
  destruct (tabla_todo_NaN items (Fin phi) Hne Hnan) as [_ ->].
  destruct (toFixed2_pos (ET / 1000) ltac:(lra)) as (c & Ec & Hc).
  destruct (techo_cociente V_BAT Vp HVp) as (Hs & _ & _).
  assert (Hns : 0 < IZR (Zceil (V_BAT / Vp))) by nra.
  eexists; exists (Zceil (V_BAT / Vp)).
  split; [reflexivity | ].
  cbn [PpicoRequerida input_hps input_et Tabla.GiMinMensual toFixed2].
  split; [ | split; [reflexivity | split; [ | apply IZR_pos_ge1; exact Hns]]].
  - unfold dimensionarGenerador.
    change (PInf <=? 0%R)%js with false.
    rewrite leb_Fin_false by lra; cbn [orb mul].
    rewrite scale_inf_pos by lra; reflexivity.
  - rewrite div_Fin, Ec by lra.
    unfold calcularNumeroPaneles; cbn [isNaN orb].
    change (PInf <=? 0%R)%js with false.
    rewrite !leb_Fin_false by assumption; cbn [orb].
    unfold calcularNumeroTotalPaneles.
    change (PInf <=? 0%R)%js with false.
    rewrite !leb_Fin_false by assumption; cbn [orb mul].
    rewrite scale_inf_pos by assumption; cbn [mul].
    rewrite scale_inf_pos by assumption; cbn [div Math_ceil].
    rewrite Zceil_IZR; cbn [Math_ceil]; rewrite Zceil_IZR.
    rewrite serie_Fin by assumption.
    rewrite paralelo_Fin by assumption.
    replace (0 / IZR (Zceil (V_BAT / Vp))) with 0 by (field; lra).
    rewrite Zceil_IZR; reflexivity.
Qed.

Lemma dimensionamiento_sin_sol_witness :
  exists (g : Generador) (ns : Z),
    dimensionamientoFinal (Fin 3000)
      (generarTablaAnualOptima [mesNochePolar] (Fin 1.5))
    = Some g
    /\ PpicoRequerida g = Fin 0
    /\ input_hps g = PInf
    /\ calcularNumeroPaneles (input_et g) (input_hps g) (Fin 300) (Fin 0.8)
                             (Fin 24) (Fin 18)
       = Matriz (Fin 0) (Fin 0) (Fin (IZR ns)) (Fin 0)
    /\ (1 <= ns)%Z.
Proof.
  apply (dimensionamiento_sin_sol [mesNochePolar] 1.5 3000 300 0.8 24 18);
    try lra.
  - discriminate.
  - intros b item _ [<- | []]; unfold GiEn.
    rewrite Gi_NaN_sin_G0d; [reflexivity | ].
    apply ltb_Fin_false; lra.
Defined.

End FinalSizingFacts.

(* ================================================================== *)
(** ** The minimum monthly irradiation at the optimum *)
(* ================================================================== *)

Section WorstMonth.

Import Main.
Local Open Scope R_scope.

Lemma Math_min2_Fin (a b : R) : Math_min2 (Fin a) (Fin b) = Fin (Rmin a b).
Proof.
  unfold Math_min2; cbn [isNaN orb].
  unfold Rmin; destruct (Rle_dec a b) as [Hle | Hgt].
  - rewrite ltb_Fin_false by lra; reflexivity.
  - rewrite ltb_Fin_true by lra; reflexivity.
Qed.

Lemma fold_min_Fin (l : list R) (m : R) :
  fold_left Math_min2 (map Fin l) (Fin m) = Fin (fold_left Rmin l m).
Proof.
  revert m; induction l as [ | a l IH]; intros m; [reflexivity | ].
  cbn [map fold_left]; rewrite Math_min2_Fin; apply IH.
Qed.

Lemma fold_Rmin_spec (l : list R) (m : R) :
  fold_left Rmin l m <= m
  /\ Forall (fun x => fold_left Rmin l m <= x) l
  /\ (fold_left Rmin l m = m \/ In (fold_left Rmin l m) l).
Proof.
  revert m; induction l as [ | a l IH]; intros m; cbn [fold_left].
  - split; [lra | split; [constructor | left; reflexivity]].
  - destruct (IH (Rmin m a)) as (H1 & H2 & H3).
    pose proof (Rmin_l m a); pose proof (Rmin_r m a).
    split; [lra | split].
    + constructor; [lra | exact H2].
    + destruct H3 as [H3 | H3]; [ | right; right; exact H3].
      rewrite H3; unfold Rmin; destruct (Rle_dec m a);
        [left; reflexivity | right; left; reflexivity].
Qed.

(** [Math.min] of a non-empty list of finite numbers is one of them and is
    below all of them. *)
Lemma Math_min_Fin (a : R) (l : list R) :
  exists m : R,
    Math_min (map Fin (a :: l)) = Fin m
    /\ Forall (fun x => m <= x) (a :: l)
    /\ In m (a :: l).
Proof.
  exists (fold_left Rmin l a); unfold Math_min; cbn [map fold_left].
  change (Math_min2 PInf (Fin a)) with (Fin a).
  rewrite fold_min_Fin.
  destruct (fold_Rmin_spec l a) as (H1 & H2 & H3).
  split; [reflexivity | split].
  - constructor; assumption.
  - destruct H3 as [-> | H3]; [left; reflexivity | right; exact H3].
Qed.

Lemma lista_de_finitos (l : list num) :
  Forall (fun x => exists g : R, x = Fin g) l ->
  exists l' : list R, l = map Fin l'.
Proof.
  induction 1 as [ | x l (g & ->) _ (l' & ->)].
  - exists []; reflexivity.
  - exists (g :: l'); reflexivity.
Qed.

(** The row of the optimum among the rows of the search. *)
Lemma find_candidato (items : list Item) (lat : num) (b : Z)
  (cands : list Z) :
  In b cands ->
  find (esBeta (Some b)) (map (evaluarAngulo items lat) cands)
  = Some (evaluarAngulo items lat b).
Proof.
  induction cands as [ | c cands IH]; intros Hin; [contradiction | ].
  cbn [map find]; unfold esBeta at 1; rewrite beta_evaluarAngulo.
  destruct (Z.eqb_spec c b) as [-> | Hne]; [reflexivity | ].
  destruct Hin as [-> | Hin]; [contradiction | exact (IH Hin)].
Qed.

(** The months with a tilted irradiation at an angle, as a list of finite
    numbers. *)
Lemma Gi_finitos (items : list Item) (phi : R) (b : Z) :
  Forall muestraValida items ->
  Forall (fun x => exists g : R, x = Fin g)
         (map (GiEn (Fin phi) b)
              (filter (fun item => negb (isNaN (GiEn (Fin phi) b item)))
                      items)).
Proof.
  intros Hv; apply Forall_forall; intros x Hx.
  apply in_map_iff in Hx; destruct Hx as (item & <- & Hin).
  apply filter_In in Hin; destruct Hin as [Hin Hnan].
  rewrite Forall_forall in Hv.
  destruct (GiEn_valida item phi b (Hv item Hin)) as [E | (g & E & _)].
  - rewrite E in Hnan; discriminate.
  - exists g; exact E.
Qed.

(** The minimum returned with the optimal angle: infinite when no month
    has a value at that angle, and otherwise the least of the monthly
    values. *)
Lemma GiMin_del_optimo (items : list Item) (phi : R) :
  items <> [] -> Forall muestraValida items ->
  exists b : Z,
    Tabla.anguloOptimo (generarTablaAnualOptima items (Fin phi)) = Some b
    /\ (((forall item, In item items -> GiEn (Fin phi) b item = NaN)
         /\ Tabla.GiMinMensual (generarTablaAnualOptima items (Fin phi))
            = PInf)
        \/ exists (m : R) (item' : Item),
             Tabla.GiMinMensual (generarTablaAnualOptima items (Fin phi))
             = Fin m
             /\ In item' items /\ GiEn (Fin phi) b item' = Fin m
             /\ (forall item g,
                   In item items -> GiEn (Fin phi) b item = Fin g ->
                   m <= g)).
Proof.
  intros Hne Hv.
  destruct (totales_validos items phi Hv) as [Hfin H0].
  destruct (busqueda_primer_maximo items (Fin phi) Hfin H0)
    as (b & m & c1 & c2 & Hc & Hb & _).
  exists b; rewrite tabla_no_vacia by assumption.
  cbn [Tabla.anguloOptimo Tabla.GiMinMensual].
  split; [exact Hb | ].
  rewrite Hb, resultados_busqueda, find_candidato
    by (rewrite Hc; apply in_elt).
  rewrite evaluarAngulo_spec; cbn [GiMin].
  destruct (lista_de_finitos _ (Gi_finitos items phi b Hv)) as (l & El).
  rewrite El.
  destruct l as [ | a l].
  - left; split; [ | reflexivity].
    intros item Hin.
    rewrite Forall_forall in Hv.
    destruct (GiEn_valida item phi b (Hv item Hin)) as [E | (g & E & _)];
      [exact E | exfalso].
    assert (H : In (Fin g) (map Fin [])).
    { rewrite <- El, <- E; apply in_map, filter_In; split; [exact Hin | ].
      rewrite E; reflexivity. }
    exact H.
  - right.
    destruct (Math_min_Fin a l) as (mn & -> & Hle & Hmn).
    assert (H : In (Fin mn) (map Fin (a :: l))) by (apply in_map; exact Hmn).
    rewrite <- El in H; apply in_map_iff in H.
    destruct H as (item' & E & Hin').
    apply filter_In in Hin'; destruct Hin' as [Hin' _].
    exists mn, item'; split; [reflexivity | split; [exact Hin' | ]].
    split; [exact E | ].
    intros item g Hin Hg.
    assert (H : In (Fin g) (map Fin (a :: l))).
    { rewrite <- El, <- Hg; apply in_map, filter_In; split; [exact Hin | ].
      rewrite Hg; reflexivity. }
    apply in_map_iff in H; destruct H as (g' & [= ->] & H).
    rewrite Forall_forall in Hle; apply Hle; exact H.
Qed.

(** X18. [generarTablaAnualOptima] on valid months: the minimum monthly
    value that it returns with the optimal angle (the peak sun hours used
    for the sizing) is a lower bound of the tilted irradiation of every
    month at that angle, and it is the value of one of the months, as soon
    as one month has a value there. *)
Theorem minimo_mensual_del_optimo (items : list Item) (phi : R) :
  items <> [] -> Forall muestraValida items ->
  exists b : Z,
    Tabla.anguloOptimo (generarTablaAnualOptima items (Fin phi)) = Some b
    /\ (forall item g,
          In item items -> GiEn (Fin phi) b item = Fin g ->
          exists m : R,
            Tabla.GiMinMensual (generarTablaAnualOptima items (Fin phi))
            = Fin m
            /\ m <= g
            /\ exists item', In item' items
                             /\ GiEn (Fin phi) b item' = Fin m).
Proof.
  intros Hne Hv.
  destruct (GiMin_del_optimo items phi Hne Hv)
    as (b & Hb & [(Hnan & _) | (m & item' & Em & Hin' & Ei' & Hle)]);
    exists b; (split; [exact Hb | ]); intros item g Hin Hg.
  - rewrite (Hnan item Hin) in Hg; discriminate.
  - exists m; split; [exact Em | split; [exact (Hle item g Hin Hg) | ]].
    exists item'; split; assumption.
Qed.

Lemma minimo_mensual_del_optimo_witness :
  exists b : Z,
    Tabla.anguloOptimo (generarTablaAnualOptima [mesEquinoccio] (Fin 0))
    = Some b
    /\ (forall item g,
          In item [mesEquinoccio] -> GiEn (Fin 0) b item = Fin g ->
          exists m : R,
            Tabla.GiMinMensual (generarTablaAnualOptima [mesEquinoccio]
                                                        (Fin 0))
            = Fin m
            /\ m <= g
            /\ exists item', In item' [mesEquinoccio]
                             /\ GiEn (Fin 0) b item' = Fin m).
Proof.
  apply (minimo_mensual_del_optimo [mesEquinoccio] 0).
  - discriminate.
  - exact mesEquinoccio_lista.
Defined.

(** X19. [ejecutarCalculos], step 8, on valid months and a positive daily
    energy: when the generator is sized, its peak power is not negative and,
    with the standard loss factor 0.8, it yields the daily energy in every
    month that has a tilted irradiation at the optimal angle; the sizing is
    refused only when some month has a tilted irradiation that is not
    positive at that angle. *)
Theorem generador_para_el_peor_mes (items : list Item) (phi ET : R) :
  items <> [] -> Forall muestraValida items -> 0 < ET ->
  exists b : Z,
    Tabla.anguloOptimo (generarTablaAnualOptima items (Fin phi)) = Some b
    /\ match MainSizing.dimensionamientoFinal
               (Fin ET) (generarTablaAnualOptima items (Fin phi)) with
       | Some gen =>
           exists P : R,
             MainSizing.PpicoRequerida gen = Fin P
             /\ 0 <= P
             /\ (forall item g,
                   In item items -> GiEn (Fin phi) b item = Fin g ->
                   ET <= P * 0.8 * g)
       | None =>
           exists item g,
             In item items /\ GiEn (Fin phi) b item = Fin g /\ g <= 0
       end.
Proof.
  intros Hne Hv HET.
  destruct (GiMin_del_optimo items phi Hne Hv)
    as (b & Hb & [(Hnan & Em) | (m & item' & Em & Hin' & Ei' & Hle)]);
    exists b; (split; [exact Hb | ]);
    unfold MainSizing.dimensionamientoFinal; rewrite Hb, Em.
  - change (PInf >? 0%R)%js with true; cbv iota.
    cbn [MainSizing.PpicoRequerida].
    exists 0; split; [ | split; [lra | ]].
    + unfold dimensionarGenerador.
      change (PInf <=? 0%R)%js with false.
      rewrite leb_Fin_false by lra; cbn [orb mul].
      rewrite scale_inf_pos by lra; reflexivity.
    + intros item g Hin Hg; rewrite (Hnan item Hin) in Hg; discriminate.
  - destruct (Rlt_dec 0 m) as [Hm | Hm].
    + rewrite (proj2 (gtb_Fin_iff m 0) Hm); cbn [MainSizing.PpicoRequerida].
      exists (ET / (m * 0.8)).
      assert (Hd : 0 < m * 0.8) by lra.
      split; [ | split].
      * unfold dimensionarGenerador.
        rewrite !leb_Fin_false by lra; cbn [orb mul].
        rewrite div_Fin by lra; reflexivity.
      * apply Rlt_le, Rdiv_lt_0_compat; assumption.
      * intros item g Hin Hg; pose proof (Hle item g Hin Hg) as Hmg.
        assert (HP : 0 < ET / (m * 0.8))
          by (apply Rdiv_lt_0_compat; assumption).
        assert (E : ET / (m * 0.8) * 0.8 * m = ET) by (field; lra).
        nra.
    + unfold gtb; rewrite (ltb_Fin_false 0 m) by lra.
      exists item', m; split; [exact Hin' | split; [exact Ei' | lra]].
Qed.

Lemma generador_para_el_peor_mes_witness :
  exists b : Z,
    Tabla.anguloOptimo (generarTablaAnualOptima [mesEquinoccio] (Fin 0))
    = Some b
    /\ match MainSizing.dimensionamientoFinal
               (Fin 3000) (generarTablaAnualOptima [mesEquinoccio] (Fin 0))
       with
       | Some gen =>
           exists P : R,
             MainSizing.PpicoRequerida gen = Fin P
             /\ 0 <= P
             /\ (forall item g,
                   In item [mesEquinoccio] -> GiEn (Fin 0) b item = Fin g ->
                   3000 <= P * 0.8 * g)
       | None =>
           exists item g,
             In item [mesEquinoccio] /\ GiEn (Fin 0) b item = Fin g
             /\ g <= 0
       end.
Proof.
  apply (generador_para_el_peor_mes [mesEquinoccio] 0 3000).
  - discriminate.
  - exact mesEquinoccio_lista.
  - lra.
Defined.

End WorstMonth.

(* ================================================================== *)
(** ** The result of calcularRadiacionOptima *)
(* ================================================================== *)

Section CoreResult.

Import Main.
Local Open Scope R_scope.

(** The months that pass the filter of [calcularRadiacionOptima] are valid
    samples. *)
Lemma core_pipeline_valida (phi : R) (diaDelMes : Z)
  (api : Z -> option num) :
  (forall dn, api dn = None \/ api dn = Some NaN
              \/ exists g : R, api dn = Some (Fin g)) ->
  Forall muestraValida
    (filter RadiationCore.esDatoValido
            (RadiationCore.resultsRaw (Fin phi) diaDelMes api)).
Proof.
  intros Hapi; apply Forall_forall; intros x Hx.
  apply filter_In in Hx; destruct Hx as [Hx Hval].
  unfold RadiationCore.resultsRaw in Hx.
  apply in_map_iff in Hx; destruct Hx as (item0 & <- & Hin).
  apply in_flat_map in Hin; destruct Hin as (mes & Hmes & Hin).
  unfold RadiationCore.prepararMes in Hin.
  destruct ((diaDelMes <? 1)%Z || (diaDelMes >? dias mes)%Z);
    [contradiction | ].
  destruct Hin as [<- | []].
  revert Hval; rewrite calcularDelta_Fin.
  destruct (calcularG0d_Fin phi
              (deltaR (IZR (inicio_dn mes + (diaDelMes - 1))))
              (IZR (inicio_dn mes + (diaDelMes - 1)))) as (w & g0 & ->).
  unfold RadiationCore.completarMes, RadiationCore.esDatoValido,
    typeof_number; cbn [dn G0.omega_s G0.E0 G0.G0d_kWh].
  destruct (Hapi (inicio_dn mes + (diaDelMes - 1))%Z)
    as [-> | [-> | (g & ->)]]; cbn [Gd_kWh andb].
  - unfold gtb; rewrite (ltb_Fin_false 0 0) by lra; discriminate.
  - discriminate.
  - intros Hg; apply gtb_Fin_iff in Hg.
    unfold muestraValida.
    cbn [isInvalid delta omega_s G0d_kWh Gd_kWh Kd Dd Id diasEnMes].
    split; [reflexivity | ].
    split; [do 3 eexists; repeat split; reflexivity | ].
    split; [exists g; split; [reflexivity | exact Hg] | ].
    split; [ | apply mesesData_dias; assumption].
    destruct (calcularComponentesHorizontales _ _); reflexivity.
Qed.

Lemma filter_de_map {A B : Type} (f : B -> bool) (h : A -> B) (l : list A) :
  filter f (map h l) = map h (filter (fun a => f (h a)) l).
Proof.
  induction l as [ | a l IH]; [reflexivity | ].
  cbn [map filter]; destruct (f (h a)); cbn [map]; rewrite IH; reflexivity.
Qed.

(** X20. [calcularRadiacionOptima] with at least 10 usable months (the data
    source answering numbers, [NaN] or failing): the angle returned is one
    of the candidates, the annual value returned is the annual total of
    that angle, it is not negative and no candidate has a greater total;
    the monthly results are one per usable month, and the annual value is
    the day-weighted sum of their tilted irradiation divided by 1000. *)
Theorem optimo_del_core (phiGrados : R) (diaDelMes : Z)
  (api : Z -> option num) :
  (forall dn, api dn = None \/ api dn = Some NaN
              \/ exists g : R, api dn = Some (Fin g)) ->
  (10 <= List.length
           (filter RadiationCore.esDatoValido
                   (RadiationCore.resultsRaw (Fin phiGrados / RAD_A_DEG)%js
                                             diaDelMes api)))%nat ->
  exists (b : Z) (m : R),
    let lat := (Fin phiGrados / RAD_A_DEG)%js in
    let datos := filter RadiationCore.esDatoValido
                        (RadiationCore.resultsRaw lat diaDelMes api) in
    let r := RadiationCore.calcularRadiacionOptima (Fin phiGrados) diaDelMes
                                                   api in
    RadiationCore.Optima.anguloOptimo r = Some b
    /\ In b candidatos
    /\ RadiationCore.Optima.GiAnualMWh r = Fin m
    /\ 0 <= m
    /\ totalAnual datos lat b = Fin m
    /\ (forall b', In b' candidatos ->
          exists t : R, totalAnual datos lat b' = Fin t /\ t <= m)
    /\ map fst (RadiationCore.Optima.resultadosMensuales r) = datos
    /\ (suma (map (fun p => Inc.Gi (snd p) * Fin (IZR (diasEnMes (fst p))))%js
                  (filter (fun p => negb (isNaN (Inc.Gi (snd p))))
                          (RadiationCore.Optima.resultadosMensuales r)))
        / 1000%R)%js
       = Fin m.
Proof.
  intros Hapi Hlen.
  unfold RadiationCore.calcularRadiacionOptima.
  rewrite grados_a_radianes in *.
  set (phi := phiGrados / (180 / Rpi)) in *.
  pose proof (core_pipeline_valida phi diaDelMes api Hapi) as Hv.
  set (datos := filter RadiationCore.esDatoValido
                       (RadiationCore.resultsRaw (Fin phi) diaDelMes api))
    in *.
  destruct (totales_validos datos phi Hv) as [Hfin H0].
  destruct (busqueda_primer_maximo datos (Fin phi) Hfin H0)
    as (b & m & c1 & c2 & Hc & Hb & Hm & Ht & H1 & H2).
  unfold busquedaAnual in Hb, Hm.
  exists b, m; cbv zeta.
  unfold RadiationCore.optimizar.
  assert (Hguard : (Z.of_nat (List.length datos) <? 10)%Z = false)
    by (apply Z.ltb_ge; lia).
  rewrite Hguard, Hb, Hm.
  cbn [RadiationCore.Optima.anguloOptimo RadiationCore.Optima.GiAnualMWh
       RadiationCore.Optima.resultadosMensuales].
  assert (Hin : In b candidatos) by (rewrite Hc; apply in_elt).
  assert (Hmax : forall b', In b' candidatos ->
            exists t : R, totalAnual datos (Fin phi) b' = Fin t /\ t <= m).
  { intros b' Hb'; rewrite Hc in Hb'; apply in_app_or in Hb'.
    destruct Hb' as [Hb' | [<- | Hb']].
    - destruct (H1 b' Hb') as (t & E & Hlt); exists t; split; [exact E | lra].
    - exists m; split; [exact Ht | lra].
    - exact (H2 b' Hb'). }
  split; [reflexivity | split; [exact Hin | split; [reflexivity | ]]].
  split.
  { destruct (totalAnual_valida datos phi 0 Hv) as (t0 & E0 & Hpos).
    assert (H0in : In 0%Z candidatos) by (rewrite candidatos_lista; left; reflexivity).
    destruct (Hmax 0%Z H0in) as (t & E & Hle).
    rewrite E0 in E; injection E as <-.
    specialize (Hpos eq_refl); lra. }
  split; [exact Ht | split; [exact Hmax | split]].
  - rewrite map_map; cbn [fst]; apply map_id.
  - rewrite filter_de_map, map_map; cbn [fst snd].
    exact Ht.
Qed.

Lemma doce_meses_core :
  List.length (filter RadiationCore.esDatoValido
                 (RadiationCore.resultsRaw (Fin 10 / RAD_A_DEG)%js 15
                                           apiCinco))
  = 12%nat.
Proof.
  rewrite meses_filtrados_core.
  erewrite filter_ext.
  - instantiate (1 := fun mes =>
                        negb ((15 <? 1)%Z || (15 >? dias mes)%Z)).
    reflexivity.
  - intros mes; unfold apiCinco.
    rewrite (proj2 (gtb_Fin_iff 5 0)) by lra; apply andb_true_r.
Qed.

Lemma optimo_del_core_witness :
  exists (b : Z) (m : R),
    let lat := (Fin 10 / RAD_A_DEG)%js in
    let datos := filter RadiationCore.esDatoValido
                        (RadiationCore.resultsRaw lat 15 apiCinco) in
    let r := RadiationCore.calcularRadiacionOptima (Fin 10) 15 apiCinco in
    RadiationCore.Optima.anguloOptimo r = Some b
    /\ In b candidatos
    /\ RadiationCore.Optima.GiAnualMWh r = Fin m
    /\ 0 <= m
    /\ totalAnual datos lat b = Fin m
    /\ (forall b', In b' candidatos ->
          exists t : R, totalAnual datos lat b' = Fin t /\ t <= m)
    /\ map fst (RadiationCore.Optima.resultadosMensuales r) = datos
    /\ (suma (map (fun p => Inc.Gi (snd p) * Fin (IZR (diasEnMes (fst p))))%js
                  (filter (fun p => negb (isNaN (Inc.Gi (snd p))))
                          (RadiationCore.Optima.resultadosMensuales r)))
        / 1000%R)%js
       = Fin m.
Proof.
  apply (optimo_del_core 10 15 apiCinco).
  - intros dn; right; right; exists 5; reflexivity.
  - rewrite doce_meses_core; lia.
Defined.

End CoreResult.

(* ================================================================== *)
(** ** The grid-connected sizing *)
(* ================================================================== *)

Section GridFacts.

Import GridFormulas GridScript.
Local Open Scope R_scope.

(** A number that is not [<= 0] stays so when multiplied by 1000. *)
Lemma mil_veces_positivo (g : num) :
  (g <=? 0%R)%js = false -> (g * 1000%R <=? 0%R)%js = false.
Proof.
  destruct g as [ | | | a]; cbn [mul]; try reflexivity; try discriminate.
  - intros _; rewrite scale_inf_pos by lra; reflexivity.
  - intros H.
    assert (0 < a) by (destruct (Rle_dec a 0) as [Hle | Hgt];
                       [rewrite (leb_Fin_true a 0 Hle) in H; discriminate | lra]).
    apply leb_Fin_false; lra.
Qed.

(** X21. [dimensionarSistemaOnGrid] throws exactly when the annual
    radiation, the performance factor or the module power is [<= 0], with
    the error of the first of these checks that fails; an argument that is
    [NaN] is never rejected, and the check of the annual peak sun hours in
    [calcularPotenciaPico] never fails here. *)
Theorem errores_del_dimensionamiento_de_red
  (consumoAnual_kWh GiAnualMWh factorRendimiento potenciaModulo_Wp
   anguloOptimo : num) (e : Error) :
  dimensionarSistemaOnGrid consumoAnual_kWh GiAnualMWh factorRendimiento
                           potenciaModulo_Wp anguloOptimo = inl e
  <-> ((GiAnualMWh <=? 0%R)%js = true /\ e = RadiacionAnual)
      \/ ((GiAnualMWh <=? 0%R)%js = false
          /\ (factorRendimiento <=? 0%R)%js = true
          /\ e = HSPyRendimiento)
      \/ ((GiAnualMWh <=? 0%R)%js = false
          /\ (factorRendimiento <=? 0%R)%js = false
          /\ (potenciaModulo_Wp <=? 0%R)%js = true
          /\ e = PotenciaModulo).
Proof.
  unfold dimensionarSistemaOnGrid.
  destruct (GiAnualMWh <=? 0%R)%js eqn:Eg.
  - split.
    + intros [= <-]; left; split; reflexivity.
    + intros [[_ ->] | [(H & _) | (H & _)]];
        [reflexivity | discriminate H | discriminate H].
  - unfold calcularPotenciaPico.
    rewrite (mil_veces_positivo GiAnualMWh Eg); cbn [orb].
    destruct (factorRendimiento <=? 0%R)%js eqn:Ef; cbn [ligar].
    + split.
      * intros [= <-]; right; left; repeat split; reflexivity.
      * intros [[H _] | [(_ & _ & ->) | (_ & H & _)]];
          [discriminate H | reflexivity | discriminate H].
    + unfold calcularNumeroModulos.
      destruct (potenciaModulo_Wp <=? 0%R)%js eqn:Ep; cbn [ligar].
      * split.
        -- intros [= <-]; right; right; repeat split; reflexivity.
        -- intros [[H _] | [(_ & H & _) | (_ & _ & _ & ->)]];
             [discriminate H | discriminate H | reflexivity].
      * split; [discriminate | ].
        intros [[H _] | [(_ & H & _) | (_ & _ & H & _)]]; discriminate H.
Qed.



End GridFacts.

(* ================================================================== *)
(** ** The grid-connected calculator *)
(* ================================================================== *)

Section GridScriptFacts.

Import GridFormulas GridScript.
Local Open Scope R_scope.

Lemma no_negativo_Fin (a : R) : (Fin a <=? 0%R)%js = false -> 0 < a.
Proof.
  intros H; destruct (Rle_dec a 0) as [Hle | Hgt]; [ | lra].
  rewrite (leb_Fin_true a 0 Hle) in H; discriminate.
Qed.

(** The performance factor, given as a fraction or as a percentage, is not
    [<= 0] when the field is not. *)
Lemma factor_positivo (r : num) :
  (r <=? 0%R)%js = false ->
  ((if (r >? 1%R)%js then (r / 100%R)%js else r) <=? 0%R)%js = false.
Proof.
  destruct r as [ | | | a]; try reflexivity; try discriminate.
  - intros _; cbn [gtb ltb div].
    destruct (Rlt_dec 100 0); [lra | reflexivity].
  - intros H; apply no_negativo_Fin in H.
    destruct (Fin a >? 1%R)%js.
    + rewrite div_Fin by lra; apply leb_Fin_false; lra.
    + apply leb_Fin_false; exact H.
Qed.

(** X23. [handleGridCalculation]: once the values have passed its
    validation, neither [calcularPotenciaPico] nor [calcularNumeroModulos]
    can throw, whatever the fields hold: the error message of the [catch]
    around the computation is never shown because of them. *)
Theorem calculo_de_red_sin_error
  (consumoAnual_kWh HSP_anual rendimientoSistema potenciaModulo_Wp
   voltaje_leido distancia_leida caida_leida : num) :
  calculoDeRed consumoAnual_kWh HSP_anual rendimientoSistema
               potenciaModulo_Wp voltaje_leido distancia_leida caida_leida
  <> ErrorDeCalculo.
Proof.
  unfold calculoDeRed; cbv zeta.
  destruct ((consumoAnual_kWh <=? 0%R)%js || (HSP_anual <=? 0%R)%js
            || (rendimientoSistema <=? 0%R)%js
            || (potenciaModulo_Wp <=? 0%R)%js) eqn:G; [discriminate | ].
  apply orb_false_elim in G; destruct G as [G Gp].
  apply orb_false_elim in G; destruct G as [G Gr].
  apply orb_false_elim in G; destruct G as [_ Gh].
  unfold calcularPotenciaPico.
  rewrite Gh, (factor_positivo rendimientoSistema Gr); cbn [orb ligar].
  unfold calcularNumeroModulos; rewrite Gp; cbn [ligar].
  discriminate.
Qed.




End GridScriptFacts.

(* ================================================================== *)
(** ** The retries of the refactored data source *)
(* ================================================================== *)

Section OpenMeteoJSFacts.

Import OpenMeteoJS.
Local Open Scope nat_scope.

(** The loop when no response carries a value. *)
Lemma bucleJS_sin_valor (red : nat -> Respuesta) (M p a : nat)
  (ps : list Z) :
  a + S p = M ->
  (forall k, a <= k < M -> conValor (red k) = false) ->
  bucleReintentos red M (S p) a ps
  = mkTraza FalloDefinitivo M
      (ps ++ map (fun j => (1000 * 2 ^ Z.of_nat j)%Z) (seq a p)).
Proof.
  revert a ps; induction p as [ | p IH]; intros a ps Hap Hno.
  - assert (Ha : conValor (red a) = false) by (apply Hno; lia).
    cbn [bucleReintentos]; rewrite (ultimo_turno a M) by lia.
    cbn [seq map]; rewrite app_nil_r.
    replace M with (S a) by lia.
    destruct (red a); try discriminate Ha; reflexivity.
  - assert (Ha : conValor (red a) = false) by (apply Hno; lia).
    assert (E : bucleReintentos red M (S p) (S a)
                  (ps ++ [(1000 * 2 ^ Z.of_nat a)%Z])
                = mkTraza FalloDefinitivo M
                    (ps ++ map (fun j => (1000 * 2 ^ Z.of_nat j)%Z)
                               (seq a (S p)))).
    { rewrite IH; [ | lia | intros k Hk; apply Hno; lia].
      rewrite pausas_seq; reflexivity. }
    change (bucleReintentos red M (S (S p)) a ps)
      with (match red a with
            | ConValor value_MJ =>
                mkTraza (Devuelve (Fin value_MJ * MJ_A_KWH)%js) (S a) ps
            | _ =>
                if (Z.of_nat a <? Z.of_nat M - 1)%Z then
                  bucleReintentos red M (S p) (S a)
                    (ps ++ [(1000 * 2 ^ Z.of_nat a)%Z])
                else mkTraza FalloDefinitivo (S a) ps
            end).
    rewrite (mas_turnos a p M) by lia.
    destruct (red a); try discriminate Ha; exact E.
Qed.

(** The loop up to the first response that carries a value. *)
Lemma bucleJS_con_valor (red : nat -> Respuesta) (M p a k : nat)
  (ps : list Z) (v : R) :
  a + p = M -> a <= k < M ->
  (forall j, a <= j < k -> conValor (red j) = false) ->
  red k = ConValor v ->
  bucleReintentos red M p a ps
  = mkTraza (Devuelve (Fin (v * 0.277778))) (S k)
      (ps ++ map (fun j => (1000 * 2 ^ Z.of_nat j)%Z) (seq a (k - a))).
Proof.
  revert a ps; induction p as [ | p IH]; intros a ps Hap Hk Hno Hsi;
    [lia | ].
  destruct (Nat.eq_dec a k) as [-> | Hne].
  - replace (k - k) with 0 by lia; cbn [seq map]; rewrite app_nil_r.
    cbn [bucleReintentos]; rewrite Hsi; reflexivity.
  - assert (Ha : conValor (red a) = false) by (apply Hno; lia).
    destruct p as [ | p]; [lia | ].
    assert (E : bucleReintentos red M (S p) (S a)
                  (ps ++ [(1000 * 2 ^ Z.of_nat a)%Z])
                = mkTraza (Devuelve (Fin (v * 0.277778))) (S k)
                    (ps ++ map (fun j => (1000 * 2 ^ Z.of_nat j)%Z)
                               (seq a (k - a)))).
    { rewrite IH; [ | lia | lia | intros j Hj; apply Hno; lia | exact Hsi].
      replace (k - a) with (S (k - S a)) by lia.
      rewrite pausas_seq; reflexivity. }
    change (bucleReintentos red M (S (S p)) a ps)
      with (match red a with
            | ConValor value_MJ =>
                mkTraza (Devuelve (Fin value_MJ * MJ_A_KWH)%js) (S a) ps
            | _ =>
                if (Z.of_nat a <? Z.of_nat M - 1)%Z then
                  bucleReintentos red M (S p) (S a)
                    (ps ++ [(1000 * 2 ^ Z.of_nat a)%Z])
                else mkTraza FalloDefinitivo (S a) ps
            end).
    rewrite (mas_turnos a p M) by lia.
    destruct (red a); try discriminate Ha; exact E.
Qed.

(** X25. The refactored [obtenerGdOpenMeteo]: when it may try at least once
    and none of the first [maxRetries] requests carries a value, it throws
    the definitive failure of the last turn, after exactly [maxRetries]
    requests and pauses of 1 s, 2 s, 4 s, ... between them; the [throw]
    that follows the loop is not reached. *)
Theorem fallo_definitivo (red : nat -> Respuesta) (maxRetries : nat) :
  1 <= maxRetries ->
  (forall k, k < maxRetries -> conValor (red k) = false) ->
  obtenerGdOpenMeteo red maxRetries
  = mkTraza FalloDefinitivo maxRetries (pausasHasta (maxRetries - 1)).
Proof.
  intros HM H; unfold obtenerGdOpenMeteo, pausasHasta.
  destruct maxRetries as [ | M]; [lia | ].
  rewrite (bucleJS_sin_valor red (S M) M 0 []);
    [ | lia | intros k Hk; apply H; lia].
  replace (S M - 1) with M by lia; reflexivity.
Qed.

Lemma fallo_definitivo_witness :
  obtenerGdOpenMeteo redJSNula 3
  = mkTraza FalloDefinitivo 3 [1000%Z; 2000%Z].
Proof.
  apply (fallo_definitivo redJSNula 3); [lia | ].
  intros k _; reflexivity.
Defined.

(** X26. The refactored [obtenerGdOpenMeteo]: the first request, among the
    first [maxRetries], that carries a value decides the number returned,
    the value times 0.277778; every other outcome before it, an error
    reported by the service or a null included, is retried after a pause
    of 1 s, 2 s, 4 s, ... *)
Theorem primer_valor_recibido
  (red : nat -> Respuesta) (maxRetries k : nat) (v : R) :
  k < maxRetries ->
  (forall j, j < k -> conValor (red j) = false) ->
  red k = ConValor v ->
  obtenerGdOpenMeteo red maxRetries
  = mkTraza (Devuelve (Fin (v * 0.277778))) (S k) (pausasHasta k).
Proof.
  intros Hk Hno Hsi; unfold obtenerGdOpenMeteo, pausasHasta.
  rewrite (bucleJS_con_valor red maxRetries maxRetries 0 k [] v);
    [ | lia | lia | intros j Hj; apply Hno; lia | exact Hsi].
  replace (k - 0) with k by lia; reflexivity.
Qed.

Lemma primer_valor_recibido_witness :
  obtenerGdOpenMeteo redJSTercera 3
  = mkTraza (Devuelve (Fin (18 * 0.277778))) 3 [1000%Z; 2000%Z].
Proof.
  apply (primer_valor_recibido redJSTercera 3 2 18).
  - lia.
  - intros j Hj; unfold redJSTercera.
    destruct j as [ | [ | j]]; [reflexivity | reflexivity | lia].
  - reflexivity.
Defined.



End OpenMeteoJSFacts.

(* ================================================================== *)
(** ** The yearly consumption of the grid-connected calculator *)
(* ================================================================== *)

Section GridConsumption.

Import GridScript.
Local Open Scope R_scope.




End GridConsumption.
